(** * SchemaSync core: normalizer, differ, DDL generators, catalog loaders

    A shallow embedding of the schema engine of the repository
    (packages/core: normalize, diff, generate, discovery/postgres,
    discovery/mariadb) together with the properties its specification states
    about it and further properties of the code.  Of the loaders, the loops
    that build tables, primary keys, indexes, foreign keys and triggers from
    the rows of the catalog queries are modelled as functions of those rows.

    Conventions of the embedding.
    - A JavaScript string is a [list ascii] ([jsstring]).  The string
      primitives ([trim], [toLowerCase], [toUpperCase], the regular
      expressions of the loader) are modelled on the ASCII range: the
      white-space class is TAB, LF, VT, FF, CR and SPACE, case folding maps
      A-Z and a-z onto each other, and every other character is inert.
    - [T | null | undefined] is the three-valued [jsopt T]; an optional
      field that is only ever absent or present is an [option].
    - [Array.prototype.push] and [forEach] become explicit state passing on
      the array; a JavaScript [Map] is an association list that keeps
      insertion order ([JsMap]); the type-mapping object of the normalizer
      is a [gmap].
    - lodash [sortBy] on string keys is a stable insertion sort under the
      code-unit order of JavaScript's [<]; lodash [isEqual] on the plain
      data compared here is structural equality. *)

From Stdlib Require Import List Ascii String ZArith Lia Bool DecimalString.
From stdpp Require Import base decidable option list gmap strings.
Import ListNotations.

Local Open Scope list_scope.

(* ===================================================================== *)
(** ** JavaScript strings *)
(* ===================================================================== *)

Definition jsstring : Type := list ascii.

Definition str (s : string) : jsstring := list_ascii_of_string s.

Definition LF : ascii := ascii_of_nat 10.
Definition CR : ascii := ascii_of_nat 13.

(** [\s] on the ASCII range. *)
Definition is_space (c : ascii) : bool :=
  let n := nat_of_ascii c in
  ((9 <=? n) && (n <=? 13)) || (n =? 32).

(** [\w] is [[A-Za-z0-9_]]. *)
Definition is_word (c : ascii) : bool :=
  let n := nat_of_ascii c in
  ((48 <=? n) && (n <=? 57)) || ((65 <=? n) && (n <=? 90))
  || ((97 <=? n) && (n <=? 122)) || (n =? 95).

Definition lower_char (c : ascii) : ascii :=
  let n := nat_of_ascii c in
  if (65 <=? n) && (n <=? 90) then ascii_of_nat (n + 32) else c.

Definition upper_char (c : ascii) : ascii :=
  let n := nat_of_ascii c in
  if (97 <=? n) && (n <=? 122) then ascii_of_nat (n - 32) else c.

Definition toLowerCase (s : jsstring) : jsstring := map lower_char s.
Definition toUpperCase (s : jsstring) : jsstring := map upper_char s.

Definition jsstring_eqb (a b : jsstring) : bool := bool_decide (a = b).

Fixpoint trimStart (s : jsstring) : jsstring :=
  match s with
  | [] => []
  | c :: s' => if is_space c then trimStart s' else s
  end.

Fixpoint trimEnd (s : jsstring) : jsstring :=
  match s with
  | [] => []
  | c :: s' =>
      match trimEnd s' with
      | [] => if is_space c then [] else [c]
      | r => c :: r
      end
  end.

Definition trim (s : jsstring) : jsstring := trimEnd (trimStart s).

(** A string is falsy exactly when it is empty. *)
Definition truthy (s : jsstring) : bool :=
  match s with [] => false | _ :: _ => true end.

Fixpoint startsWith (p s : jsstring) : bool :=
  match p, s with
  | [], _ => true
  | _ :: _, [] => false
  | a :: p', b :: s' => if Ascii.eqb a b then startsWith p' s' else false
  end.

Definition endsWith (p s : jsstring) : bool := startsWith (rev p) (rev s).

(** [s.includes(p)] *)
Fixpoint includes (p s : jsstring) : bool :=
  startsWith p s ||
  match s with
  | [] => false
  | _ :: s' => includes p s'
  end.

(** [s.slice(1, -1)] *)
Definition slice_1_m1 (s : jsstring) : jsstring := removelast (tl s).

(** [parts.join(sep)] *)
Fixpoint join (sep : jsstring) (parts : list jsstring) : jsstring :=
  match parts with
  | [] => []
  | [p] => p
  | p :: rest => p ++ sep ++ join sep rest
  end.

(** [s.split(c)] for a one-character separator; never returns [[]]. *)
Fixpoint split (c : ascii) (s : jsstring) : list jsstring :=
  match s with
  | [] => [[]]
  | x :: s' =>
      if Ascii.eqb x c then [] :: split c s'
      else match split c s' with
           | [] => [[x]]
           | w :: ws => (x :: w) :: ws
           end
  end.

(** [s.replace(/c/g, r)] for a one-character pattern. *)
Definition replaceAll (c : ascii) (r : jsstring) (s : jsstring) : jsstring :=
  flat_map (fun x => if Ascii.eqb x c then r else [x]) s.

(** [s.replace(/\s+/g, ' ')]: every maximal run of white space becomes one
    space.  [in_run] tells that the previous character was white space. *)
Fixpoint collapse_ws (in_run : bool) (s : jsstring) : jsstring :=
  match s with
  | [] => []
  | c :: s' =>
      if is_space c
      then (if in_run then collapse_ws true s' else " "%char :: collapse_ws true s')
      else c :: collapse_ws false s'
  end.

(** Template-literal rendering of an integer-valued number. *)
Definition number_to_string (n : Z) : jsstring :=
  str (NilZero.string_of_int (Z.to_int n)).

(** JavaScript's [<=] on strings: lexicographic on code units. *)
Fixpoint str_leb (a b : jsstring) : bool :=
  match a, b with
  | [], _ => true
  | _ :: _, [] => false
  | x :: a', y :: b' =>
      if nat_of_ascii x <? nat_of_ascii y then true
      else if nat_of_ascii y <? nat_of_ascii x then false
      else str_leb a' b'
  end.

(* ===================================================================== *)
(** ** lodash sortBy, JavaScript Map, nullish values *)
(* ===================================================================== *)

Section SortBy.
Context {A : Type} (key : A -> jsstring).

Fixpoint sort_insert (x : A) (l : list A) : list A :=
  match l with
  | [] => [x]
  | y :: l' =>
      if str_leb (key x) (key y) then x :: l else y :: sort_insert x l'
  end.

(** [sortBy(l, key)]: ascending, equal keys keep their input order. *)
Definition sortBy (l : list A) : list A := fold_right sort_insert [] l.

(** Adjacent elements are in order. *)
Fixpoint sorted_by (l : list A) : bool :=
  match l with
  | [] => true
  | x :: l' =>
      match l' with
      | [] => true
      | y :: _ => str_leb (key x) (key y) && sorted_by l'
      end
  end.
End SortBy.

Inductive jsopt (A : Type) : Type :=
| Undefined : jsopt A
| Null : jsopt A
| Val : A -> jsopt A.
Arguments Undefined {A}.
Arguments Null {A}.
Arguments Val {A} _.

#[global] Instance jsopt_eq_dec {A} `{EqDecision A} : EqDecision (jsopt A).
Proof. solve_decision. Defined.

(** [x ?? null]: [None] stands for [null]. *)
Definition or_null {A} (x : jsopt A) : option A :=
  match x with Val a => Some a | _ => None end.

(** [x ?? d] *)
Definition or_else {A} (x : jsopt A) (d : A) : A :=
  match x with Val a => a | _ => d end.

(** [x == null] / [x != null] *)
Definition is_nullish {A} (x : jsopt A) : bool :=
  match x with Val _ => false | _ => true end.

Module JsMap.
Section Defs.
Context {V : Type}.

Definition t : Type := list (jsstring * V).

Definition empty : t := [].

(** [m.set(k, v)]: an existing key keeps its position. *)
Fixpoint set (k : jsstring) (v : V) (m : t) : t :=
  match m with
  | [] => [(k, v)]
  | (k', v') :: m' =>
      if jsstring_eqb k' k then (k', v) :: m' else (k', v') :: set k v m'
  end.

Fixpoint get (k : jsstring) (m : t) : option V :=
  match m with
  | [] => None
  | (k', v') :: m' => if jsstring_eqb k' k then Some v' else get k m'
  end.

Definition has (k : jsstring) (m : t) : bool :=
  match get k m with Some _ => true | None => false end.

(** [new Map(entries)] and a [forEach] of [set] calls. *)
Definition of_entries (es : list (jsstring * V)) : t :=
  fold_left (fun m e => set (fst e) (snd e) m) es empty.
End Defs.
Arguments t : clear implicits.
End JsMap.

(* ===================================================================== *)
(** ** Schema model (types.ts) *)
(* ===================================================================== *)

Inductive Generated : Type := identity | sequence | auto_increment.

#[global] Instance Generated_eq_dec : EqDecision Generated.
Proof. solve_decision. Defined.

Module Column.
Record t : Type := mk {
  name : jsstring;
  dataType : jsstring;
  length : option Z;
  precisionScale : option (Z * Z);
  nullable : bool;
  default : jsopt jsstring;
  generated : jsopt Generated;
  collation : jsopt jsstring;
}.
End Column.

Module PrimaryKey.
Record t : Type := mk {
  name : jsopt jsstring;
  columns : list jsstring;
}.
End PrimaryKey.

Module Index.
Record t : Type := mk {
  name : jsstring;
  unique : bool;
  columns : list jsstring;
  using_ : option jsstring;   (* [using] is reserved in Rocq *)
}.
End Index.

Module ForeignKey.
Record t : Type := mk {
  name : jsstring;
  columns : list jsstring;
  refTable : jsstring;
  refColumns : list jsstring;
  onUpdate : option jsstring;
  onDelete : option jsstring;
}.
End ForeignKey.

Module Check.
Record t : Type := mk {
  name : jsstring;
  expression : jsstring;
}.
End Check.

Module Table.
Record t : Type := mk {
  name : jsstring;
  columns : list Column.t;
  primaryKey : option PrimaryKey.t;
  indexes : list Index.t;
  checks : list Check.t;
  fks : list ForeignKey.t;
}.
End Table.

Module View.
Record t : Type := mk {
  name : jsstring;
  definition : jsstring;
}.
End View.

Inductive RoutineKind : Type := function | procedure.

Definition RoutineKind_str (k : RoutineKind) : jsstring :=
  match k with function => str "function" | procedure => str "procedure" end.

Module Routine.
Record t : Type := mk {
  name : jsstring;
  kind : RoutineKind;
  language : option jsstring;
  definition : jsstring;
}.
End Routine.

Inductive Timing : Type := before | after.

#[global] Instance Timing_eq_dec : EqDecision Timing.
Proof. solve_decision. Defined.

Definition Timing_str (t : Timing) : jsstring :=
  match t with before => str "before" | after => str "after" end.

Inductive Event : Type := insert | update | delete.

#[global] Instance Event_eq_dec : EqDecision Event.
Proof. solve_decision. Defined.

Definition Event_str (e : Event) : jsstring :=
  match e with
  | insert => str "insert"
  | update => str "update"
  | delete => str "delete"
  end.

Module Trigger.
Record t : Type := mk {
  name : jsstring;
  table : jsstring;
  timing : Timing;
  events : list Event;
  definition : jsstring;
}.
End Trigger.

Module SchemaModel.
Record t : Type := mk {
  tables : list Table.t;
  views : list View.t;
  routines : list Routine.t;
  triggers : list Trigger.t;
}.
End SchemaModel.

Inductive Strategy : Type := preserve | lower | upper.

Module NameCaseOptions.
Record t : Type := mk {
  strategy : Strategy;
  ignore : option (list jsstring);
}.
End NameCaseOptions.

Module NormalizationOptions.
Record t : Type := mk {
  nameCase : option NameCaseOptions.t;
  normalizeDefaults : bool;
  mapTypes : option (gmap jsstring jsstring);
}.
End NormalizationOptions.

(* ===================================================================== *)
(** ** Normalizer (normalize/index.ts) *)
(* ===================================================================== *)

Definition DEFAULT_TYPE_MAPPINGS : gmap jsstring jsstring :=
  list_to_map
    [ (str "double precision", str "double");
      (str "character varying", str "varchar");
      (str "timestamp without time zone", str "timestamp");
      (str "timestamp with time zone", str "timestamptz");
      (str "integer", str "int");
      (str "int4", str "int");
      (str "int8", str "bigint");
      (str "int2", str "smallint");
      (str "tinyint(1)", str "boolean");
      (str "bool", str "boolean");
      (str "bit(1)", str "boolean") ].

Definition normalizeName (value : jsstring) (options : NormalizationOptions.t)
  : jsstring :=
  match NormalizationOptions.nameCase options with
  | None => value
  | Some nameCase =>
      if match NameCaseOptions.ignore nameCase with
         | Some ig => bool_decide (value ∈ ig)
         | None => false
         end
      then value
      else match NameCaseOptions.strategy nameCase with
           | lower => toLowerCase value
           | upper => toUpperCase value
           | preserve => value
           end
  end.

(** The body of the [while] loop of [normalizeDefault]; every iteration
    removes at least two characters, so [fuel] equal to the length of the
    string is never exhausted (lemma [stripParens_done] below). *)
Fixpoint stripParens (fuel : nat) (normalized : jsstring) : jsstring :=
  match fuel with
  | O => normalized
  | S fuel' =>
      if startsWith (str "(") normalized && endsWith (str ")") normalized
      then let inner := trim (slice_1_m1 normalized) in
           if truthy inner then stripParens fuel' inner else normalized
      else normalized
  end.

Definition normalizeDefault (value : jsopt jsstring) : jsopt jsstring :=
  match value with
  | Val v =>
      let trimmed := trim v in
      if truthy trimmed then
        let normalized := stripParens (List.length trimmed) trimmed in
        if jsstring_eqb (toLowerCase normalized) (str "now()")
        then Val (str "CURRENT_TIMESTAMP")
        else Val normalized
      else value
  | _ => value
  end.

Definition normalizeExpression (expression : jsstring) : jsstring :=
  trim (collapse_ws false expression).

(** [{ ...DEFAULT_TYPE_MAPPINGS, ...(options.mapTypes ?? {}) }]: the user's
    entries win.  The [gmap] holds the own properties of the object. *)
Definition merged_mapper (options : NormalizationOptions.t)
  : gmap jsstring jsstring :=
  match NormalizationOptions.mapTypes options with
  | Some user => user ∪ DEFAULT_TYPE_MAPPINGS
  | None => DEFAULT_TYPE_MAPPINGS
  end.

(** The mapper is an object literal, so a key it does not own is looked up
    in [Object.prototype].  A lower-cased key can only meet the two
    properties of [Object.prototype] whose names are in lower case:
    [constructor], the function [Object], and [__proto__], the object
    [Object.prototype] itself.  Neither is a string, neither is nullish. *)
Inductive Inherited : Type := ObjectFunction | ObjectPrototype.

#[global] Instance Inherited_eq_dec : EqDecision Inherited.
Proof. solve_decision. Defined.

Definition inherited_name (o : Inherited) : jsstring :=
  match o with
  | ObjectFunction => str "constructor"
  | ObjectPrototype => str "__proto__"
  end.

Definition inherited_property (key : jsstring) : option Inherited :=
  if jsstring_eqb key (str "constructor") then Some ObjectFunction
  else if jsstring_eqb key (str "__proto__") then Some ObjectPrototype
  else None.

(** The value of [normalizedType]: a string, or one of the inherited
    objects. *)
Inductive DataType : Type :=
  | StringType (s : jsstring)
  | InheritedType (o : Inherited).

#[global] Instance DataType_eq_dec : EqDecision DataType.
Proof. solve_decision. Defined.

(** [mapper[t.toLowerCase()] ?? t.toLowerCase()] *)
Definition mapType (mapper : gmap jsstring jsstring) (dataType : jsstring)
  : DataType :=
  match mapper !! toLowerCase dataType with
  | Some t => StringType t
  | None =>
      match inherited_property (toLowerCase dataType) with
      | Some o => InheritedType o
      | None => StringType (toLowerCase dataType)
      end
  end.

(** The models [normalizeSchemaModel] returns: as the input models, but the
    data type of a column is whatever [mapType] gave. *)
Module NormalizedColumn.
Record t : Type := mk {
  name : jsstring;
  dataType : DataType;
  length : option Z;
  precisionScale : option (Z * Z);
  nullable : bool;
  default : jsopt jsstring;
  generated : jsopt Generated;
  collation : jsopt jsstring;
}.
End NormalizedColumn.

Module NormalizedTable.
Record t : Type := mk {
  name : jsstring;
  columns : list NormalizedColumn.t;
  primaryKey : option PrimaryKey.t;
  indexes : list Index.t;
  checks : list Check.t;
  fks : list ForeignKey.t;
}.
End NormalizedTable.

Module NormalizedModel.
Record t : Type := mk {
  tables : list NormalizedTable.t;
  views : list View.t;
  routines : list Routine.t;
  triggers : list Trigger.t;
}.
End NormalizedModel.

Definition normalizeColumn (column : Column.t)
    (mapper : gmap jsstring jsstring) (options : NormalizationOptions.t)
  : NormalizedColumn.t :=
  let normalizedType := mapType mapper (Column.dataType column) in
  let normalizedDefault :=
    if NormalizationOptions.normalizeDefaults options
    then normalizeDefault (Column.default column)
    else Column.default column in
  {| NormalizedColumn.name := normalizeName (Column.name column) options;
     NormalizedColumn.dataType := normalizedType;
     NormalizedColumn.length := Column.length column;
     NormalizedColumn.precisionScale := Column.precisionScale column;
     NormalizedColumn.nullable := Column.nullable column;
     NormalizedColumn.default := normalizedDefault;
     NormalizedColumn.generated :=
       match Column.generated column with Val g => Val g | _ => Null end;
     NormalizedColumn.collation :=
       match Column.collation column with Val c => Val c | _ => Null end |}.

Definition normalizeTable (table : Table.t)
    (mapper : gmap jsstring jsstring) (options : NormalizationOptions.t)
  : NormalizedTable.t :=
  let name := normalizeName (Table.name table) options in
  let normalizedColumns :=
    map (fun column => normalizeColumn column mapper options)
        (Table.columns table) in
  {| NormalizedTable.name := name;
     NormalizedTable.columns := normalizedColumns;
     NormalizedTable.primaryKey :=
       match Table.primaryKey table with
       | Some pk =>
           Some {| PrimaryKey.name :=
                     match PrimaryKey.name pk with Val n => Val n | _ => Null end;
                   PrimaryKey.columns :=
                     map (fun col => normalizeName col options)
                         (PrimaryKey.columns pk) |}
       | None => None
       end;
     NormalizedTable.indexes :=
       map (fun index =>
              {| Index.name := normalizeName (Index.name index) options;
                 Index.unique := Index.unique index;
                 Index.columns :=
                   map (fun col => normalizeName col options)
                       (Index.columns index);
                 Index.using_ := option_map toLowerCase (Index.using_ index) |})
           (Table.indexes table);
     NormalizedTable.checks :=
       map (fun check =>
              {| Check.name := normalizeName (Check.name check) options;
                 Check.expression :=
                   normalizeExpression (Check.expression check) |})
           (Table.checks table);
     NormalizedTable.fks :=
       map (fun fk =>
              {| ForeignKey.name := normalizeName (ForeignKey.name fk) options;
                 ForeignKey.columns :=
                   map (fun col => normalizeName col options)
                       (ForeignKey.columns fk);
                 ForeignKey.refTable :=
                   normalizeName (ForeignKey.refTable fk) options;
                 ForeignKey.refColumns :=
                   map (fun col => normalizeName col options)
                       (ForeignKey.refColumns fk);
                 ForeignKey.onUpdate :=
                   option_map toUpperCase (ForeignKey.onUpdate fk);
                 ForeignKey.onDelete :=
                   option_map toUpperCase (ForeignKey.onDelete fk) |})
           (Table.fks table) |}.

Definition normalizeSchemaModel (model : SchemaModel.t)
    (options : NormalizationOptions.t) : NormalizedModel.t :=
  let mapper := merged_mapper options in
  {| NormalizedModel.tables :=
       map (fun table => normalizeTable table mapper options)
           (SchemaModel.tables model);
     NormalizedModel.views :=
       sortBy (fun v => toLowerCase (View.name v)) (SchemaModel.views model);
     NormalizedModel.routines :=
       sortBy (fun r => toLowerCase (Routine.name r))
              (SchemaModel.routines model);
     NormalizedModel.triggers :=
       sortBy (fun t => toLowerCase
                          (Trigger.table t ++ str "." ++ Trigger.name t))
              (SchemaModel.triggers model) |}.

(** *** A second call on the result

    [normalizeSchemaModel] applied to a model it returned.  Where every data
    type is a string the model is an input model like any other; where one
    is an inherited object, [column.dataType.toLowerCase()], the first thing
    [normalizeColumn] evaluates, throws a [TypeError]: the value has no
    method of that name, before and after [cloneDeep]. *)

Inductive Outcome (A : Type) : Type :=
  | Returns (value : A)
  | Throws.
Arguments Returns {A} _.
Arguments Throws {A}.

Fixpoint all_typed {A B : Type} (f : A -> option B) (l : list A)
  : option (list B) :=
  match l with
  | [] => Some []
  | x :: l' =>
      match f x, all_typed f l' with
      | Some y, Some ys => Some (y :: ys)
      | _, _ => None
      end
  end.

Definition typed_column (column : NormalizedColumn.t) : option Column.t :=
  match NormalizedColumn.dataType column with
  | StringType s =>
      Some {| Column.name := NormalizedColumn.name column;
              Column.dataType := s;
              Column.length := NormalizedColumn.length column;
              Column.precisionScale := NormalizedColumn.precisionScale column;
              Column.nullable := NormalizedColumn.nullable column;
              Column.default := NormalizedColumn.default column;
              Column.generated := NormalizedColumn.generated column;
              Column.collation := NormalizedColumn.collation column |}
  | InheritedType _ => None
  end.

Definition typed_table (table : NormalizedTable.t) : option Table.t :=
  match all_typed typed_column (NormalizedTable.columns table) with
  | Some columns =>
      Some {| Table.name := NormalizedTable.name table;
              Table.columns := columns;
              Table.primaryKey := NormalizedTable.primaryKey table;
              Table.indexes := NormalizedTable.indexes table;
              Table.checks := NormalizedTable.checks table;
              Table.fks := NormalizedTable.fks table |}
  | None => None
  end.

Definition typed_model (model : NormalizedModel.t) : option SchemaModel.t :=
  match all_typed typed_table (NormalizedModel.tables model) with
  | Some tables =>
      Some {| SchemaModel.tables := tables;
              SchemaModel.views := NormalizedModel.views model;
              SchemaModel.routines := NormalizedModel.routines model;
              SchemaModel.triggers := NormalizedModel.triggers model |}
  | None => None
  end.

Definition normalizeSchemaModel_again (model : NormalizedModel.t)
    (options : NormalizationOptions.t) : Outcome NormalizedModel.t :=
  match typed_model model with
  | Some typed => Returns (normalizeSchemaModel typed options)
  | None => Throws
  end.

(* ===================================================================== *)
(** ** Diff result (diff/types.ts) *)
(* ===================================================================== *)

Module Change.
Record t (A : Type) : Type := mk { from : A; to : A }.
Arguments mk {A} _ _.
Arguments from {A} _.
Arguments to {A} _.
End Change.

Module ChangeEnvelope.
Record t (C : Type) : Type := mk { name : jsstring; change : C }.
Arguments mk {C} _ _.
Arguments name {C} _.
Arguments change {C} _.
End ChangeEnvelope.

Module ColumnChange.
Record t : Type := mk {
  typeChanged : option (Change.t jsstring);
  nullableChanged : option (Change.t bool);
  defaultChanged : option (Change.t (jsopt jsstring));
  generatedChanged : option (Change.t (option Generated));
  collationChanged : option (Change.t (option jsstring));
}.

Definition key {A} (n : string) (field : option A) : list jsstring :=
  match field with Some _ => [str n] | None => [] end.

(** [Object.keys(change)] *)
Definition keys (c : t) : list jsstring :=
  key "typeChanged" (typeChanged c) ++ key "nullableChanged" (nullableChanged c)
  ++ key "defaultChanged" (defaultChanged c)
  ++ key "generatedChanged" (generatedChanged c)
  ++ key "collationChanged" (collationChanged c).
End ColumnChange.

Module PrimaryKeyChange.
Record t : Type := mk {
  from : option PrimaryKey.t;
  to : option PrimaryKey.t;
}.
End PrimaryKeyChange.

Module TableChange.
Record t : Type := mk {
  table : Table.t;
  sourceTable : Table.t;
  addedColumns : list Column.t;
  removedColumns : list Column.t;
  columnChanges : list (ChangeEnvelope.t ColumnChange.t);
  primaryKeyChange : option PrimaryKeyChange.t;
  addedIndexes : list Index.t;
  removedIndexes : list Index.t;
  indexChanges : list (ChangeEnvelope.t (Change.t Index.t));
  addedChecks : list Check.t;
  removedChecks : list Check.t;
  checkChanges : list (ChangeEnvelope.t (Change.t Check.t));
  addedForeignKeys : list ForeignKey.t;
  removedForeignKeys : list ForeignKey.t;
  foreignKeyChanges : list (ChangeEnvelope.t (Change.t ForeignKey.t));
}.
End TableChange.

(** [{ added, removed, changed }], the shape every comparator returns. *)
Module Buckets.
Record t (T C : Type) : Type := mk {
  added : list T;
  removed : list T;
  changed : list C;
}.
Arguments mk {T C} _ _ _.
Arguments added {T C} _.
Arguments removed {T C} _.
Arguments changed {T C} _.
End Buckets.

Definition ObjectCollectionDiff (T : Type) : Type :=
  Buckets.t T (ChangeEnvelope.t (Change.t jsstring)).

Module DiffResult.
Record t : Type := mk {
  tables : Buckets.t Table.t TableChange.t;
  views : ObjectCollectionDiff View.t;
  routines : ObjectCollectionDiff Routine.t;
  triggers : ObjectCollectionDiff Trigger.t;
}.
End DiffResult.

(* ===================================================================== *)
(** ** Table comparators (diff/tableComparators.ts) *)
(* ===================================================================== *)

Definition diffColumn (source target : Column.t) : option ColumnChange.t :=
  let change :=
    {| ColumnChange.typeChanged :=
         if bool_decide (Column.dataType source = Column.dataType target)
         then None
         else Some (Change.mk (Column.dataType source) (Column.dataType target));
       ColumnChange.nullableChanged :=
         if bool_decide (Column.nullable source = Column.nullable target)
         then None
         else Some (Change.mk (Column.nullable source) (Column.nullable target));
       ColumnChange.defaultChanged :=
         if bool_decide (or_null (Column.default source)
                         = or_null (Column.default target))
         then None
         else Some (Change.mk (Column.default source) (Column.default target));
       ColumnChange.generatedChanged :=
         if bool_decide (or_null (Column.generated source)
                         = or_null (Column.generated target))
         then None
         else Some (Change.mk (or_null (Column.generated source))
                              (or_null (Column.generated target)));
       ColumnChange.collationChanged :=
         if bool_decide (or_null (Column.collation source)
                         = or_null (Column.collation target))
         then None
         else Some (Change.mk (or_null (Column.collation source))
                              (or_null (Column.collation target))) |} in
  if 0 <? List.length (ColumnChange.keys change) then Some change else None.

Section Compare.
(** The three loops shared by every comparator: the items of [target]
    whose name the source map lacks, the items of [source] whose name the
    target map lacks, and for every item of [source] with a counterpart in
    the target map the change [diff] reports, if any. *)
Context {T C : Type} (name : T -> jsstring) (diff : T -> T -> option C).

Definition name_map (items : list T) : JsMap.t T :=
  JsMap.of_entries (map (fun item => (name item, item)) items).

Definition compare_by_name (source target : list T)
  : Buckets.t T (ChangeEnvelope.t C) :=
  let sourceMap := name_map source in
  let targetMap := name_map target in
  let added :=
    List.filter (fun item => negb (JsMap.has (name item) sourceMap)) target in
  let removed :=
    List.filter (fun item => negb (JsMap.has (name item) targetMap)) source in
  let changed :=
    omap (fun item =>
            match JsMap.get (name item) targetMap with
            | None => None
            | Some counterpart =>
                match diff item counterpart with
                | Some change => Some (ChangeEnvelope.mk (name item) change)
                | None => None
                end
            end) source in
  Buckets.mk (sortBy name added) (sortBy name removed)
             (sortBy ChangeEnvelope.name changed).
End Compare.

Definition compareColumns (source target : Table.t)
  : Buckets.t Column.t (ChangeEnvelope.t ColumnChange.t) :=
  compare_by_name Column.name diffColumn
                  (Table.columns source) (Table.columns target).

Definition comparePrimaryKeys (source target : option PrimaryKey.t)
  : option PrimaryKeyChange.t :=
  match source, target with
  | None, None => None
  | None, Some t => Some (PrimaryKeyChange.mk None (Some t))
  | Some s, None => Some (PrimaryKeyChange.mk (Some s) None)
  | Some s, Some t =>
      if bool_decide (sortBy id (PrimaryKey.columns s)
                      = sortBy id (PrimaryKey.columns t))
      then None
      else Some (PrimaryKeyChange.mk (Some s) (Some t))
  end.

Definition normalizeIndex (index : Index.t)
  : bool * option jsstring * list jsstring :=
  (Index.unique index,
   option_map toLowerCase (Index.using_ index),
   sortBy id (map toLowerCase (Index.columns index))).

Definition compareIndexes (source target : list Index.t)
  : Buckets.t Index.t (ChangeEnvelope.t (Change.t Index.t)) :=
  compare_by_name Index.name
    (fun index targetIndex =>
       if bool_decide (normalizeIndex index = normalizeIndex targetIndex)
       then None else Some (Change.mk index targetIndex))
    source target.

Definition compareChecks (source target : list Check.t)
  : Buckets.t Check.t (ChangeEnvelope.t (Change.t Check.t)) :=
  compare_by_name Check.name
    (fun check targetCheck =>
       if bool_decide (normalizeExpression (Check.expression check)
                       = normalizeExpression (Check.expression targetCheck))
       then None else Some (Change.mk check targetCheck))
    source target.

Definition normalizeForeignKey (fk : ForeignKey.t)
  : list jsstring * jsstring * list jsstring
    * option jsstring * option jsstring :=
  (sortBy id (map toLowerCase (ForeignKey.columns fk)),
   toLowerCase (ForeignKey.refTable fk),
   sortBy id (map toLowerCase (ForeignKey.refColumns fk)),
   option_map toUpperCase (ForeignKey.onUpdate fk),
   option_map toUpperCase (ForeignKey.onDelete fk)).

Definition compareForeignKeys (source target : list ForeignKey.t)
  : Buckets.t ForeignKey.t (ChangeEnvelope.t (Change.t ForeignKey.t)) :=
  compare_by_name ForeignKey.name
    (fun fk targetFk =>
       if bool_decide (normalizeForeignKey fk = normalizeForeignKey targetFk)
       then None else Some (Change.mk fk targetFk))
    source target.

(* ===================================================================== *)
(** ** Differ (diff/index.ts) *)
(* ===================================================================== *)

Definition nonempty {A} (l : list A) : bool := 0 <? List.length l.

Definition diffTable (source target : Table.t) : option TableChange.t :=
  let cols := compareColumns source target in
  let primaryKeyChange :=
    comparePrimaryKeys (Table.primaryKey source) (Table.primaryKey target) in
  let idx := compareIndexes (Table.indexes source) (Table.indexes target) in
  let chk := compareChecks (Table.checks source) (Table.checks target) in
  let fks := compareForeignKeys (Table.fks source) (Table.fks target) in
  let hasChanges :=
    nonempty (Buckets.added cols) || nonempty (Buckets.removed cols)
    || nonempty (Buckets.changed cols)
    || (match primaryKeyChange with Some _ => true | None => false end)
    || nonempty (Buckets.added idx) || nonempty (Buckets.removed idx)
    || nonempty (Buckets.changed idx)
    || nonempty (Buckets.added chk) || nonempty (Buckets.removed chk)
    || nonempty (Buckets.changed chk)
    || nonempty (Buckets.added fks) || nonempty (Buckets.removed fks)
    || nonempty (Buckets.changed fks) in
  if negb hasChanges then None
  else Some
    {| TableChange.table := target;
       TableChange.sourceTable := source;
       TableChange.addedColumns := Buckets.added cols;
       TableChange.removedColumns := Buckets.removed cols;
       TableChange.columnChanges := Buckets.changed cols;
       TableChange.primaryKeyChange := primaryKeyChange;
       TableChange.addedIndexes := Buckets.added idx;
       TableChange.removedIndexes := Buckets.removed idx;
       TableChange.indexChanges := Buckets.changed idx;
       TableChange.addedChecks := Buckets.added chk;
       TableChange.removedChecks := Buckets.removed chk;
       TableChange.checkChanges := Buckets.changed chk;
       TableChange.addedForeignKeys := Buckets.added fks;
       TableChange.removedForeignKeys := Buckets.removed fks;
       TableChange.foreignKeyChanges := Buckets.changed fks |}.

Definition diffTables (source target : list Table.t)
  : Buckets.t Table.t TableChange.t :=
  let sourceMap := name_map Table.name source in
  let targetMap := name_map Table.name target in
  let added :=
    List.filter (fun table => negb (JsMap.has (Table.name table) sourceMap))
                target in
  let removed :=
    List.filter (fun table => negb (JsMap.has (Table.name table) targetMap))
                source in
  let changed :=
    omap (fun table =>
            match JsMap.get (Table.name table) targetMap with
            | None => None
            | Some counterpart => diffTable table counterpart
            end) source in
  Buckets.mk added removed
             (sortBy (fun change => Table.name (TableChange.table change))
                     changed).

Section DiffCollection.
Context {T : Type} (keyFn : T -> jsstring) (valueFn : T -> jsstring).

(** [source.forEach((item) => sourceMap.set(keyFn(item), item))] *)
Definition key_map (items : list T) : JsMap.t T :=
  fold_left (fun m item => JsMap.set (keyFn item) item m) items JsMap.empty.

Definition diffCollection (source target : list T) : ObjectCollectionDiff T :=
  let sourceMap := key_map source in
  let targetMap := key_map target in
  let added :=
    map snd (List.filter (fun e => negb (JsMap.has (fst e) sourceMap))
                         targetMap) in
  let removed :=
    map snd (List.filter (fun e => negb (JsMap.has (fst e) targetMap))
                         sourceMap) in
  let changed :=
    omap (fun e =>
            match JsMap.get (fst e) targetMap with
            | None => None
            | Some targetValue =>
                if bool_decide (valueFn (snd e) = valueFn targetValue)
                then None
                else Some (ChangeEnvelope.mk (fst e)
                             (Change.mk (valueFn (snd e))
                                        (valueFn targetValue)))
            end) sourceMap in
  Buckets.mk (sortBy keyFn added) (sortBy keyFn removed)
             (sortBy ChangeEnvelope.name changed).
End DiffCollection.

Definition view_key (item : View.t) : jsstring := View.name item.

Definition routine_key (item : Routine.t) : jsstring :=
  RoutineKind_str (Routine.kind item) ++ str ":" ++ Routine.name item.

Definition trigger_key (item : Trigger.t) : jsstring :=
  Trigger.table item ++ str "." ++ Trigger.name item.

(** [[item.timing, item.events.join(','), item.definition].join('\n')] *)
Definition trigger_value (item : Trigger.t) : jsstring :=
  join [LF] [ Timing_str (Trigger.timing item);
              join (str ",") (map Event_str (Trigger.events item));
              Trigger.definition item ].

Definition computeDiff (a b : SchemaModel.t) : DiffResult.t :=
  {| DiffResult.tables :=
       diffTables (SchemaModel.tables a) (SchemaModel.tables b);
     DiffResult.views :=
       diffCollection view_key View.definition
                      (SchemaModel.views a) (SchemaModel.views b);
     DiffResult.routines :=
       diffCollection routine_key Routine.definition
                      (SchemaModel.routines a) (SchemaModel.routines b);
     DiffResult.triggers :=
       diffCollection trigger_key trigger_value
                      (SchemaModel.triggers a) (SchemaModel.triggers b) |}.

(* ===================================================================== *)
(** ** DDL generators (generate/index.ts) *)
(* ===================================================================== *)

Inductive Direction : Type := AtoB | BtoA.

Inductive Dialect : Type := postgres | mariadb.

Module GenOptions.
(** The optional flags are only ever tested for truthiness, so an absent
    flag is [false]. *)
Record t : Type := mk {
  direction : Direction;
  withTransaction : bool;
  safeMode : bool;
  ifExists : bool;
  cascade : bool;
}.
End GenOptions.

Module Alteration.
Record t : Type := mk {
  column : option Column.t;
  change : list jsstring;
}.
End Alteration.

Module TableChangePlan.
Record t : Type := mk {
  table : Table.t;
  desired : Table.t;
  addColumns : list Column.t;
  dropColumns : list Column.t;
  alterColumns : list Alteration.t;
  dropIndexes : list Index.t;
  createIndexes : list Index.t;
}.
End TableChangePlan.

Definition DQUOTE : ascii := ascii_of_nat 34.
Definition BACKTICK : ascii := ascii_of_nat 96.

Definition quoteIdent (identifier : jsstring) : jsstring :=
  [DQUOTE] ++ replaceAll DQUOTE [DQUOTE; DQUOTE] identifier ++ [DQUOTE].

Definition backtick (identifier : jsstring) : jsstring :=
  [BACKTICK] ++ replaceAll BACKTICK [BACKTICK; BACKTICK] identifier ++ [BACKTICK].

Definition is_AtoB (d : Direction) : bool :=
  match d with AtoB => true | BtoA => false end.

(** [columns.find((col) => col.name === name)] *)
Definition find_column (name : jsstring) (columns : list Column.t)
  : option Column.t :=
  List.find (fun col => jsstring_eqb (Column.name col) name) columns.

(** The statements [buildTablePlan] derives from the desired column. *)
Definition alter_statements (name : jsstring) (columnChange : ColumnChange.t)
    (desiredColumn : Column.t) : list jsstring :=
  let statements := [] in
  let statements :=
    match ColumnChange.typeChanged columnChange with
    | Some _ =>
        statements
        ++ [str "ALTER COLUMN " ++ quoteIdent name ++ str " TYPE "
            ++ Column.dataType desiredColumn]
        ++ [str "-- TODO: verify casts for " ++ name]
    | None => statements
    end in
  let statements :=
    match ColumnChange.nullableChanged columnChange with
    | Some _ =>
        let clause := if Column.nullable desiredColumn
                      then str "DROP NOT NULL" else str "SET NOT NULL" in
        statements ++ [str "ALTER COLUMN " ++ quoteIdent name ++ str " " ++ clause]
    | None => statements
    end in
  let statements :=
    match ColumnChange.defaultChanged columnChange with
    | Some _ =>
        let clause := match Column.default desiredColumn with
                      | Val def => str "SET DEFAULT " ++ def
                      | _ => str "DROP DEFAULT"
                      end in
        statements ++ [str "ALTER COLUMN " ++ quoteIdent name ++ str " " ++ clause]
    | None => statements
    end in
  let statements :=
    match ColumnChange.generatedChanged columnChange with
    | Some _ =>
        statements ++ [str "-- TODO: reconcile generation strategy for " ++ name]
    | None => statements
    end in
  let statements :=
    match ColumnChange.collationChanged columnChange with
    | Some _ => statements ++ [str "-- TODO: adjust collation for " ++ name]
    | None => statements
    end in
  statements.

(** One element of [alterColumns]: the desired column is looked up by name,
    with [desired.columns[0]] as the fallback of [??], and the TODO
    alteration when even that is missing. *)
Definition alter_column (desired working : Table.t)
    (entry : ChangeEnvelope.t ColumnChange.t) : Alteration.t :=
  let name := ChangeEnvelope.name entry in
  let columnChange := ChangeEnvelope.change entry in
  let desiredColumn :=
    match find_column name (Table.columns desired) with
    | Some col => Some col
    | None => head (Table.columns desired)
    end in
  match desiredColumn with
  | None =>
      {| Alteration.column := find_column name (Table.columns working);
         Alteration.change := [str "-- TODO: review column " ++ name] |}
  | Some desiredColumn =>
      {| Alteration.column := Some desiredColumn;
         Alteration.change := alter_statements name columnChange desiredColumn |}
  end.

Definition buildTablePlan (change : TableChange.t) (direction : Direction)
  : TableChangePlan.t :=
  let desired := if is_AtoB direction then TableChange.sourceTable change
                 else TableChange.table change in
  let working := if is_AtoB direction then TableChange.table change
                 else TableChange.sourceTable change in
  let addColumns := if is_AtoB direction then TableChange.removedColumns change
                    else TableChange.addedColumns change in
  let dropColumns := if is_AtoB direction then TableChange.addedColumns change
                     else TableChange.removedColumns change in
  let alterColumns :=
    map (alter_column desired working) (TableChange.columnChanges change) in
  let dropIndexes := if is_AtoB direction then TableChange.addedIndexes change
                     else TableChange.removedIndexes change in
  let createIndexes := if is_AtoB direction then TableChange.removedIndexes change
                       else TableChange.addedIndexes change in
  {| TableChangePlan.table := working;
     TableChangePlan.desired := desired;
     TableChangePlan.addColumns := addColumns;
     TableChangePlan.dropColumns := dropColumns;
     TableChangePlan.alterColumns := alterColumns;
     TableChangePlan.dropIndexes := dropIndexes;
     TableChangePlan.createIndexes := createIndexes |}.

Module Plan.
Record t : Type := mk {
  toCreate : list Table.t;
  toDrop : list Table.t;
  tablePlans : list TableChangePlan.t;
}.
End Plan.

Definition planTables (diff : DiffResult.t) (opts : GenOptions.t) : Plan.t :=
  let tables := DiffResult.tables diff in
  let createTables := if is_AtoB (GenOptions.direction opts)
                      then Buckets.removed tables else Buckets.added tables in
  let dropTables := if is_AtoB (GenOptions.direction opts)
                    then Buckets.added tables else Buckets.removed tables in
  let tablePlans :=
    map (fun change => buildTablePlan change (GenOptions.direction opts))
        (Buckets.changed tables) in
  {| Plan.toCreate := createTables;
     Plan.toDrop := dropTables;
     Plan.tablePlans := tablePlans |}.

(** [TYPE], [TYPE(len)] or [TYPE(prec, scale)]: a truthy length replaces
    the bare type, a precision/scale pair replaces either. *)
Definition type_token (dataType : jsstring) (column : Column.t) : jsstring :=
  match Column.precisionScale column with
  | Some (precision, scale) =>
      dataType ++ str "(" ++ number_to_string precision ++ str ", "
      ++ number_to_string scale ++ str ")"
  | None =>
      match Column.length column with
      | Some len =>
          if (len =? 0)%Z then dataType
          else dataType ++ str "(" ++ number_to_string len ++ str ")"
      | None => dataType
      end
  end.

Definition renderPostgresColumn (column : Column.t) : jsstring :=
  let parts :=
    [quoteIdent (Column.name column);
     type_token (Column.dataType column) column] in
  let parts := if negb (Column.nullable column)
               then parts ++ [str "NOT NULL"] else parts in
  let parts := match Column.default column with
               | Val d => parts ++ [str "DEFAULT " ++ d]
               | _ => parts
               end in
  let parts := match Column.generated column with
               | Val identity | Val sequence =>
                   parts ++ [str "-- TODO: ensure generation strategy is preserved"]
               | _ => parts
               end in
  let parts := match Column.collation column with
               | Val c => if truthy c
                          then parts ++ [str "COLLATE " ++ quoteIdent c]
                          else parts
               | _ => parts
               end in
  join (str " ") parts.

Definition renderMariaColumn (column : Column.t) : jsstring :=
  let parts :=
    [backtick (Column.name column);
     type_token (toUpperCase (Column.dataType column)) column] in
  let parts := if negb (Column.nullable column)
               then parts ++ [str "NOT NULL"] else parts in
  let parts := match Column.default column with
               | Val d => parts ++ [str "DEFAULT " ++ d]
               | _ => parts
               end in
  let parts := match Column.generated column with
               | Val auto_increment => parts ++ [str "AUTO_INCREMENT"]
               | _ => parts
               end in
  let parts := match Column.collation column with
               | Val c => if truthy c then parts ++ [str "COLLATE " ++ c]
                          else parts
               | _ => parts
               end in
  join (str " ") parts.

Definition renderPostgresCreateTable (table : Table.t) : jsstring :=
  let columns := map renderPostgresColumn (Table.columns table) in
  let columns :=
    match Table.primaryKey table with
    | Some pk =>
        columns
        ++ [str "CONSTRAINT "
            ++ quoteIdent (or_else (PrimaryKey.name pk)
                                   (Table.name table ++ str "_pkey"))
            ++ str " PRIMARY KEY ("
            ++ join (str ", ") (map quoteIdent (PrimaryKey.columns pk))
            ++ str ")"]
    | None => columns
    end in
  str "CREATE TABLE " ++ quoteIdent (Table.name table) ++ str " (" ++ [LF]
  ++ str "  " ++ join (str "," ++ [LF] ++ str "  ") columns ++ [LF] ++ str ");".

Definition renderMariaCreateTable (table : Table.t) : jsstring :=
  let columns := map renderMariaColumn (Table.columns table) in
  let columns :=
    match Table.primaryKey table with
    | Some pk =>
        columns
        ++ [str "CONSTRAINT "
            ++ backtick (or_else (PrimaryKey.name pk)
                                 (Table.name table ++ str "_pk"))
            ++ str " PRIMARY KEY ("
            ++ join (str ", ") (map backtick (PrimaryKey.columns pk))
            ++ str ")"]
    | None => columns
    end in
  str "CREATE TABLE " ++ backtick (Table.name table) ++ str " (" ++ [LF]
  ++ str "  " ++ join (str "," ++ [LF] ++ str "  ") columns ++ [LF]
  ++ str ") ENGINE=InnoDB;".

Definition renderPostgresIndex (tableName : jsstring) (index : Index.t)
  : jsstring :=
  str "CREATE" ++ (if Index.unique index then str " UNIQUE" else [])
  ++ str " INDEX " ++ quoteIdent (Index.name index) ++ str " ON "
  ++ quoteIdent tableName
  ++ match Index.using_ index with
     | Some u => if truthy u then str " USING " ++ u else []
     | None => []
     end
  ++ str " (" ++ join (str ", ") (map quoteIdent (Index.columns index))
  ++ str ");".

Definition renderMariaIndex (tableName : jsstring) (index : Index.t)
  : jsstring :=
  let type := if Index.unique index then str "UNIQUE " else [] in
  str "CREATE " ++ type ++ str "INDEX " ++ backtick (Index.name index)
  ++ str " ON " ++ backtick tableName ++ str " ("
  ++ join (str ", ") (map backtick (Index.columns index)) ++ str ");".

(** *** The script under construction

    [lines] is threaded through the emitters: [push] is [lines.push(line)],
    [forEach] runs a loop body over an array. *)

Definition push (lines : list jsstring) (line : jsstring) : list jsstring :=
  lines ++ [line].

Definition forEach {A : Type} (items : list A)
    (body : list jsstring -> A -> list jsstring) (lines : list jsstring)
  : list jsstring :=
  fold_left body items lines.

(** [opts.safeMode ? `-- ${drop}` : drop] *)
Definition guard_drop (opts : GenOptions.t) (drop : jsstring) : jsstring :=
  if GenOptions.safeMode opts then str "-- " ++ drop else drop.

Definition if_exists (opts : GenOptions.t) : jsstring :=
  if GenOptions.ifExists opts then str " IF EXISTS" else [].

Definition cascade_suffix (opts : GenOptions.t) : jsstring :=
  if GenOptions.cascade opts then str " CASCADE" else [].

Definition SAFE_MODE_BANNER : jsstring :=
  str "-- SAFE MODE: review drops below before executing.".

Definition quote_for (dialect : Dialect) (identifier : jsstring) : jsstring :=
  match dialect with
  | postgres => quoteIdent identifier
  | mariadb => backtick identifier
  end.

(** The [const drop = ...] of each destructive statement. *)
Definition drop_table_stmt (dialect : Dialect) (opts : GenOptions.t)
    (table : Table.t) : jsstring :=
  str "DROP TABLE" ++ if_exists opts ++ str " "
  ++ quote_for dialect (Table.name table) ++ cascade_suffix opts ++ str ";".

Definition drop_column_stmt (dialect : Dialect) (opts : GenOptions.t)
    (tableName : jsstring) (column : Column.t) : jsstring :=
  match dialect with
  | postgres =>
      str "ALTER TABLE " ++ tableName ++ str " DROP COLUMN "
      ++ quoteIdent (Column.name column) ++ cascade_suffix opts ++ str ";"
  | mariadb =>
      str "ALTER TABLE " ++ tableName ++ str " DROP COLUMN "
      ++ backtick (Column.name column) ++ str ";"
  end.

Definition drop_index_stmt (dialect : Dialect) (opts : GenOptions.t)
    (tableName : jsstring) (index : Index.t) : jsstring :=
  match dialect with
  | postgres =>
      str "DROP INDEX" ++ if_exists opts ++ str " "
      ++ quoteIdent (Index.name index) ++ str ";"
  | mariadb =>
      str "DROP INDEX " ++ backtick (Index.name index) ++ str " ON "
      ++ tableName ++ str ";"
  end.

Definition drop_view_stmt (dialect : Dialect) (opts : GenOptions.t)
    (view : View.t) : jsstring :=
  str "DROP VIEW" ++ if_exists opts ++ str " "
  ++ quote_for dialect (View.name view) ++ cascade_suffix opts ++ str ";".

Definition drop_routine_stmt (dialect : Dialect) (opts : GenOptions.t)
    (routine : Routine.t) : jsstring :=
  str "DROP " ++ toUpperCase (RoutineKind_str (Routine.kind routine))
  ++ if_exists opts ++ str " " ++ quote_for dialect (Routine.name routine)
  ++ str ";".

Definition drop_trigger_stmt (dialect : Dialect) (opts : GenOptions.t)
    (trigger : Trigger.t) : jsstring :=
  let name := quote_for dialect (Trigger.name trigger) in
  let table := quote_for dialect (Trigger.table trigger) in
  str "DROP TRIGGER" ++ if_exists opts ++ str " " ++ name ++ str " ON "
  ++ table ++ str ";".

Definition add_column_stmt (dialect : Dialect) (tableName : jsstring)
    (column : Column.t) : jsstring :=
  str "ALTER TABLE " ++ tableName ++ str " ADD COLUMN "
  ++ match dialect with
     | postgres => renderPostgresColumn column
     | mariadb => renderMariaColumn column
     end
  ++ str ";".

Definition create_table_stmt (dialect : Dialect) (table : Table.t) : jsstring :=
  match dialect with
  | postgres => renderPostgresCreateTable table
  | mariadb => renderMariaCreateTable table
  end.

Definition create_index_stmt (dialect : Dialect) (tableName : jsstring)
    (index : Index.t) : jsstring :=
  match dialect with
  | postgres => renderPostgresIndex tableName index
  | mariadb => renderMariaIndex tableName index
  end.

Definition alter_stmt (tableName ddl : jsstring) : jsstring :=
  str "ALTER TABLE " ++ tableName ++ str " " ++ ddl ++ str ";".

Definition create_view_stmt (dialect : Dialect) (view : View.t) : jsstring :=
  let name := quote_for dialect (View.name view) in
  str "CREATE OR REPLACE VIEW " ++ name ++ str " AS" ++ [LF]
  ++ trim (View.definition view) ++ str ";".

Definition view_todo (change : ChangeEnvelope.t (Change.t jsstring))
  : jsstring :=
  str "-- TODO: view " ++ ChangeEnvelope.name change
  ++ str " changed; consider drop and recreate.".

Definition routine_header (routine : Routine.t) : jsstring :=
  str "-- Routine " ++ Routine.name routine.

Definition routine_todo (change : ChangeEnvelope.t (Change.t jsstring))
  : jsstring :=
  str "-- TODO: routine " ++ ChangeEnvelope.name change
  ++ str " definition changed; drop and recreate manually.".

Definition trigger_header (trigger : Trigger.t) : jsstring :=
  str "-- Trigger " ++ Trigger.name trigger ++ str " on "
  ++ Trigger.table trigger.

Definition trigger_todo (change : ChangeEnvelope.t (Change.t jsstring))
  : jsstring :=
  str "-- TODO: trigger " ++ ChangeEnvelope.name change
  ++ str " changed; consider drop and recreate.".

Definition create_views (diff : DiffResult.t) (opts : GenOptions.t)
  : list View.t :=
  if is_AtoB (GenOptions.direction opts)
  then Buckets.removed (DiffResult.views diff)
  else Buckets.added (DiffResult.views diff).

Definition drop_views (diff : DiffResult.t) (opts : GenOptions.t)
  : list View.t :=
  if is_AtoB (GenOptions.direction opts)
  then Buckets.added (DiffResult.views diff)
  else Buckets.removed (DiffResult.views diff).

Definition renderViewChanges (diff : DiffResult.t) (opts : GenOptions.t)
    (lines : list jsstring) (dialect : Dialect) : list jsstring :=
  let createViews := create_views diff opts in
  let dropViews := drop_views diff opts in
  let lines :=
    forEach dropViews
      (fun lines view =>
         push lines (guard_drop opts (drop_view_stmt dialect opts view)))
      lines in
  let lines :=
    forEach createViews
      (fun lines view => push lines (create_view_stmt dialect view)) lines in
  forEach (Buckets.changed (DiffResult.views diff))
    (fun lines change =>
       push lines (view_todo change))
    lines.

Definition create_routines (diff : DiffResult.t) (opts : GenOptions.t)
  : list Routine.t :=
  if is_AtoB (GenOptions.direction opts)
  then Buckets.removed (DiffResult.routines diff)
  else Buckets.added (DiffResult.routines diff).

Definition drop_routines (diff : DiffResult.t) (opts : GenOptions.t)
  : list Routine.t :=
  if is_AtoB (GenOptions.direction opts)
  then Buckets.added (DiffResult.routines diff)
  else Buckets.removed (DiffResult.routines diff).

Definition renderRoutineChanges (diff : DiffResult.t) (opts : GenOptions.t)
    (lines : list jsstring) (dialect : Dialect) : list jsstring :=
  let createRoutines := create_routines diff opts in
  let dropRoutines := drop_routines diff opts in
  let lines :=
    forEach dropRoutines
      (fun lines routine =>
         push lines (guard_drop opts (drop_routine_stmt dialect opts routine)))
      lines in
  let lines :=
    forEach createRoutines
      (fun lines routine =>
         let lines := push lines (routine_header routine) in
         push lines (trim (Routine.definition routine)))
      lines in
  forEach (Buckets.changed (DiffResult.routines diff))
    (fun lines change =>
       push lines (routine_todo change))
    lines.

Definition create_triggers (diff : DiffResult.t) (opts : GenOptions.t)
  : list Trigger.t :=
  if is_AtoB (GenOptions.direction opts)
  then Buckets.removed (DiffResult.triggers diff)
  else Buckets.added (DiffResult.triggers diff).

Definition drop_triggers (diff : DiffResult.t) (opts : GenOptions.t)
  : list Trigger.t :=
  if is_AtoB (GenOptions.direction opts)
  then Buckets.added (DiffResult.triggers diff)
  else Buckets.removed (DiffResult.triggers diff).

Definition renderTriggerChanges (diff : DiffResult.t) (opts : GenOptions.t)
    (lines : list jsstring) (dialect : Dialect) : list jsstring :=
  let createTriggers := create_triggers diff opts in
  let dropTriggers := drop_triggers diff opts in
  let lines :=
    forEach dropTriggers
      (fun lines trigger =>
         push lines (guard_drop opts (drop_trigger_stmt dialect opts trigger)))
      lines in
  let lines :=
    forEach createTriggers
      (fun lines trigger =>
         let lines := push lines (trigger_header trigger) in
         push lines (trim (Trigger.definition trigger)))
      lines in
  forEach (Buckets.changed (DiffResult.triggers diff))
    (fun lines change =>
       push lines (trigger_todo change))
    lines.

(** The body of [tablePlans.forEach] in [toPostgres] and [toMariaDB]; the two
    differ in the quoting of names and in the statement builders. *)
Definition render_table_plan (dialect : Dialect) (opts : GenOptions.t)
    (lines : list jsstring) (plan : TableChangePlan.t) : list jsstring :=
  let tableName :=
    quote_for dialect (Table.name (TableChangePlan.table plan)) in
  let lines :=
    forEach (TableChangePlan.dropColumns plan)
      (fun lines column =>
         push lines
           (guard_drop opts (drop_column_stmt dialect opts tableName column)))
      lines in
  let lines :=
    forEach (TableChangePlan.addColumns plan)
      (fun lines column => push lines (add_column_stmt dialect tableName column))
      lines in
  let lines :=
    forEach (TableChangePlan.alterColumns plan)
      (fun lines alteration =>
         forEach (Alteration.change alteration)
           (fun lines ddl => push lines (alter_stmt tableName ddl)) lines)
      lines in
  let lines :=
    forEach (TableChangePlan.dropIndexes plan)
      (fun lines index =>
         push lines
           (guard_drop opts (drop_index_stmt dialect opts tableName index)))
      lines in
  forEach (TableChangePlan.createIndexes plan)
    (fun lines index =>
       push lines
         (create_index_stmt dialect
            (Table.name (TableChangePlan.table plan)) index))
    lines.

Definition transaction_opener (dialect : Dialect) : jsstring :=
  match dialect with
  | postgres => str "BEGIN;"
  | mariadb => str "START TRANSACTION;"
  end.

(** The array [lines] of [toPostgres] ([dialect = postgres]) and of
    [toMariaDB] ([dialect = mariadb]) when the function reaches its
    [return]. *)
Definition script_lines (dialect : Dialect) (diff : DiffResult.t)
    (opts : GenOptions.t) : list jsstring :=
  let lines := [] in
  let plan := planTables diff opts in
  let lines := if GenOptions.withTransaction opts
               then push lines (transaction_opener dialect) else lines in
  let lines := if GenOptions.safeMode opts && nonempty (Plan.toDrop plan)
               then push lines SAFE_MODE_BANNER else lines in
  let lines :=
    forEach (Plan.toDrop plan)
      (fun lines table =>
         push lines (guard_drop opts (drop_table_stmt dialect opts table)))
      lines in
  let lines :=
    forEach (Plan.toCreate plan)
      (fun lines table =>
         push lines (create_table_stmt dialect table))
      lines in
  let lines :=
    forEach (Plan.tablePlans plan) (render_table_plan dialect opts) lines in
  let lines := renderViewChanges diff opts lines dialect in
  let lines := renderRoutineChanges diff opts lines dialect in
  let lines := renderTriggerChanges diff opts lines dialect in
  let lines := if GenOptions.withTransaction opts
               then push lines (str "COMMIT;") else lines in
  lines.

(** [lines.filter((line) => line.trim().length > 0)]: the statements of the
    script, which the generators join with a blank line. *)
Definition statements (lines : list jsstring) : list jsstring :=
  List.filter (fun line => 0 <? List.length (trim line)) lines.

Section Generators.
(** [EOL] of [node:os]: LF on POSIX, CR LF on Windows. *)
Variable EOL : jsstring.

Definition toPostgres (diff : DiffResult.t) (opts : GenOptions.t) : jsstring :=
  join (EOL ++ EOL) (statements (script_lines postgres diff opts)).

Definition toMariaDB (diff : DiffResult.t) (opts : GenOptions.t) : jsstring :=
  join (EOL ++ EOL) (statements (script_lines mariadb diff opts)).
End Generators.

(* ===================================================================== *)
(** ** PostgreSQL catalog loader: tables, primary keys, indexes
       (discovery/postgres.ts, introspectTables) *)
(* ===================================================================== *)

Module TableRow.
Record t : Type := mk { table_name : jsstring }.
End TableRow.

Module PkRow.
Record t : Type := mk {
  table_name : jsstring;
  constraint_name : jsstring;
  column_name : jsstring;
  ordinal_position : Z;
}.
End PkRow.

Module IndexRow.
Record t : Type := mk {
  tablename : jsstring;
  indexname : jsstring;
  indexdef : jsstring;
}.
End IndexRow.

Definition createTable (name : jsstring) : Table.t :=
  {| Table.name := name;
     Table.columns := [];
     Table.primaryKey := None;
     Table.indexes := [];
     Table.checks := [];
     Table.fks := [] |}.

Fixpoint take_while {A} (p : A -> bool) (l : list A) : list A :=
  match l with
  | [] => []
  | x :: l' => if p x then x :: take_while p l' else []
  end.

Fixpoint drop_while {A} (p : A -> bool) (l : list A) : list A :=
  match l with
  | [] => []
  | x :: l' => if p x then drop_while p l' else l
  end.

(** [/USING\s+(\w+)/i] anchored at the head of [s]: the five letters in any
    case, one or more white-space characters, then the longest run of word
    characters, which is the capture. *)
Definition using_at (s : jsstring) : option jsstring :=
  if jsstring_eqb (toUpperCase (firstn 5 s)) (str "USING") then
    let rest := skipn 5 s in
    let after := drop_while is_space rest in
    if List.length after <? List.length rest then
      let word := take_while is_word after in
      if truthy word then Some word else None
    else None
  else None.

(** [/USING\s+(\w+)/i.exec(s)]: the capture of the leftmost match. *)
Fixpoint exec_using (s : jsstring) : option jsstring :=
  match using_at s with
  | Some word => Some word
  | None => match s with [] => None | _ :: s' => exec_using s' end
  end.

(** The part of [l] before its last occurrence of [c]. *)
Fixpoint upto_last (c : ascii) (l : jsstring) : option jsstring :=
  match l with
  | [] => None
  | x :: l' =>
      match upto_last c l' with
      | Some p => Some (x :: p)
      | None => if Ascii.eqb x c then Some [] else None
      end
  end.

Definition is_line_terminator (c : ascii) : bool :=
  Ascii.eqb c LF || Ascii.eqb c CR.

(** The pattern of [columnsMatch] (an opening parenthesis, a greedy
    any-character group, a closing parenthesis) anchored at the head of [s]:
    the group stays on the line and gives back characters up to the last
    closing parenthesis. *)
Definition parens_at (s : jsstring) : option jsstring :=
  match s with
  | c :: rest =>
      if Ascii.eqb c "("%char
      then upto_last ")"%char
             (take_while (fun x => negb (is_line_terminator x)) rest)
      else None
  | [] => None
  end.

(** [s.match] of that pattern: the capture of the leftmost match. *)
Fixpoint match_parens (s : jsstring) : option jsstring :=
  match parens_at s with
  | Some inner => Some inner
  | None => match s with [] => None | _ :: s' => match_parens s' end
  end.

Definition index_of_row (row : IndexRow.t) : Index.t :=
  let unique := includes (str "UNIQUE") (IndexRow.indexdef row) in
  let usingMatch := exec_using (IndexRow.indexdef row) in
  let columnsMatch := match_parens (IndexRow.indexdef row) in
  let columns :=
    match columnsMatch with
    | Some inner =>
        map (fun c => replaceAll DQUOTE [] (trim c)) (split ","%char inner)
    | None => []
    end in
  {| Index.name := IndexRow.indexname row;
     Index.unique := unique;
     Index.using_ := usingMatch;
     Index.columns := columns |}.

Module Tbl.
Definition set_primaryKey (pk : PrimaryKey.t) (t : Table.t) : Table.t :=
  {| Table.name := Table.name t; Table.columns := Table.columns t;
     Table.primaryKey := Some pk; Table.indexes := Table.indexes t;
     Table.checks := Table.checks t; Table.fks := Table.fks t |}.

Definition push_index (index : Index.t) (t : Table.t) : Table.t :=
  {| Table.name := Table.name t; Table.columns := Table.columns t;
     Table.primaryKey := Table.primaryKey t;
     Table.indexes := Table.indexes t ++ [index];
     Table.checks := Table.checks t; Table.fks := Table.fks t |}.
End Tbl.

(** The table list, primary-key and index loops of [introspectTables], as a
    function of the rows the three queries return.  A table accumulator lives
    in [tablesByName] and is mutated through the reference [get] returns,
    which is a [set] at its key here.  The loops over the column,
    foreign-key and check rows fill other fields of the accumulators and are
    left out. *)
Definition introspectTables (tableRows : list TableRow.t)
    (pkRows : list PkRow.t) (indexRows : list IndexRow.t) : list Table.t :=
  let tablesByName : JsMap.t Table.t :=
    fold_left
      (fun m row =>
         JsMap.set (TableRow.table_name row)
                   (createTable (TableRow.table_name row)) m)
      tableRows JsMap.empty in
  let tablesByName :=
    fold_left
      (fun m row =>
         match JsMap.get (PkRow.table_name row) m with
         | None => m
         | Some table =>
             let pk :=
               match Table.primaryKey table with
               | Some pk => pk
               | None => {| PrimaryKey.name := Val (PkRow.constraint_name row);
                            PrimaryKey.columns := [] |}
               end in
             let pk :=
               {| PrimaryKey.name := PrimaryKey.name pk;
                  PrimaryKey.columns :=
                    PrimaryKey.columns pk ++ [PkRow.column_name row] |} in
             JsMap.set (PkRow.table_name row) (Tbl.set_primaryKey pk table) m
         end)
      pkRows tablesByName in
  let tablesByName :=
    fold_left
      (fun m row =>
         match JsMap.get (IndexRow.tablename row) m with
         | None => m
         | Some table =>
             JsMap.set (IndexRow.tablename row)
                       (Tbl.push_index (index_of_row row) table) m
         end)
      indexRows tablesByName in
  map snd tablesByName.

(* ===================================================================== *)
(** ** Predicates and sample data used by the statements *)
(* ===================================================================== *)

(** The exit condition of the [while] loop of [normalizeDefault], including
    its [break]. *)
Definition loop_done (s : jsstring) : bool :=
  negb (startsWith (str "(") s && endsWith (str ")") s)
  || negb (truthy (trim (slice_1_m1 s))).

(** Every token the map produces is left alone by a second pass. *)
Definition mapper_closed (mapper : gmap jsstring jsstring) : Prop :=
  map_Forall (fun _ t => mapType mapper t = StringType t) mapper.

#[global] Instance mapper_closed_dec mapper : Decision (mapper_closed mapper).
Proof. unfold mapper_closed. apply _. Defined.

(** The lower-cased data type names a property the mapper inherits and
    does not own. *)
Definition names_inherited (mapper : gmap jsstring jsstring)
    (dataType : jsstring) : Prop :=
  mapper !! toLowerCase dataType = None
  /\ (toLowerCase dataType = str "constructor"
      \/ toLowerCase dataType = str "__proto__").

(** No column of the model has such a data type. *)
Definition string_types (mapper : gmap jsstring jsstring)
    (model : SchemaModel.t) : Prop :=
  forall table column,
    In table (SchemaModel.tables model) -> In column (Table.columns table) ->
    ~ names_inherited mapper (Column.dataType column).

(** A user map that sends [serial] to [int4], a token the built-in table
    maps further, and a model with one [serial] column. *)
Definition chained_options : NormalizationOptions.t :=
  {| NormalizationOptions.nameCase := None;
     NormalizationOptions.normalizeDefaults := false;
     NormalizationOptions.mapTypes := Some {[ str "serial" := str "int4" ]} |}.

Definition serial_column : Column.t :=
  {| Column.name := str "id"; Column.dataType := str "serial";
     Column.length := None; Column.precisionScale := None;
     Column.nullable := false; Column.default := Undefined;
     Column.generated := Undefined; Column.collation := Undefined |}.

Definition serial_model : SchemaModel.t :=
  {| SchemaModel.tables :=
       [ {| Table.name := str "t"; Table.columns := [serial_column];
            Table.primaryKey := None; Table.indexes := [];
            Table.checks := []; Table.fks := [] |} ];
     SchemaModel.views := []; SchemaModel.routines := [];
     SchemaModel.triggers := [] |}.

(** A model with one column whose data type is spelled [Constructor]. *)
Definition constructor_model : SchemaModel.t :=
  {| SchemaModel.tables :=
       [ {| Table.name := str "t";
            Table.columns :=
              [ {| Column.name := str "c"; Column.dataType := str "Constructor";
                   Column.length := None; Column.precisionScale := None;
                   Column.nullable := true; Column.default := Undefined;
                   Column.generated := Undefined;
                   Column.collation := Undefined |} ];
            Table.primaryKey := None; Table.indexes := [];
            Table.checks := []; Table.fks := [] |} ];
     SchemaModel.views := []; SchemaModel.routines := [];
     SchemaModel.triggers := [] |}.

(** Lower-casing options with an ignore list, default canonicalization and
    a closed user map; a model that exercises every normalization step. *)
Definition folding_options : NormalizationOptions.t :=
  {| NormalizationOptions.nameCase :=
       Some {| NameCaseOptions.strategy := lower;
               NameCaseOptions.ignore := Some [str "Users"] |};
     NormalizationOptions.normalizeDefaults := true;
     NormalizationOptions.mapTypes := Some {[ str "serial" := str "int" ]} |}.

Definition users_table : Table.t :=
  {| Table.name := str "Users";
     Table.columns :=
       [ {| Column.name := str "ID"; Column.dataType := str "SERIAL";
            Column.length := None; Column.precisionScale := None;
            Column.nullable := false; Column.default := Undefined;
            Column.generated := Val sequence; Column.collation := Undefined |};
         {| Column.name := str "Created_At";
            Column.dataType := str "timestamp without time zone";
            Column.length := None; Column.precisionScale := None;
            Column.nullable := false;
            Column.default := Val (str " (( Now() )) ");
            Column.generated := Undefined; Column.collation := Null |} ];
     Table.primaryKey :=
       Some {| PrimaryKey.name := Undefined; PrimaryKey.columns := [str "ID"] |};
     Table.indexes :=
       [ {| Index.name := str "Users_Created_Idx"; Index.unique := false;
            Index.columns := [str "Created_At"];
            Index.using_ := Some (str "BTREE") |} ];
     Table.checks :=
       [ {| Check.name := str "Users_Id_Check";
            Check.expression := str "  ID   >  0 " |} ];
     Table.fks :=
       [ {| ForeignKey.name := str "Users_Org_Fk";
            ForeignKey.columns := [str "Org_Id"];
            ForeignKey.refTable := str "Orgs";
            ForeignKey.refColumns := [str "ID"];
            ForeignKey.onUpdate := Some (str "cascade");
            ForeignKey.onDelete := None |} ] |}.

Definition sample_model : SchemaModel.t :=
  {| SchemaModel.tables := [users_table];
     SchemaModel.views :=
       [ {| View.name := str "b_view"; View.definition := str "SELECT 2" |};
         {| View.name := str "A_view"; View.definition := str "SELECT 1" |} ];
     SchemaModel.routines :=
       [ {| Routine.name := str "touch"; Routine.kind := function;
            Routine.language := Some (str "plpgsql");
            Routine.definition := str "BEGIN END" |} ];
     SchemaModel.triggers :=
       [ {| Trigger.name := str "trg"; Trigger.table := str "Users";
            Trigger.timing := before; Trigger.events := [insert; update];
            Trigger.definition := str "EXECUTE FUNCTION touch()" |} ] |}.

(** The set of object keys of a list. *)
Definition keys_of {T} (key : T -> jsstring) (l : list T) : gset jsstring :=
  list_to_set (map key l).

Definition bare_table (name : string) : Table.t := createTable (str name).

Definition empty_model : SchemaModel.t :=
  {| SchemaModel.tables := []; SchemaModel.views := [];
     SchemaModel.routines := []; SchemaModel.triggers := [] |}.

(** Two tables the catalog lists as [zebra], [apple]. *)
Definition zebra_apple_model : SchemaModel.t :=
  {| SchemaModel.tables := [bare_table "zebra"; bare_table "apple"];
     SchemaModel.views := []; SchemaModel.routines := [];
     SchemaModel.triggers := [] |}.

Definition apple_zebra_model : SchemaModel.t :=
  {| SchemaModel.tables := [bare_table "apple"; bare_table "zebra"];
     SchemaModel.views := []; SchemaModel.routines := [];
     SchemaModel.triggers := [] |}.

(** The invariant of the loop that fills a map from an array: keys are
    unique, every value sits under its own key and comes from the array, and
    every item of the array has its key in the map. *)
Definition filled {T} (keyFn : T -> jsstring) (l0 : list T) (m : JsMap.t T)
  : Prop :=
  List.NoDup (map fst m)
  /\ (forall k v, JsMap.get k m = Some v -> keyFn v = k /\ In v l0)
  /\ (forall x, In x l0 -> JsMap.has (keyFn x) m = true).

(** The five attributes [diffColumn] compares, a missing value and [null]
    being the same value. *)
Definition columns_differ (s t : Column.t) : Prop :=
  Column.dataType s <> Column.dataType t
  \/ Column.nullable s <> Column.nullable t
  \/ or_null (Column.default s) <> or_null (Column.default t)
  \/ or_null (Column.generated s) <> or_null (Column.generated t)
  \/ or_null (Column.collation s) <> or_null (Column.collation t).

(** The column [c] with another length and precision/scale. *)
Definition resized (c : Column.t) (len : option Z) (ps : option (Z * Z))
  : Column.t :=
  {| Column.name := Column.name c; Column.dataType := Column.dataType c;
     Column.length := len; Column.precisionScale := ps;
     Column.nullable := Column.nullable c; Column.default := Column.default c;
     Column.generated := Column.generated c;
     Column.collation := Column.collation c |}.



Definition email_column (len : Z) (nullable : bool) (default : jsopt jsstring)
  : Column.t :=
  {| Column.name := str "email"; Column.dataType := str "varchar";
     Column.length := Some len; Column.precisionScale := None;
     Column.nullable := nullable; Column.default := default;
     Column.generated := Undefined; Column.collation := Undefined |}.

Definition users_with (columns : list Column.t) : Table.t :=
  {| Table.name := str "users"; Table.columns := columns;
     Table.primaryKey := None; Table.indexes := []; Table.checks := [];
     Table.fks := [] |}.


(** Two models whose [users.email] differs in the nullable flag, and the
    table change and column change the differ reports for them. *)
Definition model_of_table (t : Table.t) : SchemaModel.t :=
  {| SchemaModel.tables := [t]; SchemaModel.views := [];
     SchemaModel.routines := []; SchemaModel.triggers := [] |}.

Definition email_not_null : Table.t :=
  users_with [email_column 255 false Undefined].

Definition email_nullable : Table.t :=
  users_with [email_column 255 true Undefined].

Definition email_nullable_entry : ChangeEnvelope.t ColumnChange.t :=
  ChangeEnvelope.mk (str "email")
    {| ColumnChange.typeChanged := None;
       ColumnChange.nullableChanged := Some (Change.mk false true);
       ColumnChange.defaultChanged := None;
       ColumnChange.generatedChanged := None;
       ColumnChange.collationChanged := None |}.

Definition email_nullable_change : TableChange.t :=
  {| TableChange.table := email_nullable;
     TableChange.sourceTable := email_not_null;
     TableChange.addedColumns := []; TableChange.removedColumns := [];
     TableChange.columnChanges := [email_nullable_entry];
     TableChange.primaryKeyChange := None;
     TableChange.addedIndexes := []; TableChange.removedIndexes := [];
     TableChange.indexChanges := [];
     TableChange.addedChecks := []; TableChange.removedChecks := [];
     TableChange.checkChanges := [];
     TableChange.addedForeignKeys := []; TableChange.removedForeignKeys := [];
     TableChange.foreignKeyChanges := [] |}.

(** [trigger.events.join(',')] *)
Definition events_str (events : list Event) : jsstring :=
  join (str ",") (map Event_str events).

(** Two triggers with the event set [insert], [update] stored in either
    order. *)
Definition audit_trigger (events : list Event) : Trigger.t :=
  {| Trigger.name := str "audit"; Trigger.table := str "users";
     Trigger.timing := after; Trigger.events := events;
     Trigger.definition := str "EXECUTE FUNCTION audit()" |}.

Definition model_of_trigger (t : Trigger.t) : SchemaModel.t :=
  {| SchemaModel.tables := []; SchemaModel.views := [];
     SchemaModel.routines := []; SchemaModel.triggers := [t] |}.

(** *** The script, flattened

    What the emitters append, as lists: used to state where a statement
    sits in the script. *)

Definition plan_table_name (dialect : Dialect) (plan : TableChangePlan.t)
  : jsstring :=
  quote_for dialect (Table.name (TableChangePlan.table plan)).

Definition plan_lines (dialect : Dialect) (opts : GenOptions.t)
    (plan : TableChangePlan.t) : list jsstring :=
  let tableName := plan_table_name dialect plan in
  map (fun column =>
         guard_drop opts (drop_column_stmt dialect opts tableName column))
      (TableChangePlan.dropColumns plan)
  ++ map (add_column_stmt dialect tableName) (TableChangePlan.addColumns plan)
  ++ flat_map (fun alteration =>
                 map (alter_stmt tableName) (Alteration.change alteration))
              (TableChangePlan.alterColumns plan)
  ++ map (fun index =>
            guard_drop opts (drop_index_stmt dialect opts tableName index))
         (TableChangePlan.dropIndexes plan)
  ++ map (create_index_stmt dialect
            (Table.name (TableChangePlan.table plan)))
         (TableChangePlan.createIndexes plan).

Definition view_lines (dialect : Dialect) (diff : DiffResult.t)
    (opts : GenOptions.t) : list jsstring :=
  map (fun view => guard_drop opts (drop_view_stmt dialect opts view))
      (drop_views diff opts)
  ++ map (create_view_stmt dialect) (create_views diff opts)
  ++ map view_todo (Buckets.changed (DiffResult.views diff)).

Definition routine_lines (dialect : Dialect) (diff : DiffResult.t)
    (opts : GenOptions.t) : list jsstring :=
  map (fun routine => guard_drop opts (drop_routine_stmt dialect opts routine))
      (drop_routines diff opts)
  ++ flat_map (fun routine =>
                 [routine_header routine; trim (Routine.definition routine)])
              (create_routines diff opts)
  ++ map routine_todo (Buckets.changed (DiffResult.routines diff)).

Definition trigger_lines (dialect : Dialect) (diff : DiffResult.t)
    (opts : GenOptions.t) : list jsstring :=
  map (fun trigger => guard_drop opts (drop_trigger_stmt dialect opts trigger))
      (drop_triggers diff opts)
  ++ flat_map (fun trigger =>
                 [trigger_header trigger; trim (Trigger.definition trigger)])
              (create_triggers diff opts)
  ++ map trigger_todo (Buckets.changed (DiffResult.triggers diff)).

(** Everything between the banner and [COMMIT;]. *)
Definition body_lines (dialect : Dialect) (diff : DiffResult.t)
    (opts : GenOptions.t) : list jsstring :=
  let plan := planTables diff opts in
  map (fun table => guard_drop opts (drop_table_stmt dialect opts table))
      (Plan.toDrop plan)
  ++ map (create_table_stmt dialect) (Plan.toCreate plan)
  ++ flat_map (plan_lines dialect opts) (Plan.tablePlans plan)
  ++ view_lines dialect diff opts
  ++ routine_lines dialect diff opts
  ++ trigger_lines dialect diff opts.

Definition opener_lines (dialect : Dialect) (opts : GenOptions.t)
  : list jsstring :=
  if GenOptions.withTransaction opts then [transaction_opener dialect] else [].

Definition commit_lines (opts : GenOptions.t) : list jsstring :=
  if GenOptions.withTransaction opts then [str "COMMIT;"] else [].

(** *** The script, tagged

    The same statements with a tag: [true] for the text of a destructive
    statement (a [drop] constant of the source, built without looking at
    [safeMode]), [false] for every other line. *)

Definition destructive (text : jsstring) : bool * jsstring := (true, text).
Definition constructive (text : jsstring) : bool * jsstring := (false, text).

(** How a tagged statement reaches the script. *)
Definition render_tagged (opts : GenOptions.t) (t : bool * jsstring)
  : jsstring :=
  if fst t then guard_drop opts (snd t) else snd t.

Definition plan_tagged (dialect : Dialect) (opts : GenOptions.t)
    (plan : TableChangePlan.t) : list (bool * jsstring) :=
  let tableName := plan_table_name dialect plan in
  map (fun column =>
         destructive (drop_column_stmt dialect opts tableName column))
      (TableChangePlan.dropColumns plan)
  ++ map (fun column => constructive (add_column_stmt dialect tableName column))
         (TableChangePlan.addColumns plan)
  ++ flat_map (fun alteration =>
                 map (fun ddl => constructive (alter_stmt tableName ddl))
                     (Alteration.change alteration))
              (TableChangePlan.alterColumns plan)
  ++ map (fun index =>
            destructive (drop_index_stmt dialect opts tableName index))
         (TableChangePlan.dropIndexes plan)
  ++ map (fun index =>
            constructive
              (create_index_stmt dialect
                 (Table.name (TableChangePlan.table plan)) index))
         (TableChangePlan.createIndexes plan).

Definition body_tagged (dialect : Dialect) (diff : DiffResult.t)
    (opts : GenOptions.t) : list (bool * jsstring) :=
  let plan := planTables diff opts in
  map (fun table => destructive (drop_table_stmt dialect opts table))
      (Plan.toDrop plan)
  ++ map (fun table => constructive (create_table_stmt dialect table))
         (Plan.toCreate plan)
  ++ flat_map (plan_tagged dialect opts) (Plan.tablePlans plan)
  ++ (map (fun view => destructive (drop_view_stmt dialect opts view))
          (drop_views diff opts)
      ++ map (fun view => constructive (create_view_stmt dialect view))
             (create_views diff opts)
      ++ map (fun change => constructive (view_todo change))
             (Buckets.changed (DiffResult.views diff)))
  ++ (map (fun routine =>
             destructive (drop_routine_stmt dialect opts routine))
          (drop_routines diff opts)
      ++ flat_map (fun routine =>
                     [constructive (routine_header routine);
                      constructive (trim (Routine.definition routine))])
                  (create_routines diff opts)
      ++ map (fun change => constructive (routine_todo change))
             (Buckets.changed (DiffResult.routines diff)))
  ++ (map (fun trigger =>
             destructive (drop_trigger_stmt dialect opts trigger))
          (drop_triggers diff opts)
      ++ flat_map (fun trigger =>
                     [constructive (trigger_header trigger);
                      constructive (trim (Trigger.definition trigger))])
                  (create_triggers diff opts)
      ++ map (fun change => constructive (trigger_todo change))
             (Buckets.changed (DiffResult.triggers diff))).

(** The text of every destructive statement the generator builds, and the
    lines it emits for everything else, in emission order. *)
Definition drop_statements (dialect : Dialect) (diff : DiffResult.t)
    (opts : GenOptions.t) : list jsstring :=
  map snd (List.filter fst (body_tagged dialect diff opts)).

(** The lines of a script on a POSIX host. *)
Definition script_text_lines (script : jsstring) : list jsstring :=
  split LF script.

(** A line whose first character is not white space. *)
Definition visible (line : jsstring) : bool :=
  match line with
  | c :: _ => negb (is_space c)
  | [] => false
  end.

(** [stmt] is one of the statements the generator joins into the script. *)
Definition emits (dialect : Dialect) (diff : DiffResult.t)
    (opts : GenOptions.t) (stmt : jsstring) : Prop :=
  In stmt (statements (script_lines dialect diff opts)).



(** *** Sample diffs for the generators *)

Definition plain_column (name type : string) (len : option Z) (nullable : bool)
    (default : jsopt jsstring) (generated : jsopt Generated) : Column.t :=
  {| Column.name := str name; Column.dataType := str type;
     Column.length := len; Column.precisionScale := None;
     Column.nullable := nullable; Column.default := default;
     Column.generated := generated; Column.collation := Undefined |}.

Definition status_column : Column.t :=
  plain_column "status" "varchar" (Some 32%Z) true (Val (str "'pending'"))
               Undefined.

Definition plain_index (name : string) (unique : bool) (column : string)
  : Index.t :=
  {| Index.name := str name; Index.unique := unique;
     Index.columns := [str column]; Index.using_ := None |}.

(** The [source] and [target] models of the generator tests: [target] adds
    the column [status] and the index [users_status_idx]. *)
Definition fixture_source : SchemaModel.t :=
  model_of_table
    {| Table.name := str "users";
       Table.columns :=
         [ plain_column "id" "serial" None false Undefined (Val sequence);
           plain_column "email" "varchar" (Some 255%Z) false Undefined Undefined ];
       Table.primaryKey :=
         Some {| PrimaryKey.name := Val (str "users_pkey");
                 PrimaryKey.columns := [str "id"] |};
       Table.indexes := [plain_index "users_email_key" true "email"];
       Table.checks := []; Table.fks := [] |}.

Definition fixture_target : SchemaModel.t :=
  model_of_table
    {| Table.name := str "users";
       Table.columns :=
         [ plain_column "id" "serial" None false Undefined (Val sequence);
           plain_column "email" "varchar" (Some 128%Z) false Undefined Undefined;
           status_column ];
       Table.primaryKey :=
         Some {| PrimaryKey.name := Val (str "users_pkey");
                 PrimaryKey.columns := [str "id"] |};
       Table.indexes := [ plain_index "users_email_key" false "email";
                          plain_index "users_status_idx" false "status" ];
       Table.checks := []; Table.fks := [] |}.

Definition fixture_diff : DiffResult.t := computeDiff fixture_source fixture_target.

(** [{ direction: 'AtoB', withTransaction: true, safeMode: true }] *)
Definition safe_AtoB : GenOptions.t :=
  {| GenOptions.direction := AtoB; GenOptions.withTransaction := true;
     GenOptions.safeMode := true; GenOptions.ifExists := false;
     GenOptions.cascade := false |}.

(** A procedure whose body drops a scratch table, present on side A only. *)
Definition cleanup_routine : Routine.t :=
  {| Routine.name := str "cleanup"; Routine.kind := procedure;
     Routine.language := Some (str "sql");
     Routine.definition :=
       str "CREATE PROCEDURE cleanup()" ++ [LF] ++ str "LANGUAGE sql" ++ [LF]
       ++ str "BEGIN ATOMIC" ++ [LF] ++ str "DROP TABLE IF EXISTS scratch;"
       ++ [LF] ++ str "END" |}.

Definition cleanup_diff : DiffResult.t :=
  computeDiff
    {| SchemaModel.tables := []; SchemaModel.views := [];
       SchemaModel.routines := [cleanup_routine]; SchemaModel.triggers := [] |}
    empty_model.

(** *** The script in safe mode, statement by statement

    What the array [lines] of [toPostgres] ([dialect = postgres]) and of
    [toMariaDB] holds at the [return] when [safeMode] is on, written out:
    every destructive statement with [-- ] in front, every other line as it
    is built. *)
Definition safe_mode_table_change (dialect : Dialect) (opts : GenOptions.t)
    (change : TableChange.t) : list jsstring :=
  let quote := match dialect with postgres => quoteIdent | mariadb => backtick end in
  let if_exists := if GenOptions.ifExists opts then str " IF EXISTS" else [] in
  let cascade := if GenOptions.cascade opts then str " CASCADE" else [] in
  let direction := GenOptions.direction opts in
  let working := if is_AtoB direction then TableChange.table change
                 else TableChange.sourceTable change in
  let dropColumns := if is_AtoB direction then TableChange.addedColumns change
                     else TableChange.removedColumns change in
  let addColumns := if is_AtoB direction then TableChange.removedColumns change
                    else TableChange.addedColumns change in
  let dropIndexes := if is_AtoB direction then TableChange.addedIndexes change
                     else TableChange.removedIndexes change in
  let createIndexes := if is_AtoB direction then TableChange.removedIndexes change
                       else TableChange.addedIndexes change in
  let tableName := quote (Table.name working) in
  map (fun column =>
         str "-- ALTER TABLE " ++ tableName ++ str " DROP COLUMN "
         ++ quote (Column.name column)
         ++ match dialect with postgres => cascade | mariadb => [] end
         ++ str ";")
      dropColumns
  ++ map (fun column =>
            str "ALTER TABLE " ++ tableName ++ str " ADD COLUMN "
            ++ match dialect with
               | postgres => renderPostgresColumn column
               | mariadb => renderMariaColumn column
               end
            ++ str ";")
         addColumns
  ++ flat_map (fun alteration =>
                 map (fun ddl =>
                        str "ALTER TABLE " ++ tableName ++ str " " ++ ddl
                        ++ str ";")
                     (Alteration.change alteration))
              (TableChangePlan.alterColumns (buildTablePlan change direction))
  ++ map (fun index =>
            match dialect with
            | postgres =>
                str "-- DROP INDEX" ++ if_exists ++ str " "
                ++ quoteIdent (Index.name index) ++ str ";"
            | mariadb =>
                str "-- DROP INDEX " ++ backtick (Index.name index)
                ++ str " ON " ++ tableName ++ str ";"
            end)
         dropIndexes
  ++ map (fun index =>
            match dialect with
            | postgres => renderPostgresIndex (Table.name working) index
            | mariadb => renderMariaIndex (Table.name working) index
            end)
         createIndexes.

(** The statements between the banner and [COMMIT;]: tables, changed
    tables, views, routines, triggers. *)
Definition safe_mode_body (dialect : Dialect) (diff : DiffResult.t)
    (opts : GenOptions.t) : list jsstring :=
  let quote := match dialect with postgres => quoteIdent | mariadb => backtick end in
  let if_exists := if GenOptions.ifExists opts then str " IF EXISTS" else [] in
  let cascade := if GenOptions.cascade opts then str " CASCADE" else [] in
  let AtoB := is_AtoB (GenOptions.direction opts) in
  let dropTables := if AtoB then Buckets.added (DiffResult.tables diff)
                    else Buckets.removed (DiffResult.tables diff) in
  let createTables := if AtoB then Buckets.removed (DiffResult.tables diff)
                      else Buckets.added (DiffResult.tables diff) in
  let dropViews := if AtoB then Buckets.added (DiffResult.views diff)
                   else Buckets.removed (DiffResult.views diff) in
  let createViews := if AtoB then Buckets.removed (DiffResult.views diff)
                     else Buckets.added (DiffResult.views diff) in
  let dropRoutines := if AtoB then Buckets.added (DiffResult.routines diff)
                      else Buckets.removed (DiffResult.routines diff) in
  let createRoutines := if AtoB then Buckets.removed (DiffResult.routines diff)
                        else Buckets.added (DiffResult.routines diff) in
  let dropTriggers := if AtoB then Buckets.added (DiffResult.triggers diff)
                      else Buckets.removed (DiffResult.triggers diff) in
  let createTriggers := if AtoB then Buckets.removed (DiffResult.triggers diff)
                        else Buckets.added (DiffResult.triggers diff) in
  map (fun table =>
            str "-- DROP TABLE" ++ if_exists ++ str " "
            ++ quote (Table.name table) ++ cascade ++ str ";")
         dropTables
  ++ map (fun table =>
            match dialect with
            | postgres => renderPostgresCreateTable table
            | mariadb => renderMariaCreateTable table
            end)
         createTables
  ++ flat_map (safe_mode_table_change dialect opts)
              (Buckets.changed (DiffResult.tables diff))
  ++ map (fun view =>
            str "-- DROP VIEW" ++ if_exists ++ str " "
            ++ quote (View.name view) ++ cascade ++ str ";")
         dropViews
  ++ map (fun view =>
            str "CREATE OR REPLACE VIEW " ++ quote (View.name view)
            ++ str " AS" ++ [LF] ++ trim (View.definition view) ++ str ";")
         createViews
  ++ map (fun change =>
            str "-- TODO: view " ++ ChangeEnvelope.name change
            ++ str " changed; consider drop and recreate.")
         (Buckets.changed (DiffResult.views diff))
  ++ map (fun routine =>
            str "-- DROP "
            ++ match Routine.kind routine with
               | function => str "FUNCTION"
               | procedure => str "PROCEDURE"
               end
            ++ if_exists ++ str " " ++ quote (Routine.name routine) ++ str ";")
         dropRoutines
  ++ flat_map (fun routine =>
                 [str "-- Routine " ++ Routine.name routine;
                  trim (Routine.definition routine)])
              createRoutines
  ++ map (fun change =>
            str "-- TODO: routine " ++ ChangeEnvelope.name change
            ++ str " definition changed; drop and recreate manually.")
         (Buckets.changed (DiffResult.routines diff))
  ++ map (fun trigger =>
            str "-- DROP TRIGGER" ++ if_exists ++ str " "
            ++ quote (Trigger.name trigger) ++ str " ON "
            ++ quote (Trigger.table trigger) ++ str ";")
         dropTriggers
  ++ flat_map (fun trigger =>
                 [str "-- Trigger " ++ Trigger.name trigger ++ str " on "
                  ++ Trigger.table trigger;
                  trim (Trigger.definition trigger)])
              createTriggers
  ++ map (fun change =>
            str "-- TODO: trigger " ++ ChangeEnvelope.name change
            ++ str " changed; consider drop and recreate.")
         (Buckets.changed (DiffResult.triggers diff)).

(** The whole layout: the opener if a transaction is requested, the banner
    if a table is dropped, the body, the commit. *)
Definition safe_mode_script (dialect : Dialect) (diff : DiffResult.t)
    (opts : GenOptions.t) : list jsstring :=
  let dropTables := if is_AtoB (GenOptions.direction opts)
                    then Buckets.added (DiffResult.tables diff)
                    else Buckets.removed (DiffResult.tables diff) in
  (if GenOptions.withTransaction opts
   then [match dialect with
         | postgres => str "BEGIN;"
         | mariadb => str "START TRANSACTION;"
         end]
   else [])
  ++ (if nonempty dropTables
      then [str "-- SAFE MODE: review drops below before executing."]
      else [])
  ++ safe_mode_body dialect diff opts
  ++ (if GenOptions.withTransaction opts then [str "COMMIT;"] else []).

(** What the statements of one column change hold, key by key of the
    change: the texts [buildTablePlan] pushes for the desired column. *)
Definition renders_change (name : jsstring) (columnChange : ColumnChange.t)
    (desiredColumn : Column.t) (ddl : list jsstring) : Prop :=
  (ColumnChange.typeChanged columnChange <> None ->
   In (str "ALTER COLUMN " ++ quoteIdent name ++ str " TYPE "
       ++ Column.dataType desiredColumn) ddl
   /\ In (str "-- TODO: verify casts for " ++ name) ddl)
  /\ (ColumnChange.nullableChanged columnChange <> None ->
      In (str "ALTER COLUMN " ++ quoteIdent name ++ str " "
          ++ (if Column.nullable desiredColumn
              then str "DROP NOT NULL" else str "SET NOT NULL")) ddl)
  /\ (ColumnChange.defaultChanged columnChange <> None ->
      In (str "ALTER COLUMN " ++ quoteIdent name ++ str " "
          ++ match Column.default desiredColumn with
             | Val def => str "SET DEFAULT " ++ def
             | _ => str "DROP DEFAULT"
             end) ddl)
  /\ (ColumnChange.generatedChanged columnChange <> None ->
      In (str "-- TODO: reconcile generation strategy for " ++ name) ddl)
  /\ (ColumnChange.collationChanged columnChange <> None ->
      In (str "-- TODO: adjust collation for " ++ name) ddl).

(** *** Texts that cannot bring a [DROP] line into a script *)

(** The text holds no line feed. *)
Definition single_line (s : jsstring) : bool :=
  forallb (fun c => negb (Ascii.eqb c LF)) s.

Definition single_line_opt (o : jsopt jsstring) : bool :=
  match o with Val s => single_line s | _ => true end.

(** No line of the text, lines being what line feeds separate, begins with
    [DROP ]. *)
Definition drop_line_free (s : jsstring) : bool :=
  forallb (fun line => negb (startsWith (str "DROP ") line)) (split LF s).

Definition single_line_column (c : Column.t) : bool :=
  single_line (Column.name c) && single_line (Column.dataType c)
  && single_line_opt (Column.default c)
  && single_line_opt (Column.collation c).

Definition single_line_index (i : Index.t) : bool :=
  single_line (Index.name i) && forallb single_line (Index.columns i)
  && match Index.using_ i with Some u => single_line u | None => true end.

Definition single_line_table (t : Table.t) : bool :=
  single_line (Table.name t) && forallb single_line_column (Table.columns t)
  && match Table.primaryKey t with
     | Some pk => single_line_opt (PrimaryKey.name pk)
                  && forallb single_line (PrimaryKey.columns pk)
     | None => true
     end.

Definition single_line_table_change (change : TableChange.t) : bool :=
  single_line_table (TableChange.table change)
  && single_line_table (TableChange.sourceTable change)
  && forallb single_line_column (TableChange.addedColumns change)
  && forallb single_line_column (TableChange.removedColumns change)
  && forallb (fun e => single_line (ChangeEnvelope.name e))
             (TableChange.columnChanges change)
  && forallb single_line_index (TableChange.addedIndexes change)
  && forallb single_line_index (TableChange.removedIndexes change).

Definition drop_free_view (v : View.t) : bool :=
  single_line (View.name v) && drop_line_free (trim (View.definition v)).

Definition drop_free_routine (r : Routine.t) : bool :=
  single_line (Routine.name r) && drop_line_free (trim (Routine.definition r)).

Definition drop_free_trigger (t : Trigger.t) : bool :=
  single_line (Trigger.name t) && single_line (Trigger.table t)
  && drop_line_free (trim (Trigger.definition t)).

Definition drop_free_objects {T} (plain : T -> bool) (d : ObjectCollectionDiff T)
  : bool :=
  forallb plain (Buckets.added d) && forallb plain (Buckets.removed d)
  && forallb (fun e => single_line (ChangeEnvelope.name e)) (Buckets.changed d).

(** No name, data type, default, collation or access method in the diff
    holds a line feed, and no line of the trimmed definition of an added or
    removed view, routine or trigger begins with [DROP ]. *)
Definition drop_free_diff (diff : DiffResult.t) : bool :=
  forallb single_line_table (Buckets.added (DiffResult.tables diff))
  && forallb single_line_table (Buckets.removed (DiffResult.tables diff))
  && forallb single_line_table_change (Buckets.changed (DiffResult.tables diff))
  && drop_free_objects drop_free_view (DiffResult.views diff)
  && drop_free_objects drop_free_routine (DiffResult.routines diff)
  && drop_free_objects drop_free_trigger (DiffResult.triggers diff).

(** Tables present on side B only, to be dropped with direction [AtoB]. *)
Definition drop_tables_diff : DiffResult.t :=
  computeDiff empty_model zebra_apple_model.

(** *** Sample catalog rows for the PostgreSQL loader

    A table [users] with primary key [users_pkey] on [id] and a unique index
    on [email]; [pg_indexes] lists both indexes. *)
Definition users_table_rows : list TableRow.t := [TableRow.mk (str "users")].

Definition users_pk_rows : list PkRow.t :=
  [PkRow.mk (str "users") (str "users_pkey") (str "id") 1%Z].

Definition users_index_rows : list IndexRow.t :=
  [ IndexRow.mk (str "users") (str "users_pkey")
      (str "CREATE UNIQUE INDEX users_pkey ON public.users USING btree (id)");
    IndexRow.mk (str "users") (str "users_email_key")
      (str "CREATE UNIQUE INDEX users_email_key ON public.users USING btree (email)") ].

Definition users_pkey_index : Index.t :=
  {| Index.name := str "users_pkey"; Index.unique := true;
     Index.columns := [str "id"]; Index.using_ := Some (str "btree") |}.

Definition users_email_index : Index.t :=
  {| Index.name := str "users_email_key"; Index.unique := true;
     Index.columns := [str "email"]; Index.using_ := Some (str "btree") |}.


(** *** More predicates and sample data *)

Definition sample_view (name definition : string) : View.t :=
  {| View.name := str name; View.definition := str definition |}.

Definition view_a : View.t := sample_view "active_users" "SELECT 1".
Definition view_b : View.t := sample_view "billing" "SELECT 2".
Definition view_b' : View.t := sample_view "billing" "SELECT 3".
Definition view_c : View.t := sample_view "customers" "SELECT 4".

(** Names are unique within each collection of the table. *)
Definition unique_names (t : Table.t) : Prop :=
  List.NoDup (map Column.name (Table.columns t))
  /\ List.NoDup (map Index.name (Table.indexes t))
  /\ List.NoDup (map Check.name (Table.checks t))
  /\ List.NoDup (map ForeignKey.name (Table.fks t)).

(** [t'] is [t] with its columns, indexes, checks and foreign keys listed
    in another order. *)
Definition reordered (t t' : Table.t) : Prop :=
  Table.name t' = Table.name t
  /\ Table.primaryKey t' = Table.primaryKey t
  /\ Permutation (Table.columns t) (Table.columns t')
  /\ Permutation (Table.indexes t) (Table.indexes t')
  /\ Permutation (Table.checks t) (Table.checks t')
  /\ Permutation (Table.fks t) (Table.fks t').

(** The diff result with nothing in it. *)
Definition empty_diff : DiffResult.t :=
  {| DiffResult.tables := Buckets.mk [] [] [];
     DiffResult.views := Buckets.mk [] [] [];
     DiffResult.routines := Buckets.mk [] [] [];
     DiffResult.triggers := Buckets.mk [] [] [] |}.

Definition orders_table (columns : list Column.t) (indexes : list Index.t)
  : Table.t :=
  {| Table.name := str "orders"; Table.columns := columns;
     Table.primaryKey := None; Table.indexes := indexes;
     Table.checks := []; Table.fks := [] |}.

Definition col_id : Column.t :=
  plain_column "id" "bigint" None false Undefined Undefined.
Definition col_total : Column.t :=
  plain_column "total" "numeric" None true Undefined Undefined.
Definition col_total' : Column.t :=
  plain_column "total" "numeric" None false Undefined Undefined.
Definition idx_total : Index.t := plain_index "orders_total_idx" false "total".
Definition idx_id : Index.t := plain_index "orders_id_key" true "id".

(** Index equality as the differ sees it: same uniqueness, same access
    method up to case (both absent counts as same), same columns up to case
    and order. *)
Definition index_equivalent (i1 i2 : Index.t) : Prop :=
  Index.unique i1 = Index.unique i2
  /\ option_map toLowerCase (Index.using_ i1)
     = option_map toLowerCase (Index.using_ i2)
  /\ Permutation (map toLowerCase (Index.columns i1))
                 (map toLowerCase (Index.columns i2)).

(** Foreign-key equality as the differ sees it. *)
Definition fk_equivalent (f1 f2 : ForeignKey.t) : Prop :=
  Permutation (map toLowerCase (ForeignKey.columns f1))
              (map toLowerCase (ForeignKey.columns f2))
  /\ toLowerCase (ForeignKey.refTable f1) = toLowerCase (ForeignKey.refTable f2)
  /\ Permutation (map toLowerCase (ForeignKey.refColumns f1))
                 (map toLowerCase (ForeignKey.refColumns f2))
  /\ option_map toUpperCase (ForeignKey.onUpdate f1)
     = option_map toUpperCase (ForeignKey.onUpdate f2)
  /\ option_map toUpperCase (ForeignKey.onDelete f1)
     = option_map toUpperCase (ForeignKey.onDelete f2).

Definition idx_email_ab : Index.t :=
  {| Index.name := str "users_ab_idx"; Index.unique := false;
     Index.columns := [str "a"; str "B"]; Index.using_ := Some (str "BTREE") |}.

Definition idx_email_ba : Index.t :=
  {| Index.name := str "users_ab_idx"; Index.unique := false;
     Index.columns := [str "b"; str "A"]; Index.using_ := Some (str "btree") |}.

Definition fk_owner (columns refColumns : list jsstring)
    (onDelete : option jsstring) : ForeignKey.t :=
  {| ForeignKey.name := str "fk_owner"; ForeignKey.columns := columns;
     ForeignKey.refTable := str "Accounts"; ForeignKey.refColumns := refColumns;
     ForeignKey.onUpdate := None; ForeignKey.onDelete := onDelete |}.

(** Options that carry no user type map. *)
Definition no_user_map (options : NormalizationOptions.t) : Prop :=
  NormalizationOptions.mapTypes options = None.

Definition default_options : NormalizationOptions.t :=
  {| NormalizationOptions.nameCase := None;
     NormalizationOptions.normalizeDefaults := false;
     NormalizationOptions.mapTypes := None |}.

(** The options [opts] with another [safeMode]. *)
Definition with_safeMode (opts : GenOptions.t) (safeMode : bool) : GenOptions.t :=
  {| GenOptions.direction := GenOptions.direction opts;
     GenOptions.withTransaction := GenOptions.withTransaction opts;
     GenOptions.safeMode := safeMode;
     GenOptions.ifExists := GenOptions.ifExists opts;
     GenOptions.cascade := GenOptions.cascade opts |}.

(** A table change reduced to what [buildTablePlan] reads: the two tables,
    the added, removed and changed columns and the added and removed
    indexes. *)
Definition planned_part (change : TableChange.t) : TableChange.t :=
  {| TableChange.table := TableChange.table change;
     TableChange.sourceTable := TableChange.sourceTable change;
     TableChange.addedColumns := TableChange.addedColumns change;
     TableChange.removedColumns := TableChange.removedColumns change;
     TableChange.columnChanges := TableChange.columnChanges change;
     TableChange.primaryKeyChange := None;
     TableChange.addedIndexes := TableChange.addedIndexes change;
     TableChange.removedIndexes := TableChange.removedIndexes change;
     TableChange.indexChanges := [];
     TableChange.addedChecks := []; TableChange.removedChecks := [];
     TableChange.checkChanges := [];
     TableChange.addedForeignKeys := []; TableChange.removedForeignKeys := [];
     TableChange.foreignKeyChanges := [] |}.

Definition planned_diff (diff : DiffResult.t) : DiffResult.t :=
  {| DiffResult.tables :=
       Buckets.mk (Buckets.added (DiffResult.tables diff))
                  (Buckets.removed (DiffResult.tables diff))
                  (map planned_part (Buckets.changed (DiffResult.tables diff)));
     DiffResult.views := DiffResult.views diff;
     DiffResult.routines := DiffResult.routines diff;
     DiffResult.triggers := DiffResult.triggers diff |}.

(** The script of a diff with nothing to do. *)
Definition bracket_only (EOL : jsstring) (dialect : Dialect)
    (opts : GenOptions.t) : jsstring :=
  if GenOptions.withTransaction opts
  then transaction_opener dialect ++ EOL ++ EOL ++ str "COMMIT;"
  else [].

(* ===================================================================== *)
(** ** Catalog loaders: triggers (discovery/postgres.ts and
       discovery/mariadb.ts, introspectTriggers) and the MariaDB index loop
       (discovery/mariadb.ts, introspectTables) *)
(* ===================================================================== *)

(** A JavaScript [Set] of strings, as the list of its members in insertion
    order. *)
Module JsSet.
Definition add (x : jsstring) (s : list jsstring) : list jsstring :=
  if bool_decide (x ∈ s) then s else s ++ [x].

(** [Array.from(new Set(items))] *)
Definition of_list (items : list jsstring) : list jsstring :=
  fold_left (fun s x => add x s) items [].
End JsSet.

Module TriggerRow.
Record t : Type := mk {
  trigger_name : jsstring;
  event_manipulation : jsstring;
  event_object_table : jsstring;
  action_timing : jsstring;
  action_statement : jsstring;
}.
End TriggerRow.

(** A trigger as the loaders build it: [timing] and [events] hold the
    lower-cased catalog strings, which the source casts to the types of
    [Trigger] without a check. *)
Module LoadedTrigger.
Record t : Type := mk {
  name : jsstring;
  table : jsstring;
  timing : jsstring;
  events : list jsstring;
  definition : jsstring;
}.

Definition key (trigger : t) : jsstring := table trigger ++ str "." ++ name trigger.

Definition push_event (event : jsstring) (trigger : t) : t :=
  {| name := name trigger; table := table trigger; timing := timing trigger;
     events := events trigger ++ [event]; definition := definition trigger |}.

Definition with_events (events : list jsstring) (trigger : t) : t :=
  {| name := name trigger; table := table trigger; timing := timing trigger;
     events := events; definition := definition trigger |}.
End LoadedTrigger.

Definition trigger_row_key (row : TriggerRow.t) : jsstring :=
  TriggerRow.event_object_table row ++ str "." ++ TriggerRow.trigger_name row.

(** One pass of the loop over the trigger rows: the trigger of the row's
    key is created when the map lacks it, then the row's event is pushed
    onto it. *)
Definition group_trigger_row (grouped : JsMap.t LoadedTrigger.t)
    (row : TriggerRow.t) : JsMap.t LoadedTrigger.t :=
  let key := trigger_row_key row in
  let trigger :=
    match JsMap.get key grouped with
    | Some trigger => trigger
    | None =>
        {| LoadedTrigger.name := TriggerRow.trigger_name row;
           LoadedTrigger.table := TriggerRow.event_object_table row;
           LoadedTrigger.timing := toLowerCase (TriggerRow.action_timing row);
           LoadedTrigger.events := [];
           LoadedTrigger.definition := TriggerRow.action_statement row |}
    end in
  JsMap.set key
    (LoadedTrigger.push_event (toLowerCase (TriggerRow.event_manipulation row))
                              trigger)
    grouped.

(** [introspectTriggers], as a function of the rows of its query. *)
Definition introspectTriggers (rows : list TriggerRow.t)
  : list LoadedTrigger.t :=
  let grouped := fold_left group_trigger_row rows JsMap.empty in
  map (fun entry =>
         LoadedTrigger.with_events
           (JsSet.of_list (LoadedTrigger.events (snd entry))) (snd entry))
      grouped.

Module StatisticsRow.
Record t : Type := mk {
  table_name : jsstring;
  index_name : jsstring;
  column_name : jsstring;
  non_unique : Z;
  index_type : jsstring;
  seq_in_index : Z;
}.
End StatisticsRow.

(** The state of the MariaDB index loop.  An index object is shared by the
    accumulator map and by the [indexes] array of the table that received it,
    and is mutated through the accumulator: the objects live in [heap], and
    the map and the arrays hold their positions. *)
Module IndexLoop.
Record t : Type := mk {
  tables : JsMap.t (list nat);
  heap : list Index.t;
  indexAccumulator : JsMap.t nat;
}.

Definition push_column (column : jsstring) (index : Index.t) : Index.t :=
  {| Index.name := Index.name index; Index.unique := Index.unique index;
     Index.columns := Index.columns index ++ [column];
     Index.using_ := Index.using_ index |}.

Definition step (state : t) (row : StatisticsRow.t) : t :=
  match JsMap.get (StatisticsRow.table_name row) (tables state) with
  | None => state
  | Some ids =>
      if jsstring_eqb (StatisticsRow.index_name row) (str "PRIMARY") then state
      else
        let key := StatisticsRow.table_name row ++ str "."
                   ++ StatisticsRow.index_name row in
        match JsMap.get key (indexAccumulator state) with
        | Some id =>
            {| tables := tables state;
               heap := alter (push_column (StatisticsRow.column_name row)) id
                             (heap state);
               indexAccumulator := indexAccumulator state |}
        | None =>
            let id := List.length (heap state) in
            let index :=
              {| Index.name := StatisticsRow.index_name row;
                 Index.unique := (StatisticsRow.non_unique row =? 0)%Z;
                 Index.columns := [];
                 Index.using_ :=
                   Some (toLowerCase (StatisticsRow.index_type row)) |} in
            {| tables := JsMap.set (StatisticsRow.table_name row)
                                   (ids ++ [id]) (tables state);
               heap := heap state
                       ++ [push_column (StatisticsRow.column_name row) index];
               indexAccumulator := JsMap.set key id (indexAccumulator state) |}
        end
  end.
End IndexLoop.

(** The table list and the index loop of the MariaDB [introspectTables], as
    a function of the rows of the two queries; the other loops fill other
    fields of the tables and are left out. *)
Definition mariadb_table_indexes (tableRows : list TableRow.t)
    (indexRows : list StatisticsRow.t) : list Table.t :=
  let tablesByName : JsMap.t (list nat) :=
    fold_left (fun m row => JsMap.set (TableRow.table_name row) [] m)
              tableRows JsMap.empty in
  let final :=
    fold_left IndexLoop.step indexRows
              (IndexLoop.mk tablesByName [] JsMap.empty) in
  map (fun entry =>
         {| Table.name := fst entry; Table.columns := [];
            Table.primaryKey := None;
            Table.indexes :=
              omap (fun id => IndexLoop.heap final !! id) (snd entry);
            Table.checks := []; Table.fks := [] |})
      (IndexLoop.tables final).

(** *** What the PostgreSQL loader returns for one table *)

(** The primary key the loop builds from the rows of one table: the
    constraint name of the first row, the columns of all rows in order. *)
Definition primary_key_of (rows : list PkRow.t) : option PrimaryKey.t :=
  match rows with
  | [] => None
  | row :: _ =>
      Some {| PrimaryKey.name := Val (PkRow.constraint_name row);
              PrimaryKey.columns := map PkRow.column_name rows |}
  end.

Definition pk_rows_of (name : jsstring) (rows : list PkRow.t) : list PkRow.t :=
  List.filter (fun row => jsstring_eqb (PkRow.table_name row) name) rows.

Definition index_rows_of (name : jsstring) (rows : list IndexRow.t)
  : list IndexRow.t :=
  List.filter (fun row => jsstring_eqb (IndexRow.tablename row) name) rows.

Definition loaded_table (pkRows : list PkRow.t) (indexRows : list IndexRow.t)
    (name : jsstring) : Table.t :=
  {| Table.name := name; Table.columns := [];
     Table.primaryKey := primary_key_of (pk_rows_of name pkRows);
     Table.indexes := map index_of_row (index_rows_of name indexRows);
     Table.checks := []; Table.fks := [] |}.

Definition sample_trigger_rows : list TriggerRow.t :=
  [ TriggerRow.mk (str "audit") (str "INSERT") (str "users") (str "AFTER")
                  (str "EXECUTE FUNCTION audit()");
    TriggerRow.mk (str "audit") (str "UPDATE") (str "users") (str "AFTER")
                  (str "EXECUTE FUNCTION audit()");
    TriggerRow.mk (str "audit") (str "INSERT") (str "users") (str "AFTER")
                  (str "EXECUTE FUNCTION audit()") ].

(** The key of a statistics row in [indexAccumulator]. *)
Definition index_row_key (row : StatisticsRow.t) : jsstring :=
  StatisticsRow.table_name row ++ str "." ++ StatisticsRow.index_name row.

(** The statistics rows whose column the loop pushes onto the index held
    under [key]: the rows of a listed table and of an index not named
    [PRIMARY] that have this key. *)
Definition feeds (tableRows : list TableRow.t) (key : jsstring)
    (row : StatisticsRow.t) : bool :=
  existsb (fun t => jsstring_eqb (TableRow.table_name t)
                                 (StatisticsRow.table_name row)) tableRows
  && negb (jsstring_eqb (StatisticsRow.index_name row) (str "PRIMARY"))
  && jsstring_eqb (index_row_key row) key.

(** The invariant of the index loop after the rows [done]. *)
Definition index_loop_inv (tableRows : list TableRow.t)
    (done : list StatisticsRow.t) (state : IndexLoop.t) : Prop :=
  List.NoDup (map fst (IndexLoop.tables state))
  /\ (forall name,
        JsMap.has name (IndexLoop.tables state)
        = existsb (fun t => jsstring_eqb (TableRow.table_name t) name) tableRows)
  /\ (forall key id,
        JsMap.get key (IndexLoop.indexAccumulator state) = Some id ->
        exists index,
          IndexLoop.heap state !! id = Some index
          /\ Index.name index <> str "PRIMARY"
          /\ (exists w, Index.using_ index = Some (toLowerCase w))
          /\ Index.columns index <> []
          /\ Index.columns index
             = map StatisticsRow.column_name
                   (List.filter (feeds tableRows key) done))
  /\ (forall key,
        JsMap.get key (IndexLoop.indexAccumulator state) = None ->
        List.filter (feeds tableRows key) done = [])
  /\ (forall k1 k2 id,
        JsMap.get k1 (IndexLoop.indexAccumulator state) = Some id ->
        JsMap.get k2 (IndexLoop.indexAccumulator state) = Some id -> k1 = k2)
  /\ (forall name ids,
        JsMap.get name (IndexLoop.tables state) = Some ids ->
        List.NoDup ids
        /\ forall id, In id ids ->
             exists index,
               IndexLoop.heap state !! id = Some index
               /\ JsMap.get (name ++ str "." ++ Index.name index)
                            (IndexLoop.indexAccumulator state) = Some id).

Definition sample_table_rows : list TableRow.t :=
  [ TableRow.mk (str "users"); TableRow.mk (str "orders") ].

Definition sample_statistics_rows : list StatisticsRow.t :=
  [ StatisticsRow.mk (str "orders") (str "PRIMARY") (str "id") 0 (str "BTREE") 1;
    StatisticsRow.mk (str "orders") (str "o_idx") (str "a") 1 (str "BTREE") 1;
    StatisticsRow.mk (str "orders") (str "o_idx") (str "b") 1 (str "BTREE") 2;
    StatisticsRow.mk (str "ghost") (str "g_idx") (str "x") 1 (str "BTREE") 1;
    StatisticsRow.mk (str "users") (str "u_key") (str "email") 0 (str "BTREE") 1 ].

(** An index definition in the shape [pg_indexes.indexdef] has for a plain
    index: the text up to the access method, [USING], the method, and the
    parenthesised column list separated by a comma and a space. *)
Definition plain_indexdef (prefix method : jsstring) (columns : list jsstring)
  : jsstring :=
  prefix ++ str "USING " ++ method ++ str " (" ++ join (str ", ") columns
         ++ str ")".

Definition sample_index_row : IndexRow.t :=
  {| IndexRow.tablename := str "users";
     IndexRow.indexname := str "users_email_key";
     IndexRow.indexdef :=
       plain_indexdef (str "CREATE UNIQUE INDEX users_email_key ON public.users ")
                      (str "btree") [str "email"; DQUOTE :: str "Tenant" ++ [DQUOTE]] |}.

(* ===================================================================== *)
(** ** Catalog loaders: the foreign-key loop (discovery/postgres.ts and
       discovery/mariadb.ts, introspectTables) *)
(* ===================================================================== *)

Module FkRow.
Record t : Type := mk {
  table_name : jsstring;
  constraint_name : jsstring;
  column_name : jsstring;
  foreign_table_name : jsstring;
  foreign_column_name : jsstring;
  update_rule : option jsstring;
  delete_rule : option jsstring;
}.
End FkRow.

(** The state of the foreign-key loop; as in the index loop, a foreign key
    is shared by [fkAccumulator] and by the [fks] array of its table, so the
    objects live in [heap]. *)
Module FkLoop.
Record t : Type := mk {
  tables : JsMap.t (list nat);
  heap : list ForeignKey.t;
  fkAccumulator : JsMap.t nat;
}.

Definition push_columns (column refColumn : jsstring) (fk : ForeignKey.t)
  : ForeignKey.t :=
  {| ForeignKey.name := ForeignKey.name fk;
     ForeignKey.columns := ForeignKey.columns fk ++ [column];
     ForeignKey.refTable := ForeignKey.refTable fk;
     ForeignKey.refColumns := ForeignKey.refColumns fk ++ [refColumn];
     ForeignKey.onUpdate := ForeignKey.onUpdate fk;
     ForeignKey.onDelete := ForeignKey.onDelete fk |}.

Definition step (state : t) (row : FkRow.t) : t :=
  match JsMap.get (FkRow.table_name row) (tables state) with
  | None => state
  | Some ids =>
      let key := FkRow.table_name row ++ str "." ++ FkRow.constraint_name row in
      match JsMap.get key (fkAccumulator state) with
      | Some id =>
          {| tables := tables state;
             heap := alter (push_columns (FkRow.column_name row)
                                         (FkRow.foreign_column_name row))
                           id (heap state);
             fkAccumulator := fkAccumulator state |}
      | None =>
          let id := List.length (heap state) in
          let fk :=
            {| ForeignKey.name := FkRow.constraint_name row;
               ForeignKey.columns := [];
               ForeignKey.refTable := FkRow.foreign_table_name row;
               ForeignKey.refColumns := [];
               ForeignKey.onUpdate := FkRow.update_rule row;
               ForeignKey.onDelete := FkRow.delete_rule row |} in
          {| tables := JsMap.set (FkRow.table_name row) (ids ++ [id])
                                 (tables state);
             heap := heap state
                     ++ [push_columns (FkRow.column_name row)
                                      (FkRow.foreign_column_name row) fk];
             fkAccumulator := JsMap.set key id (fkAccumulator state) |}
      end
  end.
End FkLoop.

(** The table list and the foreign-key loop of [introspectTables], as a
    function of the rows of the two queries. *)
Definition table_foreign_keys (tableRows : list TableRow.t)
    (fkRows : list FkRow.t) : list Table.t :=
  let tablesByName : JsMap.t (list nat) :=
    fold_left (fun m row => JsMap.set (TableRow.table_name row) [] m)
              tableRows JsMap.empty in
  let final :=
    fold_left FkLoop.step fkRows (FkLoop.mk tablesByName [] JsMap.empty) in
  map (fun entry =>
         {| Table.name := fst entry; Table.columns := [];
            Table.primaryKey := None; Table.indexes := [];
            Table.checks := [];
            Table.fks := omap (fun id => FkLoop.heap final !! id) (snd entry) |})
      (FkLoop.tables final).

Definition sample_fk_rows : list FkRow.t :=
  [ FkRow.mk (str "orders") (str "orders_user_fk") (str "tenant") (str "users")
             (str "tenant") (Some (str "NO ACTION")) (Some (str "CASCADE"));
    FkRow.mk (str "orders") (str "orders_user_fk") (str "user_id") (str "users")
             (str "id") (Some (str "NO ACTION")) (Some (str "CASCADE"));
    FkRow.mk (str "ghost") (str "g_fk") (str "x") (str "users") (str "id")
             None None ].

(* ===================================================================== *)
(** * Properties *)
(* ===================================================================== *)

(** ** Strings *)

Ltac each_char c := destruct c as [[] [] [] [] [] [] [] []]; vm_compute.

Lemma lower_char_idem c : lower_char (lower_char c) = lower_char c.
Proof. each_char c; reflexivity. Qed.

Lemma upper_char_idem c : upper_char (upper_char c) = upper_char c.
Proof. each_char c; reflexivity. Qed.

Lemma toLowerCase_idem s : toLowerCase (toLowerCase s) = toLowerCase s.
Proof.
  unfold toLowerCase. rewrite map_map. apply map_ext, lower_char_idem.
Qed.

Lemma toUpperCase_idem s : toUpperCase (toUpperCase s) = toUpperCase s.
Proof.
  unfold toUpperCase. rewrite map_map. apply map_ext, upper_char_idem.
Qed.

Lemma jsstring_eqb_eq a b : jsstring_eqb a b = true <-> a = b.
Proof. unfold jsstring_eqb. apply bool_decide_eq_true. Qed.

Lemma jsstring_eqb_refl a : jsstring_eqb a a = true.
Proof. apply jsstring_eqb_eq. reflexivity. Qed.

Lemma jsstring_eqb_neq a b : jsstring_eqb a b = false <-> a <> b.
Proof. unfold jsstring_eqb. apply bool_decide_eq_false. Qed.

Lemma trimStart_not_space c s :
  is_space c = false -> trimStart (c :: s) = c :: s.
Proof. intros H. simpl. rewrite H. reflexivity. Qed.

Lemma trimStart_head s :
  trimStart s = [] \/ exists c r, trimStart s = c :: r /\ is_space c = false.
Proof.
  induction s as [|c s IH]; simpl; [now left|].
  destruct (is_space c) eqn:E; [exact IH|].
  right. exists c, s. split; [reflexivity | exact E].
Qed.

Lemma trimEnd_cons_not_space c s :
  is_space c = false -> exists r, trimEnd (c :: s) = c :: r.
Proof.
  intros H. simpl. destruct (trimEnd s) as [|x r].
  - rewrite H. exists []. reflexivity.
  - exists (x :: r). reflexivity.
Qed.

Lemma trimEnd_idem s : trimEnd (trimEnd s) = trimEnd s.
Proof.
  induction s as [|c s IH]; simpl; [reflexivity|].
  destruct (trimEnd s) as [|x r] eqn:E.
  - destruct (is_space c) eqn:Ec; simpl; [reflexivity|]. rewrite Ec. reflexivity.
  - change (trimEnd (c :: x :: r)) with
      (match trimEnd (x :: r) with
       | [] => if is_space c then [] else [c]
       | y :: r' => c :: y :: r'
       end).
    rewrite IH. reflexivity.
Qed.

Lemma trim_head s :
  trim s = [] \/ exists c r, trim s = c :: r /\ is_space c = false.
Proof.
  unfold trim. destruct (trimStart_head s) as [H | (c & r & H & Hc)].
  - rewrite H. now left.
  - rewrite H. destruct (trimEnd_cons_not_space c r Hc) as [r' Hr'].
    right. exists c, r'. split; [exact Hr' | exact Hc].
Qed.

Lemma trimStart_trim s : trimStart (trim s) = trim s.
Proof.
  destruct (trim_head s) as [H | (c & r & H & Hc)]; rewrite H.
  - reflexivity.
  - apply trimStart_not_space, Hc.
Qed.

Lemma trim_idem s : trim (trim s) = trim s.
Proof.
  unfold trim at 1. rewrite trimStart_trim. unfold trim. apply trimEnd_idem.
Qed.

Lemma trimEnd_length s : List.length (trimEnd s) <= List.length s.
Proof.
  induction s as [|c s IH]; simpl; [lia|].
  destruct (trimEnd s); [destruct (is_space c)|]; simpl in *; lia.
Qed.

Lemma trimStart_length s : List.length (trimStart s) <= List.length s.
Proof.
  induction s as [|c s IH]; simpl; [lia|].
  destruct (is_space c); simpl; lia.
Qed.

Lemma trim_length s : List.length (trim s) <= List.length s.
Proof.
  unfold trim. pose proof (trimEnd_length (trimStart s)).
  pose proof (trimStart_length s). lia.
Qed.

(** A string whose first character is not white space is not blank. *)
Lemma trim_cons_not_space c s :
  is_space c = false -> exists r, trim (c :: s) = c :: r.
Proof.
  intros H. unfold trim. rewrite trimStart_not_space by exact H.
  apply trimEnd_cons_not_space, H.
Qed.

Lemma startsWith_app (p s : jsstring) : startsWith p (p ++ s) = true.
Proof.
  induction p as [|c p IH]; simpl; [reflexivity|].
  rewrite Ascii.eqb_refl. exact IH.
Qed.


Lemma includes_here (p s : jsstring) :
  startsWith p s = true -> includes p s = true.
Proof. intros H. destruct s; cbn [includes]; rewrite H; reflexivity. Qed.

Lemma includes_app_r (p a s : jsstring) :
  includes p s = true -> includes p (a ++ s) = true.
Proof.
  intros H. induction a as [|c a IH]; [exact H|].
  cbn [app includes]. rewrite IH. apply orb_true_r.
Qed.

(** An element of the joined array is a part of the text. *)
Lemma includes_join (sep s : jsstring) (l : list jsstring) :
  In s l -> includes s (join sep l) = true.
Proof.
  induction l as [|x l IH]; [intros []|].
  intros [->|Hin].
  - destruct l as [|y l]; cbn [join].
    + rewrite <- (app_nil_r s) at 2. apply includes_here, startsWith_app.
    + apply includes_here, startsWith_app.
  - destruct l as [|y l]; [destruct Hin|].
    change (join sep (x :: y :: l)) with (x ++ sep ++ join sep (y :: l)).
    apply includes_app_r, includes_app_r, IH, Hin.
Qed.

(** ** The parenthesis-stripping loop *)

Lemma slice_1_m1_length s :
  startsWith (str "(") s = true ->
  List.length (slice_1_m1 s) < List.length s.
Proof.
  destruct s as [|c s]; simpl; [discriminate|]. intros _.
  unfold slice_1_m1. simpl.
  destruct s as [|x s]; [simpl; lia|].
  rewrite removelast_firstn_len. rewrite length_firstn. simpl. lia.
Qed.

Lemma stripParens_at_done fuel s :
  loop_done s = true -> stripParens fuel s = s.
Proof.
  unfold loop_done. intros H. destruct fuel as [|fuel]; cbn [stripParens]; [reflexivity|].
  destruct (startsWith (str "(") s && endsWith (str ")") s); [|reflexivity].
  cbn [negb orb] in H. destruct (truthy (trim (slice_1_m1 s))); [discriminate|reflexivity].
Qed.

(** With fuel equal to the length the loop always reaches its exit. *)
Lemma stripParens_done fuel s :
  List.length s <= fuel -> loop_done (stripParens fuel s) = true.
Proof.
  revert s. induction fuel as [|fuel IH]; intros s Hlen.
  - destruct s; [reflexivity | simpl in Hlen; lia].
  - cbn [stripParens].
    destruct (startsWith (str "(") s && endsWith (str ")") s) eqn:E.
    + destruct (truthy (trim (slice_1_m1 s))) eqn:Et.
      * apply IH. apply andb_true_iff in E as [E1 _].
        pose proof (slice_1_m1_length s E1).
        pose proof (trim_length (slice_1_m1 s)). lia.
      * unfold loop_done. rewrite Et. apply orb_true_r.
    + unfold loop_done. rewrite E. reflexivity.
Qed.

(** Any fuel that covers the length gives the same result. *)
Lemma stripParens_fuel fuel1 fuel2 s :
  List.length s <= fuel1 -> List.length s <= fuel2 ->
  stripParens fuel1 s = stripParens fuel2 s.
Proof.
  revert fuel2 s. induction fuel1 as [|fuel1 IH]; intros fuel2 s H1 H2.
  - destruct s; [|simpl in H1; lia]. destruct fuel2; reflexivity.
  - destruct fuel2 as [|fuel2].
    + destruct s; [reflexivity | simpl in H2; lia].
    + cbn [stripParens].
      destruct (startsWith (str "(") s && endsWith (str ")") s) eqn:E;
        [|reflexivity].
      destruct (truthy (trim (slice_1_m1 s))) eqn:Et; [|reflexivity].
      apply andb_true_iff in E as [E1 _].
      pose proof (slice_1_m1_length _ E1).
      pose proof (trim_length (slice_1_m1 s)).
      apply IH; lia.
Qed.

Lemma stripParens_trimmed fuel s :
  trim s = s -> trim (stripParens fuel s) = stripParens fuel s.
Proof.
  revert s. induction fuel as [|fuel IH]; intros s H; cbn [stripParens]; [exact H|].
  destruct (startsWith (str "(") s && endsWith (str ")") s); [|exact H].
  destruct (truthy (trim (slice_1_m1 s))); [|exact H].
  apply IH, trim_idem.
Qed.

Lemma stripParens_truthy fuel s :
  truthy s = true -> truthy (stripParens fuel s) = true.
Proof.
  revert s. induction fuel as [|fuel IH]; intros s H; cbn [stripParens]; [exact H|].
  destruct (startsWith (str "(") s && endsWith (str ")") s); [|exact H].
  destruct (truthy (trim (slice_1_m1 s))) eqn:E; [|exact H].
  apply IH, E.
Qed.

Lemma normalizeDefault_fixed r :
  trim r = r -> truthy r = true -> loop_done r = true ->
  jsstring_eqb (toLowerCase r) (str "now()") = false ->
  normalizeDefault (Val r) = Val r.
Proof.
  intros Ht Hr Hd Hn. unfold normalizeDefault. rewrite Ht, Hr.
  rewrite stripParens_at_done by exact Hd. rewrite Hn. reflexivity.
Qed.

Lemma normalizeDefault_idem value :
  normalizeDefault (normalizeDefault value) = normalizeDefault value.
Proof.
  destruct value as [| |v]; try reflexivity.
  remember (normalizeDefault (Val v)) as r eqn:Hr.
  unfold normalizeDefault in Hr.
  destruct (truthy (trim v)) eqn:Et.
  - destruct (jsstring_eqb
                (toLowerCase (stripParens (List.length (trim v)) (trim v)))
                (str "now()")) eqn:En; subst r.
    + reflexivity.
    + apply normalizeDefault_fixed.
      * apply stripParens_trimmed, trim_idem.
      * apply stripParens_truthy, Et.
      * apply stripParens_done. lia.
      * exact En.
  - subst r. unfold normalizeDefault. rewrite Et. reflexivity.
Qed.

(** ** White-space collapsing *)

Lemma collapse_ws_length b s : List.length (collapse_ws b s) <= List.length s.
Proof.
  revert b. induction s as [|c s IH]; intros b; simpl; [lia|].
  destruct (is_space c); [destruct b|]; simpl.
  - specialize (IH true). lia.
  - specialize (IH true). lia.
  - specialize (IH false). lia.
Qed.

Lemma is_space_space : is_space " "%char = true.
Proof. reflexivity. Qed.

Lemma collapse_ws_idem b s : collapse_ws b (collapse_ws b s) = collapse_ws b s.
Proof.
  revert b. induction s as [|c s IH]; intros b; simpl; [reflexivity|].
  destruct (is_space c) eqn:Ec.
  - destruct b; [apply IH|].
    cbn [collapse_ws]. rewrite is_space_space, IH. reflexivity.
  - cbn [collapse_ws]. rewrite Ec, IH. reflexivity.
Qed.

Lemma collapse_ws_not_space b c s :
  is_space c = false -> collapse_ws b (c :: s) = c :: collapse_ws false s.
Proof. intros H. simpl. rewrite H. reflexivity. Qed.

(** A white-space character cannot head a fixed point of the in-run state. *)
Lemma collapse_ws_true_fixed c s :
  is_space c = true -> collapse_ws true (c :: s) <> c :: s.
Proof.
  intros Hc H. simpl in H. rewrite Hc in H.
  pose proof (collapse_ws_length true s) as L. rewrite H in L. simpl in L. lia.
Qed.

Lemma collapse_ws_false_fixed c s :
  is_space c = true -> collapse_ws false (c :: s) = c :: s ->
  c = " "%char /\ collapse_ws true s = s.
Proof.
  intros Hc H. simpl in H. rewrite Hc in H. injection H as H1 H2. auto.
Qed.

Lemma collapse_ws_trimStart b s :
  collapse_ws b s = s -> collapse_ws false (trimStart s) = trimStart s.
Proof.
  revert b. induction s as [|c s IH]; intros b H; [reflexivity|].
  cbn [trimStart]. destruct (is_space c) eqn:Ec.
  - destruct b.
    + exfalso. exact (collapse_ws_true_fixed c s Ec H).
    + apply collapse_ws_false_fixed in H as [_ H]; [|exact Ec].
      exact (IH true H).
  - rewrite collapse_ws_not_space in * by exact Ec. exact H.
Qed.

Lemma collapse_ws_trimEnd b s :
  collapse_ws b s = s -> collapse_ws b (trimEnd s) = trimEnd s.
Proof.
  revert b. induction s as [|c s IH]; intros b H; [reflexivity|].
  cbn [trimEnd]. destruct (is_space c) eqn:Ec.
  - destruct b.
    + exfalso. exact (collapse_ws_true_fixed c s Ec H).
    + apply collapse_ws_false_fixed in H as [-> H]; [|exact Ec].
      specialize (IH true H).
      destruct (trimEnd s) as [|x r]; [reflexivity|].
      cbn [collapse_ws]. rewrite is_space_space.
      cbn [collapse_ws] in IH. rewrite IH. reflexivity.
  - rewrite collapse_ws_not_space in H by exact Ec.
    injection H as H. specialize (IH false H).
    destruct (trimEnd s) as [|x r].
    + rewrite collapse_ws_not_space by exact Ec. reflexivity.
    + rewrite collapse_ws_not_space by exact Ec. rewrite IH. reflexivity.
Qed.

Lemma normalizeExpression_idem e :
  normalizeExpression (normalizeExpression e) = normalizeExpression e.
Proof.
  unfold normalizeExpression.
  assert (H : collapse_ws false (trim (collapse_ws false e))
              = trim (collapse_ws false e)).
  { unfold trim. apply collapse_ws_trimEnd.
    apply (collapse_ws_trimStart false), collapse_ws_idem. }
  rewrite H. apply trim_idem.
Qed.

(** ** Sorting *)

Lemma str_leb_total a b : str_leb a b = false -> str_leb b a = true.
Proof.
  revert b. induction a as [|x a IH]; intros [|y b]; simpl; try congruence.
  destruct (nat_of_ascii x <? nat_of_ascii y) eqn:E1; [discriminate|].
  destruct (nat_of_ascii y <? nat_of_ascii x) eqn:E2; [reflexivity|].
  apply IH.
Qed.

Lemma str_leb_refl a : str_leb a a = true.
Proof.
  induction a as [|x a IH]; simpl; [reflexivity|].
  rewrite Nat.ltb_irrefl. exact IH.
Qed.

Section SortByFacts.
Context {A : Type} (key : A -> jsstring).

Lemma sort_insert_In x y l : In y (sort_insert key x l) <-> y = x \/ In y l.
Proof.
  induction l as [|z l IH]; simpl; [intuition congruence|].
  destruct (str_leb (key x) (key z)); simpl; rewrite ?IH; intuition congruence.
Qed.

Lemma sortBy_In y l : In y (sortBy key l) <-> In y l.
Proof.
  induction l as [|x l IH]; simpl; [reflexivity|].
  rewrite sort_insert_In, IH. intuition congruence.
Qed.

Lemma sort_insert_length x l :
  List.length (sort_insert key x l) = S (List.length l).
Proof.
  induction l as [|z l IH]; simpl; [reflexivity|].
  destruct (str_leb (key x) (key z)); simpl; rewrite ?IH; reflexivity.
Qed.

Lemma sortBy_length l : List.length (sortBy key l) = List.length l.
Proof.
  induction l as [|x l IH]; simpl; [reflexivity|].
  rewrite sort_insert_length, IH. reflexivity.
Qed.

Lemma sort_insert_sorted x l :
  sorted_by key l = true -> sorted_by key (sort_insert key x l) = true.
Proof.
  induction l as [|y l IH]; intros H; [reflexivity|].
  cbn [sort_insert]. destruct (str_leb (key x) (key y)) eqn:E.
  - cbn [sorted_by]. rewrite E. exact H.
  - apply str_leb_total in E.
    destruct l as [|z l].
    + cbn. rewrite E. reflexivity.
    + cbn [sorted_by] in H. apply andb_true_iff in H as [Hyz Hl].
      specialize (IH Hl). cbn [sort_insert] in *.
      destruct (str_leb (key x) (key z)).
      * cbn [sorted_by] in *. rewrite E. exact IH.
      * cbn [sorted_by] in *. rewrite Hyz. exact IH.
Qed.

Lemma sortBy_sorted l : sorted_by key (sortBy key l) = true.
Proof.
  induction l as [|x l IH]; [reflexivity|].
  apply sort_insert_sorted, IH.
Qed.

Lemma sortBy_of_sorted l : sorted_by key l = true -> sortBy key l = l.
Proof.
  induction l as [|x l IH]; intros H; [reflexivity|].
  cbn [sortBy fold_right]. fold (sortBy key l).
  destruct l as [|y l]; [reflexivity|].
  cbn [sorted_by] in H. apply andb_true_iff in H as [Hxy Hl].
  rewrite (IH Hl). cbn [sort_insert]. rewrite Hxy. reflexivity.
Qed.

Lemma sortBy_idem l : sortBy key (sortBy key l) = sortBy key l.
Proof. apply sortBy_of_sorted, sortBy_sorted. Qed.
End SortByFacts.

(** ** Name folding and type mapping *)

Lemma normalizeName_idem value options :
  normalizeName (normalizeName value options) options
  = normalizeName value options.
Proof.
  unfold normalizeName.
  destruct (NormalizationOptions.nameCase options) as [nameCase|];
    [|reflexivity].
  destruct (NameCaseOptions.ignore nameCase) as [ig|].
  - destruct (bool_decide (value ∈ ig)) eqn:E; [rewrite E; reflexivity|].
    destruct (NameCaseOptions.strategy nameCase).
    + rewrite E. reflexivity.
    + destruct (bool_decide (toLowerCase value ∈ ig)); [reflexivity|].
      apply toLowerCase_idem.
    + destruct (bool_decide (toUpperCase value ∈ ig)); [reflexivity|].
      apply toUpperCase_idem.
  - destruct (NameCaseOptions.strategy nameCase);
      [reflexivity | apply toLowerCase_idem | apply toUpperCase_idem].
Qed.

Lemma mapType_string mapper dataType :
  ~ names_inherited mapper dataType ->
  exists s, mapType mapper dataType = StringType s.
Proof.
  intros H. unfold mapType.
  destruct (mapper !! toLowerCase dataType) as [t|] eqn:E; [eauto|].
  destruct (inherited_property (toLowerCase dataType)) as [o|] eqn:Ei; [|eauto].
  exfalso. apply H. split; [exact E|]. unfold inherited_property in Ei.
  destruct (jsstring_eqb (toLowerCase dataType) (str "constructor")) eqn:E1.
  - left. apply jsstring_eqb_eq, E1.
  - destruct (jsstring_eqb (toLowerCase dataType) (str "__proto__")) eqn:E2;
      [|discriminate Ei].
    right. apply jsstring_eqb_eq, E2.
Qed.

Lemma mapType_idem mapper dataType s :
  mapper_closed mapper ->
  mapType mapper dataType = StringType s ->
  mapType mapper s = StringType s.
Proof.
  intros Hc. unfold mapType at 1.
  destruct (mapper !! toLowerCase dataType) as [t|] eqn:E.
  - intros [= <-]. exact (Hc _ _ E).
  - destruct (inherited_property (toLowerCase dataType)) eqn:Ei;
      [discriminate|].
    intros [= <-]. unfold mapType. rewrite toLowerCase_idem, E, Ei.
    reflexivity.
Qed.

(** ** Normalization is idempotent *)

Lemma map_idem {A} (f : A -> A) l :
  (forall x, f (f x) = f x) -> map f (map f l) = map f l.
Proof. intros H. rewrite map_map. apply map_ext, H. Qed.

Lemma option_map_idem {A} (f : A -> A) o :
  (forall x, f (f x) = f x) -> option_map f (option_map f o) = option_map f o.
Proof. intros H. destruct o; simpl; [rewrite H|]; reflexivity. Qed.

(** Where [normalize] gives every item of a list a typed reading that
    normalizes to the same value, the list has one too. *)
Lemma all_typed_again {A N} (normalize : A -> N) (typed : N -> option A)
    (l : list A) :
  (forall x, In x l ->
     exists x', typed (normalize x) = Some x' /\ normalize x' = normalize x) ->
  exists l', all_typed typed (map normalize l) = Some l'
             /\ map normalize l' = map normalize l.
Proof.
  induction l as [|x l IH]; intros H; cbn [map all_typed]; [exists []; auto|].
  destruct (H x) as (x' & Hx & Hn); [now left|].
  destruct IH as (l' & Hl & Hm); [intros; apply H; now right|].
  exists (x' :: l'). rewrite Hx, Hl. cbn [map]. rewrite Hn, Hm. auto.
Qed.

Lemma normalizeColumn_again column mapper options :
  mapper_closed mapper ->
  ~ names_inherited mapper (Column.dataType column) ->
  exists column',
    typed_column (normalizeColumn column mapper options) = Some column'
    /\ normalizeColumn column' mapper options
       = normalizeColumn column mapper options.
Proof.
  intros Hc Hs. destruct (mapType_string _ _ Hs) as (s & Hm).
  unfold typed_column, normalizeColumn at 1.
  cbn [NormalizedColumn.name NormalizedColumn.dataType NormalizedColumn.length
       NormalizedColumn.precisionScale NormalizedColumn.nullable
       NormalizedColumn.default NormalizedColumn.generated
       NormalizedColumn.collation].
  rewrite Hm. eexists. split; [reflexivity|].
  unfold normalizeColumn.
  cbn [Column.name Column.dataType Column.length Column.precisionScale
       Column.nullable Column.default Column.generated Column.collation].
  rewrite Hm. f_equal.
  - apply normalizeName_idem.
  - apply (mapType_idem _ _ _ Hc Hm).
  - destruct (NormalizationOptions.normalizeDefaults options);
      [apply normalizeDefault_idem | reflexivity].
  - destruct (Column.generated column); reflexivity.
  - destruct (Column.collation column); reflexivity.
Qed.

Lemma normalizeTable_again table mapper options :
  mapper_closed mapper ->
  (forall column, In column (Table.columns table) ->
     ~ names_inherited mapper (Column.dataType column)) ->
  exists table',
    typed_table (normalizeTable table mapper options) = Some table'
    /\ normalizeTable table' mapper options
       = normalizeTable table mapper options.
Proof.
  intros Hc Hs.
  destruct (all_typed_again
              (fun column => normalizeColumn column mapper options)
              typed_column (Table.columns table)) as (columns' & Hcols & Hmap).
  { intros column Hin. apply normalizeColumn_again; auto. }
  unfold typed_table, normalizeTable at 1.
  cbn [NormalizedTable.name NormalizedTable.columns NormalizedTable.primaryKey
       NormalizedTable.indexes NormalizedTable.checks NormalizedTable.fks].
  rewrite Hcols. eexists. split; [reflexivity|].
  unfold normalizeTable.
  cbn [Table.name Table.columns Table.primaryKey Table.indexes Table.checks
       Table.fks].
  f_equal.
  - apply normalizeName_idem.
  - exact Hmap.
  - destruct (Table.primaryKey table) as [pk|]; [|reflexivity].
    cbn [PrimaryKey.name PrimaryKey.columns]. do 2 f_equal.
    + destruct (PrimaryKey.name pk); reflexivity.
    + apply map_idem. intros c. apply normalizeName_idem.
  - apply map_idem. intros index.
    cbn [Index.name Index.unique Index.columns Index.using_]. f_equal.
    + apply normalizeName_idem.
    + apply map_idem. intros c. apply normalizeName_idem.
    + apply option_map_idem, toLowerCase_idem.
  - apply map_idem. intros check.
    cbn [Check.name Check.expression]. f_equal.
    + apply normalizeName_idem.
    + apply normalizeExpression_idem.
  - apply map_idem. intros fk.
    cbn [ForeignKey.name ForeignKey.columns ForeignKey.refTable
         ForeignKey.refColumns ForeignKey.onUpdate ForeignKey.onDelete].
    f_equal.
    + apply normalizeName_idem.
    + apply map_idem. intros c. apply normalizeName_idem.
    + apply normalizeName_idem.
    + apply map_idem. intros c. apply normalizeName_idem.
    + apply option_map_idem, toUpperCase_idem.
    + apply option_map_idem, toUpperCase_idem.
Qed.

(** The built-in synonym table alone is closed. *)
Lemma DEFAULT_TYPE_MAPPINGS_closed : mapper_closed DEFAULT_TYPE_MAPPINGS.
Proof. apply (bool_decide_unpack _). vm_compute. exact I. Qed.

(** C3 (as amended).  [normalizeSchemaModel] is idempotent for every model
    and every options value such that the merged type map is closed, that
    is, every token the map produces is mapped to itself by a second pass,
    and no column has, in lower case, the data type [constructor] or
    [__proto__] without the map holding that key: the second call returns,
    and returns the model the first call returned, through the parenthesis
    stripping, the [now()] replacement, the synonym mapping and the name
    folding. *)
Theorem normalizeSchemaModel_idempotent model options :
  mapper_closed (merged_mapper options) ->
  string_types (merged_mapper options) model ->
  normalizeSchemaModel_again (normalizeSchemaModel model options) options
  = Returns (normalizeSchemaModel model options).
Proof.
  intros Hc Hs.
  destruct (all_typed_again
              (fun table => normalizeTable table (merged_mapper options) options)
              typed_table (SchemaModel.tables model)) as (tables' & Ht & Hmap).
  { intros table Hin. apply normalizeTable_again; [exact Hc|].
    intros column Hcol. exact (Hs table column Hin Hcol). }
  unfold normalizeSchemaModel_again, typed_model, normalizeSchemaModel at 1.
  cbn [NormalizedModel.tables NormalizedModel.views NormalizedModel.routines
       NormalizedModel.triggers].
  rewrite Ht. f_equal. unfold normalizeSchemaModel.
  cbn [SchemaModel.tables SchemaModel.views SchemaModel.routines
       SchemaModel.triggers].
  f_equal.
  - exact Hmap.
  - apply sortBy_idem.
  - apply sortBy_idem.
  - apply sortBy_idem.
Qed.

Lemma normalizeSchemaModel_idempotent_witness :
  mapper_closed (merged_mapper folding_options)
  /\ string_types (merged_mapper folding_options) sample_model
  /\ normalizeSchemaModel_again
       (normalizeSchemaModel sample_model folding_options) folding_options
     = Returns (normalizeSchemaModel sample_model folding_options).
Proof.
  assert (Hc : mapper_closed (merged_mapper folding_options))
    by (apply (bool_decide_unpack _); vm_compute; exact I).
  assert (Hs : string_types (merged_mapper folding_options) sample_model).
  { intros table column [<-|[]] [<-|[<-|[]]] [_ [H|H]];
      vm_compute in H; discriminate H. }
  split; [exact Hc|]. split; [exact Hs|].
  exact (normalizeSchemaModel_idempotent sample_model folding_options Hc Hs).
Defined.

(** C3 as stated fails, in two ways.  With the user map [serial -> int4]
    the first pass turns [serial] into [int4] and the second turns [int4]
    into [int].  With no user map at all, a column of type [Constructor]
    gets the function [Object] as its data type, and the second call
    throws. *)
Lemma normalizeSchemaModel_chained_map_not_idempotent :
  normalizeSchemaModel_again
    (normalizeSchemaModel serial_model chained_options) chained_options
  <> Returns (normalizeSchemaModel serial_model chained_options)
  /\ map (fun t => map NormalizedColumn.dataType (NormalizedTable.columns t))
         (NormalizedModel.tables
            (normalizeSchemaModel constructor_model default_options))
     = [[InheritedType ObjectFunction]]
  /\ normalizeSchemaModel_again
       (normalizeSchemaModel constructor_model default_options) default_options
     = Throws.
Proof.
  split; [|split; vm_compute; reflexivity].
  intros H. vm_compute in H. discriminate H.
Qed.

(** ** JavaScript maps *)

Module JsMapFacts.
Section Facts.
Context {V : Type}.
Implicit Types (m : JsMap.t V) (k : jsstring) (v : V).

Lemma get_set_same k v m : JsMap.get k (JsMap.set k v m) = Some v.
Proof.
  induction m as [|[k' v'] m IH]; simpl.
  - rewrite jsstring_eqb_refl. reflexivity.
  - destruct (jsstring_eqb k' k) eqn:E; simpl; rewrite E; auto.
Qed.

Lemma get_set_other k k' v m :
  k <> k' -> JsMap.get k' (JsMap.set k v m) = JsMap.get k' m.
Proof.
  intros Hne. induction m as [|[k0 v0] m IH]; simpl.
  - apply jsstring_eqb_neq in Hne. rewrite Hne. reflexivity.
  - destruct (jsstring_eqb k0 k) eqn:E; simpl.
    + apply jsstring_eqb_eq in E. subst k0.
      apply jsstring_eqb_neq in Hne. rewrite Hne. reflexivity.
    + rewrite IH. reflexivity.
Qed.

Lemma get_In k v m : JsMap.get k m = Some v -> In (k, v) m.
Proof.
  induction m as [|[k' v'] m IH]; simpl; [discriminate|].
  destruct (jsstring_eqb k' k) eqn:E.
  - apply jsstring_eqb_eq in E. intros [= ->]. subst. now left.
  - intros H. right. auto.
Qed.

Lemma get_None_keys k m : JsMap.get k m = None -> ~ In k (map fst m).
Proof.
  induction m as [|[k' v'] m IH]; simpl; [tauto|].
  destruct (jsstring_eqb k' k) eqn:E; [discriminate|].
  apply jsstring_eqb_neq in E. intros H [H1|H1]; [congruence|].
  exact (IH H H1).
Qed.

Lemma In_get k v m : List.NoDup (map fst m) -> In (k, v) m -> JsMap.get k m = Some v.
Proof.
  induction m as [|[k' v'] m IH]; simpl; [tauto|].
  intros Hnd [H|H].
  - injection H as -> ->. rewrite jsstring_eqb_refl. reflexivity.
  - apply List.NoDup_cons_iff in Hnd as [Hk Hnd].
    destruct (jsstring_eqb k' k) eqn:E.
    + apply jsstring_eqb_eq in E. subst k'. exfalso. apply Hk.
      apply in_map_iff. exists (k, v). split; [reflexivity | exact H].
    + auto.
Qed.

Lemma set_keys k v m :
  map fst (JsMap.set k v m)
  = if JsMap.has k m then map fst m else map fst m ++ [k].
Proof.
  unfold JsMap.has. induction m as [|[k' v'] m IH]; simpl; [reflexivity|].
  destruct (jsstring_eqb k' k) eqn:E; simpl; [reflexivity|].
  rewrite IH. destruct (JsMap.get k m); reflexivity.
Qed.

Lemma set_NoDup k v m : List.NoDup (map fst m) -> List.NoDup (map fst (JsMap.set k v m)).
Proof.
  intros H. rewrite set_keys. unfold JsMap.has.
  destruct (JsMap.get k m) eqn:E; [exact H|].
  apply List.NoDup_app.
  - exact H.
  - constructor; [intros [] | constructor].
  - intros x Hx [<-|[]]. exact (get_None_keys _ _ E Hx).
Qed.
End Facts.

Section KeyMap.
Context {T : Type} (keyFn : T -> jsstring).
Implicit Types (l : list T) (k : jsstring).

Let step := fun (m : JsMap.t T) item => JsMap.set (keyFn item) item m.

Lemma fold_set_filled l l0 m :
  filled keyFn l0 m -> filled keyFn (l0 ++ l) (fold_left step l m).
Proof.
  revert l0 m. induction l as [|x l IH]; intros l0 m H.
  - rewrite app_nil_r. exact H.
  - simpl. replace (l0 ++ x :: l) with ((l0 ++ [x]) ++ l)
      by (rewrite <- app_assoc; reflexivity).
    apply IH. destruct H as (Hnd & Hget & Hhas). unfold step.
    split; [apply set_NoDup, Hnd|]. split.
    + intros k v. destruct (decide (keyFn x = k)) as [<-|Hne].
      * rewrite get_set_same. intros [= <-]. split; [reflexivity|].
        apply in_or_app. right. now left.
      * rewrite get_set_other by exact Hne. intros Hg.
        destruct (Hget _ _ Hg) as [? ?]. split; [assumption|].
        apply in_or_app. now left.
    + intros y Hy. unfold JsMap.has.
      destruct (decide (keyFn x = keyFn y)) as [E|Hne].
      * rewrite <- E, get_set_same. reflexivity.
      * rewrite get_set_other by exact Hne.
        apply in_app_or in Hy as [Hy|[<-|[]]]; [|congruence].
        apply Hhas, Hy.
Qed.

Lemma key_map_filled l : filled keyFn l (key_map keyFn l).
Proof.
  unfold key_map. apply (fold_set_filled l [] JsMap.empty).
  split; [constructor|]. split; [discriminate | intros x []].
Qed.

Lemma key_map_get k v l :
  JsMap.get k (key_map keyFn l) = Some v -> keyFn v = k /\ In v l.
Proof. apply key_map_filled. Qed.

Lemma key_map_has x l : In x l -> JsMap.has (keyFn x) (key_map keyFn l) = true.
Proof. apply key_map_filled. Qed.

Lemma key_map_NoDup l : List.NoDup (map fst (key_map keyFn l)).
Proof. apply key_map_filled. Qed.

Lemma key_map_entry k v l :
  In (k, v) (key_map keyFn l) <-> JsMap.get k (key_map keyFn l) = Some v.
Proof.
  split; [apply In_get, key_map_NoDup | apply get_In].
Qed.

(** [new Map(items.map((item) => [name(item), item]))] is the same map. *)
Lemma name_map_key_map l : name_map keyFn l = key_map keyFn l.
Proof.
  unfold name_map, key_map, JsMap.of_entries.
  generalize (@JsMap.empty T). induction l as [|x l IH]; intros m;
    [reflexivity|]. simpl. apply IH.
Qed.
End KeyMap.
End JsMapFacts.

(** ** The differ *)

(** C4.  [computeDiff] is direction-symmetric: in each of the four buckets
    the set of keys of the objects [computeDiff a b] lists as added is the
    set of keys [computeDiff b a] lists as removed, and the other way
    round. *)
Theorem computeDiff_direction_symmetric (a b : SchemaModel.t) :
  let d := computeDiff a b in
  let d' := computeDiff b a in
  (keys_of Table.name (Buckets.added (DiffResult.tables d))
   = keys_of Table.name (Buckets.removed (DiffResult.tables d'))
   /\ keys_of Table.name (Buckets.removed (DiffResult.tables d))
      = keys_of Table.name (Buckets.added (DiffResult.tables d')))
  /\ (keys_of view_key (Buckets.added (DiffResult.views d))
      = keys_of view_key (Buckets.removed (DiffResult.views d'))
      /\ keys_of view_key (Buckets.removed (DiffResult.views d))
         = keys_of view_key (Buckets.added (DiffResult.views d')))
  /\ (keys_of routine_key (Buckets.added (DiffResult.routines d))
      = keys_of routine_key (Buckets.removed (DiffResult.routines d'))
      /\ keys_of routine_key (Buckets.removed (DiffResult.routines d))
         = keys_of routine_key (Buckets.added (DiffResult.routines d')))
  /\ (keys_of trigger_key (Buckets.added (DiffResult.triggers d))
      = keys_of trigger_key (Buckets.removed (DiffResult.triggers d'))
      /\ keys_of trigger_key (Buckets.removed (DiffResult.triggers d))
         = keys_of trigger_key (Buckets.added (DiffResult.triggers d'))).
Proof.
  intros d d'. subst d d'. unfold computeDiff.
  cbn [DiffResult.tables DiffResult.views DiffResult.routines
       DiffResult.triggers].
  unfold diffTables, diffCollection. cbn [Buckets.added Buckets.removed].
  repeat split; reflexivity.
Qed.

(** What the added and removed lists hold: the keys of one side that the
    other side lacks. *)
Lemma diffCollection_added_keys {T} (keyFn valueFn : T -> jsstring)
    (source target : list T) (k : jsstring) :
  In k (map keyFn (Buckets.added (diffCollection keyFn valueFn source target)))
  <-> In k (map keyFn target) /\ ~ In k (map keyFn source).
Proof.
  unfold diffCollection. cbn [Buckets.added].
  rewrite in_map_iff. split.
  - intros (x & <- & Hx). apply sortBy_In, in_map_iff in Hx as ([k' v] & Hv & He).
    simpl in Hv. subst v. apply filter_In in He as [He Hh]. simpl in Hh.
    apply JsMapFacts.key_map_entry, JsMapFacts.key_map_get in He as [<- Hin].
    split; [apply in_map, Hin|].
    intros Hs. apply in_map_iff in Hs as (y & Hy & Hys).
    apply (JsMapFacts.key_map_has keyFn) in Hys. rewrite Hy in Hys.
    rewrite Hys in Hh. discriminate.
  - intros [Ht Hs]. apply in_map_iff in Ht as (y & <- & Hy).
    pose proof (JsMapFacts.key_map_has keyFn _ _ Hy) as Hh.
    unfold JsMap.has in Hh.
    destruct (JsMap.get (keyFn y) (key_map keyFn target)) as [v|] eqn:Eg;
      [|discriminate].
    destruct (JsMapFacts.key_map_get _ _ _ _ Eg) as [Hk Hv].
    exists v. split; [exact Hk|].
    apply sortBy_In, in_map_iff. exists (keyFn y, v). split; [reflexivity|].
    apply filter_In. split; [apply JsMapFacts.get_In, Eg|]. simpl.
    unfold JsMap.has.
    destruct (JsMap.get (keyFn y) (key_map keyFn source)) as [w|] eqn:Ew;
      [|reflexivity].
    exfalso. apply Hs. destruct (JsMapFacts.key_map_get _ _ _ _ Ew) as [<- Hw].
    apply in_map, Hw.
Qed.

(** The lists that the comparators do sort. *)
Lemma diffCollection_sorted {T} (keyFn valueFn : T -> jsstring)
    (source target : list T) :
  let d := diffCollection keyFn valueFn source target in
  sorted_by keyFn (Buckets.added d) = true
  /\ sorted_by keyFn (Buckets.removed d) = true
  /\ sorted_by ChangeEnvelope.name (Buckets.changed d) = true.
Proof. repeat split; apply sortBy_sorted. Qed.

Lemma diffTables_changed_sorted (source target : list Table.t) :
  sorted_by (fun change => Table.name (TableChange.table change))
            (Buckets.changed (diffTables source target)) = true.
Proof. apply sortBy_sorted. Qed.

(** C5, at the failing input.  [diffTables] returns [added] (and [removed])
    in catalog order: for the tables [zebra], [apple] on the right-hand side
    only, the added list is [zebra], [apple], which is not sorted by name,
    and listing the same two tables as [apple], [zebra] gives another diff
    result. *)
Theorem diffTables_added_not_sorted :
  let d := computeDiff empty_model zebra_apple_model in
  Buckets.added (DiffResult.tables d) = [bare_table "zebra"; bare_table "apple"]
  /\ sorted_by Table.name (Buckets.added (DiffResult.tables d)) = false
  /\ sorted_by Table.name
       (Buckets.removed (DiffResult.tables
                           (computeDiff zebra_apple_model empty_model))) = false
  /\ computeDiff empty_model apple_zebra_model <> d.
Proof.
  repeat split; try reflexivity.
  intros H.
  apply (f_equal (fun d => map Table.name
                             (Buckets.added (DiffResult.tables d)))) in H.
  vm_compute in H. discriminate H.
Qed.

(** ** Column comparison *)

Lemma diffColumn_Some_iff s t : is_Some (diffColumn s t) <-> columns_differ s t.
Proof.
  unfold diffColumn, columns_differ, ColumnChange.keys.
  cbn [ColumnChange.typeChanged ColumnChange.nullableChanged
       ColumnChange.defaultChanged ColumnChange.generatedChanged
       ColumnChange.collationChanged].
  repeat case_bool_decide; cbn; split; intros Hx;
    try (eexists; reflexivity); try tauto;
    try (destruct Hx as [? Hx]; discriminate Hx).
Qed.

Lemma diffColumn_resized c len ps : diffColumn c (resized c len ps) = None.
Proof.
  destruct (diffColumn c (resized c len ps)) eqn:E; [|reflexivity].
  assert (H : is_Some (diffColumn c (resized c len ps))) by (rewrite E; eauto).
  apply diffColumn_Some_iff in H. unfold columns_differ, resized in H.
  cbn in H. tauto.
Qed.

(** The entries of a comparator's [changed] list. *)
Lemma compare_by_name_changed {T C} (name : T -> jsstring)
    (diff : T -> T -> option C) (source target : list T)
    (e : ChangeEnvelope.t C) :
  In e (Buckets.changed (compare_by_name name diff source target))
  <-> exists item counterpart,
        In item source
        /\ JsMap.get (name item) (name_map name target) = Some counterpart
        /\ diff item counterpart = Some (ChangeEnvelope.change e)
        /\ ChangeEnvelope.name e = name item.
Proof.
  unfold compare_by_name. cbn [Buckets.changed].
  rewrite sortBy_In, <- list_elem_of_In, list_elem_of_omap.
  split.
  - intros (item & Hin & H). apply list_elem_of_In in Hin.
    destruct (JsMap.get (name item) (name_map name target)) as [cp|] eqn:Eg;
      [|discriminate].
    destruct (diff item cp) as [ch|] eqn:Ed; [|discriminate].
    injection H as <-. exists item, cp. auto.
  - intros (item & cp & Hin & Hg & Hd & Hn). exists item.
    split; [apply list_elem_of_In, Hin|]. rewrite Hg, Hd.
    destruct e as [n ch]. simpl in *. subst n. reflexivity.
Qed.










(** ** Column changes name columns of both sides *)

Lemma name_map_get {T} (name : T -> jsstring) (l : list T) k v :
  JsMap.get k (name_map name l) = Some v -> name v = k /\ In v l.
Proof. rewrite JsMapFacts.name_map_key_map. apply JsMapFacts.key_map_get. Qed.

Lemma diffTables_changed (source target : list Table.t) (change : TableChange.t) :
  In change (Buckets.changed (diffTables source target))
  <-> exists table counterpart,
        In table source
        /\ JsMap.get (Table.name table) (name_map Table.name target)
           = Some counterpart
        /\ diffTable table counterpart = Some change.
Proof.
  unfold diffTables. cbn [Buckets.changed].
  rewrite sortBy_In, <- list_elem_of_In, list_elem_of_omap. split.
  - intros (table & Hin & H). apply list_elem_of_In in Hin.
    destruct (JsMap.get (Table.name table) (name_map Table.name target))
      as [cp|] eqn:Eg; [|discriminate].
    exists table, cp. auto.
  - intros (table & cp & Hin & Hg & Hd). exists table.
    split; [apply list_elem_of_In, Hin|]. rewrite Hg. exact Hd.
Qed.

Lemma diffTable_Some (source target : Table.t) (change : TableChange.t) :
  diffTable source target = Some change ->
  TableChange.table change = target
  /\ TableChange.sourceTable change = source
  /\ TableChange.columnChanges change
     = Buckets.changed (compareColumns source target).
Proof.
  unfold diffTable.
  match goal with |- context [if negb ?h then _ else _] => destruct (negb h) end;
    [discriminate|].
  intros [= <-]. auto.
Qed.

Lemma find_column_Some name columns :
  (exists c, In c columns /\ Column.name c = name) ->
  exists col, find_column name columns = Some col /\ Column.name col = name.
Proof.
  intros (c & Hc & Hn). unfold find_column.
  destruct (List.find (fun col => jsstring_eqb (Column.name col) name) columns)
    as [col|] eqn:E.
  - exists col. split; [reflexivity|].
    apply List.find_some in E as [_ E]. apply jsstring_eqb_eq, E.
  - exfalso. apply (List.find_none _ _ E) in Hc.
    apply jsstring_eqb_neq in Hc. exact (Hc Hn).
Qed.

(** C9.  In a diff result of [computeDiff], every name in a changed table's
    [columnChanges] names a column of the source-side table and a column of
    the target-side table; so in [buildTablePlan], for either direction, the
    lookup of the desired column by that name succeeds and the alteration is
    the one built from the column found: neither the [desired.columns[0]]
    fallback nor the [-- TODO: review column] alteration is reached. *)
Theorem columnChanges_name_both_sides (a b : SchemaModel.t)
    (change : TableChange.t) (entry : ChangeEnvelope.t ColumnChange.t)
    (direction : Direction) :
  In change (Buckets.changed (DiffResult.tables (computeDiff a b))) ->
  In entry (TableChange.columnChanges change) ->
  (exists c, In c (Table.columns (TableChange.sourceTable change))
             /\ Column.name c = ChangeEnvelope.name entry)
  /\ (exists c, In c (Table.columns (TableChange.table change))
                /\ Column.name c = ChangeEnvelope.name entry)
  /\ exists desiredColumn,
       let plan := buildTablePlan change direction in
       find_column (ChangeEnvelope.name entry)
                   (Table.columns (TableChangePlan.desired plan))
       = Some desiredColumn
       /\ Column.name desiredColumn = ChangeEnvelope.name entry
       /\ alter_column (TableChangePlan.desired plan)
                       (TableChangePlan.table plan) entry
          = {| Alteration.column := Some desiredColumn;
               Alteration.change :=
                 alter_statements (ChangeEnvelope.name entry)
                                  (ChangeEnvelope.change entry) desiredColumn |}
       /\ In (alter_column (TableChangePlan.desired plan)
                           (TableChangePlan.table plan) entry)
             (TableChangePlan.alterColumns plan).
Proof.
  intros Hchange Hentry. pose proof Hentry as Hentry0.
  apply diffTables_changed in Hchange as (table & cp & _ & _ & Hd).
  apply diffTable_Some in Hd as (Ht & Hs & Hcc).
  rewrite Hcc in Hentry. unfold compareColumns in Hentry.
  apply compare_by_name_changed in Hentry as (s & t & Hs_in & Hg & _ & Hn).
  apply name_map_get in Hg as [Htn Ht_in].
  assert (Hsrc : exists c, In c (Table.columns (TableChange.sourceTable change))
                           /\ Column.name c = ChangeEnvelope.name entry).
  { exists s. rewrite Hs. auto. }
  assert (Htgt : exists c, In c (Table.columns (TableChange.table change))
                           /\ Column.name c = ChangeEnvelope.name entry).
  { exists t. rewrite Ht. split; [exact Ht_in | congruence]. }
  split; [exact Hsrc|]. split; [exact Htgt|].
  assert (Hdes : exists c,
             In c (Table.columns
                     (TableChangePlan.desired (buildTablePlan change direction)))
             /\ Column.name c = ChangeEnvelope.name entry).
  { destruct direction; cbn; assumption. }
  apply find_column_Some in Hdes as (col & Hf & Hcn).
  exists col. cbv zeta. split; [exact Hf|]. split; [exact Hcn|]. split.
  - unfold alter_column. rewrite Hf. reflexivity.
  - unfold buildTablePlan at 3. cbn [TableChangePlan.alterColumns].
    destruct direction; cbn [is_AtoB];
      apply (in_map (alter_column _ _)), Hentry0.
Qed.

Lemma columnChanges_name_both_sides_witness :
  In email_nullable_change
     (Buckets.changed
        (DiffResult.tables (computeDiff (model_of_table email_not_null)
                                        (model_of_table email_nullable))))
  /\ In email_nullable_entry (TableChange.columnChanges email_nullable_change)
  /\ (exists c, In c (Table.columns (TableChange.sourceTable email_nullable_change))
                /\ Column.name c = ChangeEnvelope.name email_nullable_entry)
  /\ (exists c, In c (Table.columns (TableChange.table email_nullable_change))
                /\ Column.name c = ChangeEnvelope.name email_nullable_entry)
  /\ exists desiredColumn,
       let plan := buildTablePlan email_nullable_change AtoB in
       find_column (ChangeEnvelope.name email_nullable_entry)
                   (Table.columns (TableChangePlan.desired plan))
       = Some desiredColumn
       /\ Column.name desiredColumn = ChangeEnvelope.name email_nullable_entry
       /\ alter_column (TableChangePlan.desired plan)
                       (TableChangePlan.table plan) email_nullable_entry
          = {| Alteration.column := Some desiredColumn;
               Alteration.change :=
                 alter_statements (ChangeEnvelope.name email_nullable_entry)
                                  (ChangeEnvelope.change email_nullable_entry)
                                  desiredColumn |}
       /\ In (alter_column (TableChangePlan.desired plan)
                           (TableChangePlan.table plan) email_nullable_entry)
             (TableChangePlan.alterColumns plan).
Proof.
  assert (H1 : In email_nullable_change
                 (Buckets.changed
                    (DiffResult.tables
                       (computeDiff (model_of_table email_not_null)
                                    (model_of_table email_nullable)))))
    by (vm_compute; left; reflexivity).
  assert (H2 : In email_nullable_entry
                 (TableChange.columnChanges email_nullable_change))
    by (simpl; left; reflexivity).
  split; [exact H1|]. split; [exact H2|].
  exact (columnChanges_name_both_sides _ _ _ _ AtoB H1 H2).
Defined.

(** ** Trigger change detection *)

Lemma app_sep_inj (c : ascii) (x1 x2 r1 r2 : jsstring) :
  ~ In c x1 -> ~ In c x2 -> x1 ++ c :: r1 = x2 ++ c :: r2 ->
  x1 = x2 /\ r1 = r2.
Proof.
  revert x2. induction x1 as [|a x1 IH]; intros [|b x2] H1 H2 H; simpl in *.
  - injection H as ->. auto.
  - injection H as -> _. exfalso. apply H2. now left.
  - injection H as -> _. exfalso. apply H1. now left.
  - injection H as -> H.
    destruct (IH x2) as [-> ->]; auto.
Qed.

Lemma Timing_str_no_LF t : ~ In LF (Timing_str t).
Proof.
  destruct t; vm_compute; intros H;
    repeat (destruct H as [H|H]; [discriminate H|]); exact H.
Qed.

Lemma Timing_str_inj t1 t2 : Timing_str t1 = Timing_str t2 -> t1 = t2.
Proof. destruct t1, t2; intros H; try reflexivity; discriminate H. Qed.

Lemma Event_str_no_LF e : ~ In LF (Event_str e).
Proof.
  destruct e; vm_compute; intros H;
    repeat (destruct H as [H|H]; [discriminate H|]); exact H.
Qed.

Lemma events_str_cons e e' l :
  events_str (e :: e' :: l) = Event_str e ++ str "," ++ events_str (e' :: l).
Proof. reflexivity. Qed.

Lemma events_str_no_LF l : ~ In LF (events_str l).
Proof.
  induction l as [|e l IH]; [intros []|].
  destruct l as [|e' l].
  - apply Event_str_no_LF.
  - rewrite events_str_cons. intros H.
    apply in_app_or in H as [H|H]; [exact (Event_str_no_LF e H)|].
    apply in_app_or in H as [H|H]; [|exact (IH H)].
    destruct H as [H|[]]. discriminate H.
Qed.

Lemma events_str_inj l1 l2 : events_str l1 = events_str l2 -> l1 = l2.
Proof.
  revert l2. induction l1 as [|e1 l1 IH]; intros [|e2 l2] H.
  - reflexivity.
  - destruct l2; [|rewrite events_str_cons in H]; destruct e2; discriminate H.
  - destruct l1; [|rewrite events_str_cons in H]; destruct e1; discriminate H.
  - destruct l1 as [|e1' l1], l2 as [|e2' l2];
      rewrite ?events_str_cons in H.
    + destruct e1, e2; try reflexivity; discriminate H.
    + destruct e1, e2; discriminate H.
    + destruct e1, e2; discriminate H.
    + destruct e1, e2; try discriminate H;
        (f_equal; apply IH;
         cbn [Event_str str list_ascii_of_string app] in H;
         injection H as H; exact H).
Qed.

Lemma trigger_value_eq_iff (ta tb : Trigger.t) :
  trigger_value ta = trigger_value tb
  <-> Trigger.timing ta = Trigger.timing tb
      /\ events_str (Trigger.events ta) = events_str (Trigger.events tb)
      /\ Trigger.definition ta = Trigger.definition tb.
Proof.
  unfold trigger_value. fold (events_str (Trigger.events ta)).
  fold (events_str (Trigger.events tb)). cbn [join].
  split.
  - intros H. cbn [app] in H.
    apply app_sep_inj in H as [H1 H]; try apply Timing_str_no_LF.
    apply app_sep_inj in H as [H2 H3]; try apply events_str_no_LF.
    auto using Timing_str_inj.
  - intros (-> & -> & ->). reflexivity.
Qed.

(** The entries of [changed] that [diffCollection] returns. *)
Lemma diffCollection_changed {T} (keyFn valueFn : T -> jsstring)
    (source target : list T) (k : jsstring) :
  (exists e, In e (Buckets.changed (diffCollection keyFn valueFn source target))
             /\ ChangeEnvelope.name e = k)
  <-> exists v tv,
        JsMap.get k (key_map keyFn source) = Some v
        /\ JsMap.get k (key_map keyFn target) = Some tv
        /\ valueFn v <> valueFn tv.
Proof.
  unfold diffCollection. cbn [Buckets.changed]. split.
  - intros (e & He & <-).
    apply sortBy_In, list_elem_of_In, list_elem_of_omap in He
      as ([k v] & Hin & H).
    apply list_elem_of_In, JsMapFacts.key_map_entry in Hin. cbn [fst snd] in H.
    destruct (JsMap.get k (key_map keyFn target)) as [tv|] eqn:Eg;
      [|discriminate].
    case_bool_decide; [discriminate|]. injection H as <-.
    exists v, tv. auto.
  - intros (v & tv & Hs & Ht & Hne).
    exists (ChangeEnvelope.mk k (Change.mk (valueFn v) (valueFn tv))).
    split; [|reflexivity].
    apply sortBy_In, list_elem_of_In, list_elem_of_omap.
    exists (k, v). split.
    + apply list_elem_of_In, JsMapFacts.key_map_entry, Hs.
    + cbn [fst snd]. rewrite Ht. rewrite bool_decide_eq_false_2 by exact Hne.
      reflexivity.
Qed.

(** C10.  For the triggers [ta] and [tb] the two sides hold under the same
    key, [computeDiff] lists the key as changed exactly when the timings, the
    event lists joined in stored order, or the definitions differ; the
    comparison is sensitive to the order of the events, so any two different
    event lists, permutations of one another included, are reported as
    changed. *)
Theorem trigger_changed_iff (a b : SchemaModel.t) (k : jsstring)
    (ta tb : Trigger.t) :
  JsMap.get k (key_map trigger_key (SchemaModel.triggers a)) = Some ta ->
  JsMap.get k (key_map trigger_key (SchemaModel.triggers b)) = Some tb ->
  ((exists e, In e (Buckets.changed (DiffResult.triggers (computeDiff a b)))
              /\ ChangeEnvelope.name e = k)
   <-> Trigger.timing ta <> Trigger.timing tb
       \/ events_str (Trigger.events ta) <> events_str (Trigger.events tb)
       \/ Trigger.definition ta <> Trigger.definition tb)
  /\ (Trigger.events ta <> Trigger.events tb ->
      exists e, In e (Buckets.changed (DiffResult.triggers (computeDiff a b)))
                /\ ChangeEnvelope.name e = k).
Proof.
  intros Ha Hb. unfold computeDiff. cbn [DiffResult.triggers].
  assert (Hiff :
    (exists e, In e (Buckets.changed
                       (diffCollection trigger_key trigger_value
                          (SchemaModel.triggers a) (SchemaModel.triggers b)))
               /\ ChangeEnvelope.name e = k)
    <-> trigger_value ta <> trigger_value tb).
  { rewrite diffCollection_changed. split.
    - intros (v & tv & Hv & Htv & Hne). congruence.
    - intros Hne. exists ta, tb. auto. }
  split.
  - rewrite Hiff, trigger_value_eq_iff.
    destruct (decide (Trigger.timing ta = Trigger.timing tb));
      destruct (decide (events_str (Trigger.events ta)
                        = events_str (Trigger.events tb)));
      destruct (decide (Trigger.definition ta = Trigger.definition tb));
      tauto.
  - intros Hne. apply Hiff. rewrite trigger_value_eq_iff.
    intros (_ & He & _). apply Hne, events_str_inj, He.
Qed.

Lemma trigger_changed_iff_witness :
  JsMap.get (str "users.audit")
            (key_map trigger_key
               (SchemaModel.triggers
                  (model_of_trigger (audit_trigger [insert; update]))))
  = Some (audit_trigger [insert; update])
  /\ JsMap.get (str "users.audit")
               (key_map trigger_key
                  (SchemaModel.triggers
                     (model_of_trigger (audit_trigger [update; insert]))))
     = Some (audit_trigger [update; insert])
  /\ exists e,
       In e (Buckets.changed
               (DiffResult.triggers
                  (computeDiff (model_of_trigger (audit_trigger [insert; update]))
                               (model_of_trigger (audit_trigger [update; insert])))))
       /\ ChangeEnvelope.name e = str "users.audit".
Proof.
  split; [vm_compute; reflexivity|]. split; [vm_compute; reflexivity|].
  apply (trigger_changed_iff
           (model_of_trigger (audit_trigger [insert; update]))
           (model_of_trigger (audit_trigger [update; insert]))
           (str "users.audit")
           (audit_trigger [insert; update]) (audit_trigger [update; insert])).
  - vm_compute. reflexivity.
  - vm_compute. reflexivity.
  - simpl. discriminate.
Defined.

(** ** The generators: shape of the script *)

Lemma forEach_app {A} (body : list jsstring -> A -> list jsstring)
    (g : A -> list jsstring) (items : list A) (lines : list jsstring) :
  (forall ls x, body ls x = ls ++ g x) ->
  forEach items body lines = lines ++ flat_map g items.
Proof.
  intros H. unfold forEach. revert lines.
  induction items as [|x items IH]; intros lines; simpl.
  - rewrite app_nil_r. reflexivity.
  - rewrite IH, H, <- app_assoc. reflexivity.
Qed.

Lemma flat_map_singleton {A B} (f : A -> B) (l : list A) :
  flat_map (fun x => [f x]) l = map f l.
Proof. induction l as [|x l IH]; simpl; [|rewrite IH]; reflexivity. Qed.

Lemma forEach_push {A} (f : A -> jsstring) (items : list A)
    (lines : list jsstring) :
  forEach items (fun lines x => push lines (f x)) lines = lines ++ map f items.
Proof.
  rewrite (forEach_app _ (fun x => [f x])) by reflexivity.
  rewrite flat_map_singleton. reflexivity.
Qed.

Lemma render_table_plan_flat dialect opts lines plan :
  render_table_plan dialect opts lines plan
  = lines ++ plan_lines dialect opts plan.
Proof.
  unfold render_table_plan, plan_lines, plan_table_name.
  rewrite !forEach_push.
  rewrite (forEach_app _
             (fun alteration =>
                map (alter_stmt (quote_for dialect
                                   (Table.name (TableChangePlan.table plan))))
                    (Alteration.change alteration)))
    by (intros; apply forEach_push).
  rewrite <- !app_assoc. reflexivity.
Qed.

Lemma renderViewChanges_flat diff opts lines dialect :
  renderViewChanges diff opts lines dialect
  = lines ++ view_lines dialect diff opts.
Proof.
  unfold renderViewChanges, view_lines. rewrite !forEach_push.
  rewrite <- !app_assoc. reflexivity.
Qed.

Lemma renderRoutineChanges_flat diff opts lines dialect :
  renderRoutineChanges diff opts lines dialect
  = lines ++ routine_lines dialect diff opts.
Proof.
  unfold renderRoutineChanges, routine_lines. rewrite !forEach_push.
  rewrite (forEach_app _
             (fun routine =>
                [routine_header routine; trim (Routine.definition routine)])).
  - rewrite <- !app_assoc. reflexivity.
  - intros ls x. unfold push. rewrite <- app_assoc. reflexivity.
Qed.

Lemma renderTriggerChanges_flat diff opts lines dialect :
  renderTriggerChanges diff opts lines dialect
  = lines ++ trigger_lines dialect diff opts.
Proof.
  unfold renderTriggerChanges, trigger_lines. rewrite !forEach_push.
  rewrite (forEach_app _
             (fun trigger =>
                [trigger_header trigger; trim (Trigger.definition trigger)])).
  - rewrite <- !app_assoc. reflexivity.
  - intros ls x. unfold push. rewrite <- app_assoc. reflexivity.
Qed.

Lemma script_lines_flat dialect diff opts :
  script_lines dialect diff opts
  = opener_lines dialect opts
    ++ (if GenOptions.safeMode opts
           && nonempty (Plan.toDrop (planTables diff opts))
        then [SAFE_MODE_BANNER] else [])
    ++ body_lines dialect diff opts
    ++ commit_lines opts.
Proof.
  unfold script_lines, body_lines, opener_lines, commit_lines.
  rewrite renderTriggerChanges_flat, renderRoutineChanges_flat,
    renderViewChanges_flat.
  rewrite (forEach_app _ (plan_lines dialect opts))
    by (intros; apply render_table_plan_flat).
  rewrite !forEach_push. unfold push.
  destruct (GenOptions.withTransaction opts);
    destruct (GenOptions.safeMode opts
              && nonempty (Plan.toDrop (planTables diff opts)));
    cbn [app]; rewrite <- ?app_assoc, ?app_nil_r; reflexivity.
Qed.

Lemma statements_app l1 l2 : statements (l1 ++ l2) = statements l1 ++ statements l2.
Proof. unfold statements. apply List.filter_app. Qed.

Lemma statements_In line lines :
  In line (statements lines)
  <-> In line lines /\ (0 <? List.length (trim line)) = true.
Proof. unfold statements. apply filter_In. Qed.

(** A line that starts with a visible character survives the filter. *)
Lemma visible_statement c s lines :
  is_space c = false -> In (c :: s) lines -> In (c :: s) (statements lines).
Proof.
  intros Hc Hin. apply statements_In. split; [exact Hin|].
  destruct (trim_cons_not_space c s Hc) as [r ->]. reflexivity.
Qed.

Lemma guard_drop_visible opts c s lines :
  is_space c = false ->
  In (guard_drop opts (c :: s)) lines ->
  In (guard_drop opts (c :: s)) (statements lines).
Proof.
  unfold guard_drop. destruct (GenOptions.safeMode opts); intros Hc.
  - apply (visible_statement "-"%char). reflexivity.
  - apply visible_statement, Hc.
Qed.

Lemma visible_trim line : visible line = true -> (0 <? List.length (trim line)) = true.
Proof.
  destruct line as [|c s]; [discriminate|]. simpl. intros H.
  apply negb_true_iff in H.
  destruct (trim_cons_not_space c s H) as [r ->]. reflexivity.
Qed.


Lemma guard_drop_visible_b opts drop :
  visible drop = true -> visible (guard_drop opts drop) = true.
Proof.
  unfold guard_drop. destruct (GenOptions.safeMode opts); [reflexivity|auto].
Qed.




Lemma drop_view_stmt_visible dialect opts view :
  visible (drop_view_stmt dialect opts view) = true.
Proof. reflexivity. Qed.

Lemma drop_routine_stmt_visible dialect opts routine :
  visible (drop_routine_stmt dialect opts routine) = true.
Proof. reflexivity. Qed.

Lemma drop_trigger_stmt_visible dialect opts trigger :
  visible (drop_trigger_stmt dialect opts trigger) = true.
Proof. reflexivity. Qed.




(** Where the statements of one changed table sit in the script. *)
Lemma plan_line_in_body dialect diff opts change line :
  In change (Buckets.changed (DiffResult.tables diff)) ->
  In line (plan_lines dialect opts
             (buildTablePlan change (GenOptions.direction opts))) ->
  In line (body_lines dialect diff opts).
Proof.
  intros Hc Hl. unfold body_lines.
  apply in_or_app. right. apply in_or_app. right. apply in_or_app. left.
  apply in_flat_map. exists (buildTablePlan change (GenOptions.direction opts)).
  split; [|exact Hl]. unfold planTables. cbn [Plan.tablePlans].
  apply (in_map (fun change => buildTablePlan change (GenOptions.direction opts))),
    Hc.
Qed.


Lemma emitted_included_postgres EOL diff opts stmt :
  emits postgres diff opts stmt ->
  includes stmt (toPostgres EOL diff opts) = true.
Proof. apply includes_join. Qed.

Lemma emitted_included_mariadb EOL diff opts stmt :
  emits mariadb diff opts stmt ->
  includes stmt (toMariaDB EOL diff opts) = true.
Proof. apply includes_join. Qed.

Lemma join_two (sep a b : jsstring) (l : list jsstring) :
  join sep (a :: b :: l) = a ++ sep ++ join sep (b :: l).
Proof. reflexivity. Qed.




(** ** The generators: safe mode *)

Lemma map_flat_map {A B C} (h : B -> C) (g : A -> list B) (l : list A) :
  map h (flat_map g l) = flat_map (fun a => map h (g a)) l.
Proof.
  induction l as [|a l IH]; simpl; [reflexivity|].
  rewrite map_app, IH. reflexivity.
Qed.

Lemma plan_lines_tagged dialect opts plan :
  plan_lines dialect opts plan
  = map (render_tagged opts) (plan_tagged dialect opts plan).
Proof.
  unfold plan_lines, plan_tagged. rewrite !map_app, !map_map, map_flat_map.
  rewrite (flat_map_ext
             (fun a => map (render_tagged opts)
                           (map (fun ddl =>
                                   constructive
                                     (alter_stmt (plan_table_name dialect plan)
                                                 ddl))
                                (Alteration.change a)))
             (fun a => map (alter_stmt (plan_table_name dialect plan))
                           (Alteration.change a)))
    by (intros a; rewrite map_map; reflexivity).
  reflexivity.
Qed.

Lemma body_lines_tagged dialect diff opts :
  body_lines dialect diff opts
  = map (render_tagged opts) (body_tagged dialect diff opts).
Proof.
  unfold body_lines, body_tagged, view_lines, routine_lines, trigger_lines.
  rewrite !map_app, !map_map, !map_flat_map.
  rewrite (flat_map_ext
             (fun a => map (render_tagged opts) (plan_tagged dialect opts a))
             (plan_lines dialect opts))
    by (intros a; symmetry; apply plan_lines_tagged).
  reflexivity.
Qed.

Lemma drop_statement_visible dialect diff opts drop :
  In drop (drop_statements dialect diff opts) -> visible drop = true.
Proof.
  unfold drop_statements. intros Hin.
  apply in_map_iff in Hin as ([tag text] & <- & Hin).
  apply filter_In in Hin as [Hin Htag]. cbn [fst snd] in *. subst tag.
  unfold body_tagged in Hin.
  repeat (apply in_app_or in Hin as [Hin|Hin]);
    try (apply in_map_iff in Hin as (x & [= <-] & _); clear;
         first [ reflexivity | destruct dialect; reflexivity ]);
    try (apply in_map_iff in Hin as (x & [=] & _); fail);
    try (apply in_flat_map in Hin as (x & _ & [[=]|[[=]|[]]]); fail).
  apply in_flat_map in Hin as (plan & _ & Hin). unfold plan_tagged in Hin.
  repeat (apply in_app_or in Hin as [Hin|Hin]);
    try (apply in_map_iff in Hin as (x & [= <-] & _); clear;
         destruct dialect; reflexivity);
    try (apply in_map_iff in Hin as (x & [=] & _); fail).
  apply in_flat_map in Hin as (x & _ & Hin).
  apply in_map_iff in Hin as (y & [=] & _).
Qed.

Lemma drop_statement_in_body dialect diff opts drop :
  In drop (drop_statements dialect diff opts) ->
  In (guard_drop opts drop) (statements (body_lines dialect diff opts)).
Proof.
  intros Hin. apply statements_In. split.
  - rewrite body_lines_tagged. unfold drop_statements in Hin.
    apply in_map_iff in Hin as ([tag text] & <- & Hin).
    apply filter_In in Hin as [Hin Htag]. cbn [fst snd] in *. subst tag.
    apply (in_map (render_tagged opts)) in Hin. exact Hin.
  - apply visible_trim, guard_drop_visible_b,
      (drop_statement_visible dialect diff opts), Hin.
Qed.

(** The destructive statements, spelled out: the table drops, per changed
    table its column drops and index drops, then the view, routine and
    trigger drops. *)
Lemma tagged_destructive {A} (f : A -> jsstring) (l : list A) :
  map snd (List.filter fst (map (fun x => destructive (f x)) l)) = map f l.
Proof. induction l as [|x l IH]; simpl; [|rewrite IH]; reflexivity. Qed.

Lemma tagged_constructive {A} (f : A -> jsstring) (l : list A) :
  map snd (List.filter fst (map (fun x => constructive (f x)) l)) = [].
Proof. induction l as [|x l IH]; simpl; [reflexivity | exact IH]. Qed.

Lemma tagged_constructive_pairs {A} (f g : A -> jsstring) (l : list A) :
  map snd (List.filter fst
             (flat_map (fun x => [constructive (f x); constructive (g x)]) l))
  = [].
Proof. induction l as [|x l IH]; simpl; [reflexivity | exact IH]. Qed.

Lemma tagged_flat_map {A} (g : A -> list (bool * jsstring)) (l : list A) :
  map snd (List.filter fst (flat_map g l))
  = flat_map (fun x => map snd (List.filter fst (g x))) l.
Proof.
  induction l as [|x l IH]; simpl; [reflexivity|].
  rewrite List.filter_app, map_app, IH. reflexivity.
Qed.

Lemma plan_drops_eq dialect opts plan :
  map snd (List.filter fst (plan_tagged dialect opts plan))
  = map (drop_column_stmt dialect opts (plan_table_name dialect plan))
        (TableChangePlan.dropColumns plan)
    ++ map (drop_index_stmt dialect opts (plan_table_name dialect plan))
           (TableChangePlan.dropIndexes plan).
Proof.
  unfold plan_tagged. rewrite !List.filter_app, !map_app.
  rewrite !tagged_destructive, !tagged_constructive, tagged_flat_map.
  rewrite (flat_map_ext _ (fun _ => [])) by (intros a; apply tagged_constructive).
  assert (H : forall (l : list Alteration.t),
             flat_map (fun _ => @nil jsstring) l = [])
    by (induction l; simpl; auto).
  rewrite H. rewrite app_nil_r. reflexivity.
Qed.

Lemma drop_statements_eq dialect diff opts :
  drop_statements dialect diff opts
  = map (drop_table_stmt dialect opts) (Plan.toDrop (planTables diff opts))
    ++ flat_map
         (fun plan =>
            map (drop_column_stmt dialect opts (plan_table_name dialect plan))
                (TableChangePlan.dropColumns plan)
            ++ map (drop_index_stmt dialect opts (plan_table_name dialect plan))
                   (TableChangePlan.dropIndexes plan))
         (Plan.tablePlans (planTables diff opts))
    ++ map (drop_view_stmt dialect opts) (drop_views diff opts)
    ++ map (drop_routine_stmt dialect opts) (drop_routines diff opts)
    ++ map (drop_trigger_stmt dialect opts) (drop_triggers diff opts).
Proof.
  unfold drop_statements, body_tagged. rewrite !List.filter_app, !map_app.
  rewrite !tagged_destructive, !tagged_constructive,
    !tagged_constructive_pairs, tagged_flat_map.
  rewrite (flat_map_ext _ _ (plan_drops_eq dialect opts)).
  rewrite ?app_nil_r. cbn [app]. reflexivity.
Qed.

(** *** The safe-mode layout *)

Lemma guard_drop_safe opts drop :
  GenOptions.safeMode opts = true -> guard_drop opts drop = str "-- " ++ drop.
Proof. intros H. unfold guard_drop. rewrite H. reflexivity. Qed.

Lemma app_eq2 {A} (a b c d : list A) : a = c -> b = d -> a ++ b = c ++ d.
Proof. intros -> ->. reflexivity. Qed.

Lemma safe_mode_plan_lines dialect opts change :
  GenOptions.safeMode opts = true ->
  plan_lines dialect opts (buildTablePlan change (GenOptions.direction opts))
  = safe_mode_table_change dialect opts change.
Proof.
  intros Hsafe. unfold plan_lines, safe_mode_table_change, plan_table_name.
  cbv zeta.
  unfold buildTablePlan at 1 2 3 4 5 7 8.
  cbn [TableChangePlan.table TableChangePlan.dropColumns
       TableChangePlan.addColumns TableChangePlan.dropIndexes
       TableChangePlan.createIndexes].
  repeat apply app_eq2.
  - apply map_ext. intros column. rewrite (guard_drop_safe _ _ Hsafe).
    destruct dialect; reflexivity.
  - apply map_ext. intros column. destruct dialect; reflexivity.
  - destruct dialect; reflexivity.
  - apply map_ext. intros index. rewrite (guard_drop_safe _ _ Hsafe).
    destruct dialect; reflexivity.
  - apply map_ext. intros index. destruct dialect; reflexivity.
Qed.

Lemma safe_mode_body_lines dialect diff opts :
  GenOptions.safeMode opts = true ->
  body_lines dialect diff opts = safe_mode_body dialect diff opts.
Proof.
  intros Hsafe.
  unfold safe_mode_body, body_lines, view_lines, routine_lines,
    trigger_lines, planTables, drop_views,
    create_views, drop_routines, create_routines, drop_triggers,
    create_triggers.
  cbv zeta. cbn [Plan.toDrop Plan.toCreate Plan.tablePlans].
  rewrite <- !app_assoc.
  repeat apply app_eq2.
  - apply map_ext. intros table. rewrite (guard_drop_safe _ _ Hsafe).
    destruct dialect; reflexivity.
  - apply map_ext. intros table. destruct dialect; reflexivity.
  - rewrite flat_map_concat_map, map_map, <- flat_map_concat_map.
    apply flat_map_ext. intros change. apply safe_mode_plan_lines, Hsafe.
  - apply map_ext. intros view. rewrite (guard_drop_safe _ _ Hsafe).
    destruct dialect; reflexivity.
  - apply map_ext. intros view. destruct dialect; reflexivity.
  - reflexivity.
  - apply map_ext. intros routine. rewrite (guard_drop_safe _ _ Hsafe).
    unfold drop_routine_stmt. destruct (Routine.kind routine), dialect; reflexivity.
  - reflexivity.
  - reflexivity.
  - apply map_ext. intros trigger. rewrite (guard_drop_safe _ _ Hsafe).
    destruct dialect; reflexivity.
  - reflexivity.
  - reflexivity.
Qed.

Lemma safe_mode_script_lines dialect diff opts :
  GenOptions.safeMode opts = true ->
  script_lines dialect diff opts = safe_mode_script dialect diff opts.
Proof.
  intros Hsafe. rewrite script_lines_flat, Hsafe. cbn [andb].
  rewrite (safe_mode_body_lines _ _ _ Hsafe).
  unfold safe_mode_script, opener_lines, commit_lines, planTables.
  cbv zeta. cbn [Plan.toDrop].
  repeat apply app_eq2; reflexivity.
Qed.

(** *** Lines that begin with [DROP ] *)

(** ** Lines of a text *)

Lemma split_nonempty c s : split c s <> [].
Proof.
  destruct s as [|x s]; cbn [split]; [discriminate|].
  destruct (Ascii.eqb x c); [discriminate|].
  destruct (split c s); discriminate.
Qed.

Lemma split_app_sep c a b : split c (a ++ c :: b) = split c a ++ split c b.
Proof.
  induction a as [|x a IH]; cbn [app split].
  - rewrite Ascii.eqb_refl. reflexivity.
  - rewrite IH. destruct (Ascii.eqb x c); [reflexivity|].
    destruct (split c a) as [|w ws] eqn:E; [|reflexivity].
    exfalso. exact (split_nonempty _ _ E).
Qed.

Lemma split_single c s :
  forallb (fun x => negb (Ascii.eqb x c)) s = true -> split c s = [s].
Proof.
  induction s as [|x s IH]; cbn [forallb split]; [reflexivity|].
  intros H. apply andb_true_iff in H as [Hx Hs].
  apply negb_true_iff in Hx. rewrite Hx, (IH Hs). reflexivity.
Qed.

(** Appending a character other than the separator: the last piece grows,
    whatever holds of the first piece and of the others under such growth
    still holds. *)
Lemma split_snoc (P0 P : jsstring -> Prop) c sep a :
  Ascii.eqb c sep = false ->
  (forall l, P l -> P (l ++ [c])) ->
  (forall l, P0 l -> P0 (l ++ [c])) ->
  match split sep a with [] => True | w :: ws => P0 w /\ Forall P ws end ->
  match split sep (a ++ [c]) with
  | [] => True
  | w :: ws => P0 w /\ Forall P ws
  end.
Proof.
  intros Hc HP. revert P0.
  induction a as [|x a IH]; intros P0 HP0; cbn [app split].
  - rewrite Hc. intros [H _]. split; [exact (HP0 [] H) | constructor].
  - destruct (Ascii.eqb x sep).
    + intros [H0 H]. split; [exact H0|].
      specialize (IH P HP).
      destruct (split sep a) as [|w ws] eqn:E; [destruct (split_nonempty _ _ E)|].
      apply Forall_cons in H as [Hw Hws].
      destruct (split sep (a ++ [c])) as [|w2 ws2];
        [constructor|].
      destruct (IH (conj Hw Hws)) as [H1 H2]. constructor; assumption.
    + specialize (IH (fun l => P0 (x :: l)) (fun l => HP0 (x :: l))).
      destruct (split sep a) as [|w ws] eqn:E; [destruct (split_nonempty _ _ E)|].
      intros H. specialize (IH H).
      destruct (split sep (a ++ [c])) as [|w2 ws2] eqn:E2;
        [destruct (split_nonempty _ _ E2) | exact IH].
Qed.

Lemma startsWith_snoc_false p l c :
  ~ In c p -> startsWith p l = false -> startsWith p (l ++ [c]) = false.
Proof.
  revert l. induction p as [|y p IH]; intros l Hc; [discriminate|].
  destruct l as [|x l]; cbn [app startsWith].
  - intros _. destruct (Ascii.eqb y c) eqn:E; [|reflexivity].
    apply Ascii.eqb_eq in E. subst y. exfalso. apply Hc. now left.
  - destruct (Ascii.eqb y x); [|reflexivity].
    apply IH. intros H. apply Hc. now right.
Qed.

Lemma drop_line_free_Forall s :
  drop_line_free s = true
  <-> Forall (fun line => startsWith (str "DROP ") line = false) (split LF s).
Proof.
  unfold drop_line_free. rewrite forallb_forall, List.Forall_forall.
  split; intros H line Hin; specialize (H line Hin).
  - apply negb_true_iff, H.
  - apply negb_true_iff, H.
Qed.

Lemma drop_line_free_app_LF a b :
  drop_line_free a = true -> drop_line_free b = true ->
  drop_line_free (a ++ LF :: b) = true.
Proof.
  unfold drop_line_free. rewrite split_app_sep, forallb_app.
  intros -> ->. reflexivity.
Qed.

Lemma drop_line_free_snoc a c :
  Ascii.eqb c LF = false -> ~ In c (str "DROP ") ->
  drop_line_free a = true -> drop_line_free (a ++ [c]) = true.
Proof.
  intros Hc Hp. rewrite !drop_line_free_Forall. intros H.
  pose proof (split_snoc (fun l => startsWith (str "DROP ") l = false)
                (fun l => startsWith (str "DROP ") l = false) c LF a Hc
                (fun l => startsWith_snoc_false _ l c Hp)
                (fun l => startsWith_snoc_false _ l c Hp)) as Hs.
  destruct (split LF a) as [|w ws]; [|apply Forall_cons in H];
    destruct (split LF (a ++ [c])) as [|w2 ws2]; try constructor;
    try (apply Hs; exact H); try (apply Hs; exact I).
Qed.

(** A text on one line that does not begin with [D]. *)
Lemma drop_line_free_single c s :
  Ascii.eqb c "D" = false -> single_line (c :: s) = true ->
  drop_line_free (c :: s) = true.
Proof.
  intros Hc Hs. unfold drop_line_free. rewrite (split_single LF _ Hs).
  cbn [forallb startsWith str list_ascii_of_string].
  rewrite Ascii.eqb_sym, Hc. reflexivity.
Qed.

(** The script: statements joined by blank lines. *)
Lemma drop_line_free_join EOL l :
  EOL = [LF] \/ EOL = [CR; LF] ->
  Forall (fun s => drop_line_free s = true) l ->
  drop_line_free (join (EOL ++ EOL) l) = true.
Proof.
  intros HE H. induction H as [|x l Hx Hl IH]; [reflexivity|].
  destruct l as [|y l]; [exact Hx|].
  change (join (EOL ++ EOL) (x :: y :: l))
    with (x ++ (EOL ++ EOL) ++ join (EOL ++ EOL) (y :: l)).
  destruct HE as [->| ->].
  - change (x ++ ([LF] ++ [LF]) ++ join ([LF] ++ [LF]) (y :: l))
      with (x ++ LF :: ([] ++ LF :: join ([LF] ++ [LF]) (y :: l))).
    apply drop_line_free_app_LF; [exact Hx|].
    apply drop_line_free_app_LF; [reflexivity | exact IH].
  - change (x ++ ([CR; LF] ++ [CR; LF]) ++ join ([CR; LF] ++ [CR; LF]) (y :: l))
      with (x ++ [CR] ++ LF :: ([CR] ++ LF
                                 :: join ([CR; LF] ++ [CR; LF]) (y :: l))).
    rewrite app_assoc. apply drop_line_free_app_LF.
    + apply drop_line_free_snoc; [reflexivity | | exact Hx].
      vm_compute. intuition discriminate.
    + apply drop_line_free_app_LF; [reflexivity | exact IH].
Qed.

Lemma statements_Forall (P : jsstring -> Prop) lines :
  Forall P lines -> Forall P (statements lines).
Proof.
  intros H. apply List.Forall_forall. intros x Hx.
  apply statements_In in Hx as [Hx _].
  exact (proj1 (List.Forall_forall _ _) H x Hx).
Qed.

(** ** Texts on one line *)

Lemma single_line_app a b :
  single_line a = true -> single_line b = true -> single_line (a ++ b) = true.
Proof. unfold single_line. rewrite forallb_app. intros -> ->. reflexivity. Qed.

Lemma single_line_replaceAll c r s :
  single_line r = true -> single_line s = true ->
  single_line (replaceAll c r s) = true.
Proof.
  intros Hr. unfold replaceAll.
  induction s as [|x s IH]; cbn [flat_map]; [reflexivity|].
  intros H. change (single_line (x :: s)) with
    (negb (Ascii.eqb x LF) && single_line s) in H.
  apply andb_true_iff in H as [Hx Hs].
  apply single_line_app; [|exact (IH Hs)].
  destruct (Ascii.eqb x c); [exact Hr|].
  unfold single_line. cbn [forallb]. rewrite Hx. reflexivity.
Qed.

Lemma single_line_quoteIdent s :
  single_line s = true -> single_line (quoteIdent s) = true.
Proof.
  intros H. unfold quoteIdent.
  apply single_line_app; [reflexivity|].
  apply single_line_app; [|reflexivity].
  apply single_line_replaceAll; [reflexivity | exact H].
Qed.

Lemma single_line_backtick s :
  single_line s = true -> single_line (backtick s) = true.
Proof.
  intros H. unfold backtick.
  apply single_line_app; [reflexivity|].
  apply single_line_app; [|reflexivity].
  apply single_line_replaceAll; [reflexivity | exact H].
Qed.

Lemma single_line_join sep parts :
  single_line sep = true -> forallb single_line parts = true ->
  single_line (join sep parts) = true.
Proof.
  intros Hsep. induction parts as [|p parts IH]; [reflexivity|].
  cbn [forallb]. intros H. apply andb_true_iff in H as [Hp Hps].
  destruct parts as [|q parts]; [exact Hp|].
  change (join sep (p :: q :: parts)) with (p ++ sep ++ join sep (q :: parts)).
  apply single_line_app; [exact Hp|].
  apply single_line_app; [exact Hsep | exact (IH Hps)].
Qed.

Lemma single_line_toUpperCase s :
  single_line s = true -> single_line (toUpperCase s) = true.
Proof.
  unfold single_line, toUpperCase. intros H.
  rewrite forallb_forall in *. intros c Hc.
  apply in_map_iff in Hc as (x & <- & Hx). specialize (H x Hx).
  revert H. clear. each_char x; intros H; first [reflexivity | discriminate H].
Qed.

Lemma single_line_uint d :
  single_line (str (DecimalString.NilEmpty.string_of_uint d)) = true.
Proof. induction d; cbn; auto. Qed.

Lemma single_line_nilzero d :
  single_line (str (DecimalString.NilZero.string_of_uint d)) = true.
Proof.
  unfold DecimalString.NilZero.string_of_uint.
  destruct d; try reflexivity; apply single_line_uint.
Qed.

Lemma single_line_number n : single_line (number_to_string n) = true.
Proof.
  unfold number_to_string, DecimalString.NilZero.string_of_int.
  destruct (Z.to_int n) as [d|d]; [apply single_line_nilzero|].
  change (single_line ("-"%char :: str (DecimalString.NilZero.string_of_uint d))
          = true).
  unfold single_line. cbn [forallb]. apply single_line_nilzero.
Qed.

Lemma single_line_cons c s :
  negb (Ascii.eqb c LF) = true -> single_line s = true ->
  single_line (c :: s) = true.
Proof. intros Hc Hs. cbn [single_line forallb]. now rewrite Hc. Qed.

Ltac one_line :=
  repeat match goal with
         | |- single_line (_ ++ _) = true => apply single_line_app
         | |- single_line (quoteIdent _) = true => apply single_line_quoteIdent
         | |- single_line (backtick _) = true => apply single_line_backtick
         | |- single_line (toUpperCase _) = true => apply single_line_toUpperCase
         | |- single_line (number_to_string _) = true => apply single_line_number
         | H : single_line ?s = true |- single_line ?s = true => exact H
         | |- single_line (str _) = true => reflexivity
         | |- single_line [] = true => reflexivity
         | |- single_line (?c :: ?s) = true =>
             first [reflexivity | apply (single_line_cons c s eq_refl)]
         | |- true = true => reflexivity
         end.

Lemma single_line_column_parts c :
  single_line_column c = true ->
  single_line (Column.name c) = true
  /\ single_line (Column.dataType c) = true
  /\ single_line_opt (Column.default c) = true
  /\ single_line_opt (Column.collation c) = true.
Proof.
  unfold single_line_column. rewrite !andb_true_iff. tauto.
Qed.

Lemma single_line_type_token dataType c :
  single_line dataType = true -> single_line (type_token dataType c) = true.
Proof.
  intros H. unfold type_token.
  destruct (Column.precisionScale c) as [[p s]|]; [one_line|].
  destruct (Column.length c) as [len|]; [|exact H].
  destruct (len =? 0)%Z; one_line.
Qed.

Lemma single_line_renderPostgresColumn c :
  single_line_column c = true -> single_line (renderPostgresColumn c) = true.
Proof.
  intros H. apply single_line_column_parts in H as (Hn & Ht & Hd & Hc).
  unfold renderPostgresColumn. apply single_line_join; [reflexivity|].
  pose proof (single_line_type_token _ c Ht) as Htt.
  destruct (Column.nullable c), (Column.default c) as [| |d],
    (Column.generated c) as [| |[]], (Column.collation c) as [| |k];
    try destruct (truthy k);
    cbn [negb app forallb single_line_opt] in *;
    repeat match goal with
           | |- (_ && _) = true => apply andb_true_intro; split
           end; one_line.
Qed.

Lemma single_line_renderMariaColumn c :
  single_line_column c = true -> single_line (renderMariaColumn c) = true.
Proof.
  intros H. apply single_line_column_parts in H as (Hn & Ht & Hd & Hc).
  unfold renderMariaColumn. apply single_line_join; [reflexivity|].
  pose proof (single_line_type_token _ c (single_line_toUpperCase _ Ht)) as Htt.
  destruct (Column.nullable c), (Column.default c) as [| |d],
    (Column.generated c) as [| |[]], (Column.collation c) as [| |k];
    try destruct (truthy k);
    cbn [negb app forallb single_line_opt] in *;
    repeat match goal with
           | |- (_ && _) = true => apply andb_true_intro; split
           end; one_line.
Qed.

Lemma forallb_map {A B} (f : B -> bool) (g : A -> B) (l : list A) :
  forallb f (map g l) = forallb (fun x => f (g x)) l.
Proof. induction l as [|x l IH]; cbn; [|rewrite IH]; reflexivity. Qed.

Lemma forallb_impl {A} (f g : A -> bool) (l : list A) :
  (forall x, f x = true -> g x = true) ->
  forallb f l = true -> forallb g l = true.
Proof.
  intros H. rewrite !forallb_forall. intros Hf x Hx. apply H, Hf, Hx.
Qed.

(** The column list of a [CREATE TABLE]: every line begins with two
    spaces. *)
Lemma drop_line_free_columns columns :
  forallb single_line columns = true ->
  drop_line_free (str "  " ++ join (str "," ++ [LF] ++ str "  ") columns) = true.
Proof.
  induction columns as [|c columns IH]; [reflexivity|].
  cbn [forallb]. intros H. apply andb_true_iff in H as [Hc Hcs].
  destruct columns as [|c' columns].
  - cbn [join]. apply (drop_line_free_single " "%char); [reflexivity|].
    change (single_line (str "  " ++ c) = true). one_line.
  - change (str "  " ++ join (str "," ++ [LF] ++ str "  ") (c :: c' :: columns))
      with ((str "  " ++ c ++ str ",") ++ LF
            :: (str "  " ++ join (str "," ++ [LF] ++ str "  ") (c' :: columns)))
      || (rewrite join_two;
          replace (str "  " ++ c ++ (str "," ++ [LF] ++ str "  ")
                   ++ join (str "," ++ [LF] ++ str "  ") (c' :: columns))
            with ((str "  " ++ c ++ str ",") ++ LF
                  :: (str "  "
                      ++ join (str "," ++ [LF] ++ str "  ") (c' :: columns)))
            by (rewrite <- !app_assoc; reflexivity)).
    apply drop_line_free_app_LF; [|exact (IH Hcs)].
    apply (drop_line_free_single " "%char); [reflexivity|].
    change (single_line (str "  " ++ c ++ str ",") = true). one_line.
Qed.

Lemma single_line_table_parts t :
  single_line_table t = true ->
  single_line (Table.name t) = true
  /\ forallb single_line_column (Table.columns t) = true
  /\ match Table.primaryKey t with
     | Some pk => single_line_opt (PrimaryKey.name pk) = true
                  /\ forallb single_line (PrimaryKey.columns pk) = true
     | None => True
     end.
Proof.
  unfold single_line_table. rewrite !andb_true_iff.
  destruct (Table.primaryKey t); rewrite ?andb_true_iff; tauto.
Qed.

Lemma single_line_pk quote suffix table pk :
  (forall s, single_line s = true -> single_line (quote s) = true) ->
  single_line suffix = true ->
  single_line (Table.name table) = true ->
  single_line_opt (PrimaryKey.name pk) = true ->
  forallb single_line (PrimaryKey.columns pk) = true ->
  single_line
    (str "CONSTRAINT "
     ++ quote (or_else (PrimaryKey.name pk) (Table.name table ++ suffix))
     ++ str " PRIMARY KEY ("
     ++ join (str ", ") (map quote (PrimaryKey.columns pk)) ++ str ")")
  = true.
Proof.
  intros Hq Hs Hn Hpn Hpc.
  apply single_line_app; [reflexivity|]. apply single_line_app.
  { apply Hq. destruct (PrimaryKey.name pk); cbn [or_else single_line_opt] in *;
      one_line. }
  apply single_line_app; [reflexivity|].
  apply single_line_app; [|reflexivity].
  apply single_line_join; [reflexivity|].
  rewrite forallb_map. exact (forallb_impl _ _ _ Hq Hpc).
Qed.

Lemma drop_line_free_renderPostgresCreateTable t :
  single_line_table t = true -> drop_line_free (renderPostgresCreateTable t) = true.
Proof.
  intros H. apply single_line_table_parts in H as (Hn & Hc & Hpk).
  unfold renderPostgresCreateTable.
  match goal with |- context [join _ ?cols] => set (columns := cols) end.
  assert (Hcols : forallb single_line columns = true).
  { subst columns. destruct (Table.primaryKey t) as [pk|].
    - rewrite forallb_app, forallb_map.
      rewrite (forallb_impl _ _ _ single_line_renderPostgresColumn Hc).
      cbn [forallb andb]. rewrite andb_true_r. destruct Hpk as [H1 H2].
      apply (single_line_pk quoteIdent (str "_pkey") t pk);
        auto using single_line_quoteIdent.
    - rewrite forallb_map.
      exact (forallb_impl _ _ _ single_line_renderPostgresColumn Hc). }
  replace (str "CREATE TABLE " ++ quoteIdent (Table.name t) ++ str " (" ++ [LF]
           ++ str "  " ++ join (str "," ++ [LF] ++ str "  ") columns ++ [LF]
           ++ str ");")
    with ((str "CREATE TABLE " ++ quoteIdent (Table.name t) ++ str " (")
          ++ LF :: ((str "  " ++ join (str "," ++ [LF] ++ str "  ") columns)
                    ++ LF :: str ");"))
    by (rewrite <- !app_assoc; reflexivity).
  apply drop_line_free_app_LF.
  - apply (drop_line_free_single "C"%char); [reflexivity|].
    change (single_line (str "CREATE TABLE " ++ quoteIdent (Table.name t)
                         ++ str " (") = true). one_line.
  - apply drop_line_free_app_LF; [|reflexivity].
    apply drop_line_free_columns, Hcols.
Qed.

Lemma drop_line_free_renderMariaCreateTable t :
  single_line_table t = true -> drop_line_free (renderMariaCreateTable t) = true.
Proof.
  intros H. apply single_line_table_parts in H as (Hn & Hc & Hpk).
  unfold renderMariaCreateTable.
  match goal with |- context [join _ ?cols] => set (columns := cols) end.
  assert (Hcols : forallb single_line columns = true).
  { subst columns. destruct (Table.primaryKey t) as [pk|].
    - rewrite forallb_app, forallb_map.
      rewrite (forallb_impl _ _ _ single_line_renderMariaColumn Hc).
      cbn [forallb andb]. rewrite andb_true_r. destruct Hpk as [H1 H2].
      apply (single_line_pk backtick (str "_pk") t pk);
        auto using single_line_backtick.
    - rewrite forallb_map.
      exact (forallb_impl _ _ _ single_line_renderMariaColumn Hc). }
  replace (str "CREATE TABLE " ++ backtick (Table.name t) ++ str " (" ++ [LF]
           ++ str "  " ++ join (str "," ++ [LF] ++ str "  ") columns ++ [LF]
           ++ str ") ENGINE=InnoDB;")
    with ((str "CREATE TABLE " ++ backtick (Table.name t) ++ str " (")
          ++ LF :: ((str "  " ++ join (str "," ++ [LF] ++ str "  ") columns)
                    ++ LF :: str ") ENGINE=InnoDB;"))
    by (rewrite <- !app_assoc; reflexivity).
  apply drop_line_free_app_LF.
  - apply (drop_line_free_single "C"%char); [reflexivity|].
    change (single_line (str "CREATE TABLE " ++ backtick (Table.name t)
                         ++ str " (") = true). one_line.
  - apply drop_line_free_app_LF; [|reflexivity].
    apply drop_line_free_columns, Hcols.
Qed.

Lemma single_line_index_parts i :
  single_line_index i = true ->
  single_line (Index.name i) = true
  /\ forallb single_line (Index.columns i) = true
  /\ match Index.using_ i with Some u => single_line u = true | None => True end.
Proof.
  unfold single_line_index. rewrite !andb_true_iff.
  destruct (Index.using_ i); tauto.
Qed.

Lemma single_line_quoted_list quote columns :
  (forall s, single_line s = true -> single_line (quote s) = true) ->
  forallb single_line columns = true ->
  single_line (join (str ", ") (map quote columns)) = true.
Proof.
  intros Hq H. apply single_line_join; [reflexivity|].
  rewrite forallb_map. exact (forallb_impl _ _ _ Hq H).
Qed.

Lemma single_line_renderPostgresIndex tableName i :
  single_line tableName = true -> single_line_index i = true ->
  single_line (renderPostgresIndex tableName i) = true.
Proof.
  intros Ht H. apply single_line_index_parts in H as (Hn & Hc & Hu).
  pose proof (single_line_quoted_list quoteIdent _ single_line_quoteIdent Hc).
  unfold renderPostgresIndex.
  destruct (Index.unique i), (Index.using_ i) as [u|];
    try destruct (truthy u); one_line.
Qed.

Lemma single_line_renderMariaIndex tableName i :
  single_line tableName = true -> single_line_index i = true ->
  single_line (renderMariaIndex tableName i) = true.
Proof.
  intros Ht H. apply single_line_index_parts in H as (Hn & Hc & Hu).
  pose proof (single_line_quoted_list backtick _ single_line_backtick Hc).
  unfold renderMariaIndex. cbv zeta.
  destruct (Index.unique i); one_line.
Qed.

Lemma single_line_alter_statements name columnChange desiredColumn :
  single_line name = true -> single_line_column desiredColumn = true ->
  forallb single_line (alter_statements name columnChange desiredColumn) = true.
Proof.
  intros Hn H. apply single_line_column_parts in H as (_ & Ht & Hd & _).
  unfold alter_statements. cbv zeta.
  destruct (ColumnChange.typeChanged columnChange),
    (ColumnChange.nullableChanged columnChange),
    (ColumnChange.defaultChanged columnChange),
    (ColumnChange.generatedChanged columnChange),
    (ColumnChange.collationChanged columnChange),
    (Column.nullable desiredColumn),
    (Column.default desiredColumn) as [| |d];
    cbn [app forallb single_line_opt] in *;
    repeat match goal with
           | |- (_ && _) = true => apply andb_true_intro; split
           end; one_line.
Qed.

Lemma find_column_In name columns col :
  find_column name columns = Some col -> In col columns.
Proof. unfold find_column. intros H. apply List.find_some in H. tauto. Qed.

Lemma head_In {A} (l : list A) (x : A) : head l = Some x -> In x l.
Proof. destruct l; [discriminate|]. intros [= ->]. now left. Qed.

Lemma single_line_alter_column desired working entry :
  forallb single_line_column (Table.columns desired) = true ->
  single_line (ChangeEnvelope.name entry) = true ->
  forallb single_line (Alteration.change (alter_column desired working entry))
  = true.
Proof.
  intros Hcols Hn. unfold alter_column. cbv zeta.
  rewrite forallb_forall in Hcols.
  destruct (find_column (ChangeEnvelope.name entry) (Table.columns desired))
    as [col|] eqn:Ef.
  - cbn [Alteration.change]. apply single_line_alter_statements; [exact Hn|].
    apply Hcols, (find_column_In _ _ _ Ef).
  - destruct (head (Table.columns desired)) as [col|] eqn:Eh.
    + cbn [Alteration.change]. apply single_line_alter_statements; [exact Hn|].
      apply Hcols, (head_In _ _ Eh).
    + cbn [Alteration.change forallb]. rewrite andb_true_r. one_line.
Qed.

Lemma Forall_map_intro {A B} (P : B -> Prop) (f : A -> B) (l : list A) :
  (forall x, In x l -> P (f x)) -> Forall P (map f l).
Proof.
  intros H. apply List.Forall_forall. intros y Hy.
  apply in_map_iff in Hy as (x & <- & Hx). auto.
Qed.

Lemma Forall_flat_map_intro {A B} (P : B -> Prop) (g : A -> list B)
    (l : list A) :
  (forall x, In x l -> Forall P (g x)) -> Forall P (flat_map g l).
Proof.
  intros H. apply List.Forall_forall. intros y Hy.
  apply in_flat_map in Hy as (x & Hx & Hy).
  exact (proj1 (List.Forall_forall _ _) (H x Hx) y Hy).
Qed.

Lemma forallb_In {A} (f : A -> bool) (l : list A) (x : A) :
  forallb f l = true -> In x l -> f x = true.
Proof. rewrite forallb_forall. auto. Qed.

Lemma single_line_table_change_parts change :
  single_line_table_change change = true ->
  single_line_table (TableChange.table change) = true
  /\ single_line_table (TableChange.sourceTable change) = true
  /\ forallb single_line_column (TableChange.addedColumns change) = true
  /\ forallb single_line_column (TableChange.removedColumns change) = true
  /\ forallb (fun e => single_line (ChangeEnvelope.name e))
             (TableChange.columnChanges change) = true
  /\ forallb single_line_index (TableChange.addedIndexes change) = true
  /\ forallb single_line_index (TableChange.removedIndexes change) = true.
Proof. unfold single_line_table_change. rewrite !andb_true_iff. tauto. Qed.

Lemma drop_line_free_table_change dialect opts change :
  single_line_table_change change = true ->
  Forall (fun s => drop_line_free s = true)
         (safe_mode_table_change dialect opts change).
Proof.
  intros H.
  apply single_line_table_change_parts in H as (Ht & Hs & Ha & Hr & Hn & Hia & Hir).
  apply single_line_table_parts in Ht as (Htn & Htc & _).
  apply single_line_table_parts in Hs as (Hsn & Hsc & _).
  unfold safe_mode_table_change, buildTablePlan. cbv zeta.
  cbn [TableChangePlan.alterColumns].
  set (b := is_AtoB (GenOptions.direction opts)).
  set (working := if b then TableChange.table change
                  else TableChange.sourceTable change).
  assert (Hw : single_line (Table.name working) = true)
    by (subst working; destruct b; assumption).
  clearbody working.
  set (desired := if b then TableChange.sourceTable change
                  else TableChange.table change).
  assert (Hdesired : forallb single_line_column (Table.columns desired) = true)
    by (subst desired; destruct b; assumption).
  clearbody desired.
  set (dropColumns := if b then TableChange.addedColumns change
                      else TableChange.removedColumns change).
  assert (Hdrop : forallb single_line_column dropColumns = true)
    by (subst dropColumns; destruct b; assumption).
  clearbody dropColumns.
  set (addColumns := if b then TableChange.removedColumns change
                     else TableChange.addedColumns change).
  assert (Hadd : forallb single_line_column addColumns = true)
    by (subst addColumns; destruct b; assumption).
  clearbody addColumns.
  set (dropIndexes := if b then TableChange.addedIndexes change
                      else TableChange.removedIndexes change).
  assert (Hdi : forallb single_line_index dropIndexes = true)
    by (subst dropIndexes; destruct b; assumption).
  clearbody dropIndexes.
  set (createIndexes := if b then TableChange.removedIndexes change
                        else TableChange.addedIndexes change).
  assert (Hci : forallb single_line_index createIndexes = true)
    by (subst createIndexes; destruct b; assumption).
  clearbody createIndexes. clearbody b.
  set (quote := match dialect with postgres => quoteIdent | mariadb => backtick end).
  assert (Hq : forall s, single_line s = true -> single_line (quote s) = true)
    by (subst quote; destruct dialect;
        auto using single_line_quoteIdent, single_line_backtick).
  clearbody quote.
  pose proof (Hq _ Hw) as Hqw.
  assert (Hcascade : single_line (if GenOptions.cascade opts
                                  then str " CASCADE" else []) = true)
    by (destruct (GenOptions.cascade opts); reflexivity).
  assert (Hexists : single_line (if GenOptions.ifExists opts
                                 then str " IF EXISTS" else []) = true)
    by (destruct (GenOptions.ifExists opts); reflexivity).
  repeat (apply Forall_app; split).
  - apply Forall_map_intro. intros column Hin.
    pose proof (forallb_In _ _ _ Hdrop Hin) as Hc.
    apply single_line_column_parts in Hc as (Hcn & _).
    pose proof (Hq _ Hcn).
    apply (drop_line_free_single "-"%char); [reflexivity|].
    destruct dialect; one_line.
  - apply Forall_map_intro. intros column Hin.
    pose proof (forallb_In _ _ _ Hadd Hin) as Hc.
    pose proof (single_line_renderPostgresColumn _ Hc).
    pose proof (single_line_renderMariaColumn _ Hc).
    apply (drop_line_free_single "A"%char); [reflexivity|].
    destruct dialect; one_line.
  - apply Forall_flat_map_intro. intros alteration Hin.
    apply Forall_map_intro. intros ddl Hddl.
    assert (Hd : single_line ddl = true).
    { apply in_map_iff in Hin as (entry & <- & Hentry).
      eapply forallb_In; [|exact Hddl].
      apply single_line_alter_column; [exact Hdesired|].
      exact (forallb_In _ _ _ Hn Hentry). }
    apply (drop_line_free_single "A"%char); [reflexivity|].
    one_line.
  - apply Forall_map_intro. intros index Hin.
    pose proof (forallb_In _ _ _ Hdi Hin) as Hi.
    apply single_line_index_parts in Hi as (Hin' & _).
    destruct dialect;
      (apply (drop_line_free_single "-"%char); [reflexivity|]); one_line.
  - apply Forall_map_intro. intros index Hin.
    pose proof (forallb_In _ _ _ Hci Hin) as Hi.
    destruct dialect.
    + pose proof (single_line_renderPostgresIndex _ _ Hw Hi) as Hr'.
      unfold renderPostgresIndex in *.
      apply (drop_line_free_single "C"%char); [reflexivity | exact Hr'].
    + pose proof (single_line_renderMariaIndex _ _ Hw Hi) as Hr'.
      unfold renderMariaIndex in *. cbv zeta in Hr'.
      apply (drop_line_free_single "C"%char); [reflexivity | exact Hr'].
Qed.

Lemma drop_free_objects_parts {T} (plain : T -> bool) (d : ObjectCollectionDiff T) :
  drop_free_objects plain d = true ->
  forallb plain (Buckets.added d) = true
  /\ forallb plain (Buckets.removed d) = true
  /\ forallb (fun e => single_line (ChangeEnvelope.name e)) (Buckets.changed d)
     = true.
Proof. unfold drop_free_objects. rewrite !andb_true_iff. tauto. Qed.

Lemma drop_free_diff_parts diff :
  drop_free_diff diff = true ->
  forallb single_line_table (Buckets.added (DiffResult.tables diff)) = true
  /\ forallb single_line_table (Buckets.removed (DiffResult.tables diff)) = true
  /\ forallb single_line_table_change (Buckets.changed (DiffResult.tables diff)) = true
  /\ drop_free_objects drop_free_view (DiffResult.views diff) = true
  /\ drop_free_objects drop_free_routine (DiffResult.routines diff) = true
  /\ drop_free_objects drop_free_trigger (DiffResult.triggers diff) = true.
Proof. unfold drop_free_diff. rewrite !andb_true_iff. tauto. Qed.

Lemma forallb_either {A} (f : A -> bool) (b : bool) (l l' : list A) :
  forallb f l = true -> forallb f l' = true ->
  forallb f (if b then l else l') = true.
Proof. destruct b; auto. Qed.

Lemma Forall_optional {A} (P : A -> Prop) (b : bool) (x : A) :
  P x -> Forall P (if b then [x] else []).
Proof. destruct b; auto. Qed.

(** Every statement of the safe-mode layout of a plain diff is free of
    lines that begin with [DROP ]. *)
Lemma drop_line_free_safe_mode_script dialect diff opts :
  drop_free_diff diff = true ->
  Forall (fun s => drop_line_free s = true) (safe_mode_script dialect diff opts).
Proof.
  intros H.
  apply drop_free_diff_parts in H as (Hta & Htr & Htc & Hv & Hr & Hg).
  apply drop_free_objects_parts in Hv as (Hva & Hvr & Hvc).
  apply drop_free_objects_parts in Hr as (Hra & Hrr & Hrc).
  apply drop_free_objects_parts in Hg as (Hga & Hgr & Hgc).
  unfold safe_mode_script, safe_mode_body. cbv zeta.
  set (b := is_AtoB (GenOptions.direction opts)).
  pose proof (forallb_either _ b _ _ Hta Htr) as HdropT.
  pose proof (forallb_either _ b _ _ Htr Hta) as HcreateT.
  pose proof (forallb_either _ b _ _ Hva Hvr) as HdropV.
  pose proof (forallb_either _ b _ _ Hvr Hva) as HcreateV.
  pose proof (forallb_either _ b _ _ Hra Hrr) as HdropR.
  pose proof (forallb_either _ b _ _ Hrr Hra) as HcreateR.
  pose proof (forallb_either _ b _ _ Hga Hgr) as HdropG.
  pose proof (forallb_either _ b _ _ Hgr Hga) as HcreateG.
  clearbody b.
  set (quote := match dialect with postgres => quoteIdent | mariadb => backtick end).
  assert (Hq : forall s, single_line s = true -> single_line (quote s) = true)
    by (subst quote; destruct dialect;
        auto using single_line_quoteIdent, single_line_backtick).
  clearbody quote.
  assert (Hcascade : single_line (if GenOptions.cascade opts
                                  then str " CASCADE" else []) = true)
    by (destruct (GenOptions.cascade opts); reflexivity).
  assert (Hexists : single_line (if GenOptions.ifExists opts
                                 then str " IF EXISTS" else []) = true)
    by (destruct (GenOptions.ifExists opts); reflexivity).
  repeat (apply Forall_app; split).
  - apply Forall_optional. destruct dialect; reflexivity.
  - apply Forall_optional. reflexivity.
  - apply Forall_map_intro. intros table Hin.
    pose proof (forallb_In _ _ _ HdropT Hin) as Ht.
    apply single_line_table_parts in Ht as (Hn & _). pose proof (Hq _ Hn).
    apply (drop_line_free_single "-"%char); [reflexivity|]. one_line.
  - apply Forall_map_intro. intros table Hin.
    pose proof (forallb_In _ _ _ HcreateT Hin) as Ht.
    destruct dialect;
      [apply drop_line_free_renderPostgresCreateTable
      |apply drop_line_free_renderMariaCreateTable]; exact Ht.
  - apply Forall_flat_map_intro. intros change Hin.
    apply drop_line_free_table_change.
    exact (forallb_In _ _ _ Htc Hin).
  - apply Forall_map_intro. intros view Hin.
    pose proof (forallb_In _ _ _ HdropV Hin) as Hp.
    apply andb_true_iff in Hp as [Hn _]. pose proof (Hq _ Hn).
    apply (drop_line_free_single "-"%char); [reflexivity|]. one_line.
  - apply Forall_map_intro. intros view Hin.
    pose proof (forallb_In _ _ _ HcreateV Hin) as Hp.
    apply andb_true_iff in Hp as [Hn Hd]. pose proof (Hq _ Hn).
    assert (E : forall a q c d : jsstring,
               a ++ q ++ c ++ [LF] ++ d = (a ++ q ++ c) ++ LF :: d)
      by (intros; rewrite <- !app_assoc; reflexivity).
    rewrite E.
    apply drop_line_free_app_LF.
    + apply (drop_line_free_single "C"%char); [reflexivity|]. one_line.
    + apply drop_line_free_snoc; [reflexivity| |exact Hd].
      cbn. intuition discriminate.
  - apply Forall_map_intro. intros change Hin.
    pose proof (forallb_In _ _ _ Hvc Hin) as Hn. cbv beta in Hn.
    apply (drop_line_free_single "-"%char); [reflexivity|]. one_line.
  - apply Forall_map_intro. intros routine Hin.
    pose proof (forallb_In _ _ _ HdropR Hin) as Hp.
    apply andb_true_iff in Hp as [Hn _]. pose proof (Hq _ Hn).
    apply (drop_line_free_single "-"%char); [reflexivity|].
    destruct (Routine.kind routine); one_line.
  - apply Forall_flat_map_intro. intros routine Hin.
    pose proof (forallb_In _ _ _ HcreateR Hin) as Hp.
    apply andb_true_iff in Hp as [Hn Hd].
    repeat constructor; [|exact Hd].
    apply (drop_line_free_single "-"%char); [reflexivity|]. one_line.
  - apply Forall_map_intro. intros change Hin.
    pose proof (forallb_In _ _ _ Hrc Hin) as Hn. cbv beta in Hn.
    apply (drop_line_free_single "-"%char); [reflexivity|]. one_line.
  - apply Forall_map_intro. intros trigger Hin.
    pose proof (forallb_In _ _ _ HdropG Hin) as Hp.
    unfold drop_free_trigger in Hp. rewrite !andb_true_iff in Hp.
    destruct Hp as [[Hn Ht] _]. pose proof (Hq _ Hn). pose proof (Hq _ Ht).
    apply (drop_line_free_single "-"%char); [reflexivity|]. one_line.
  - apply Forall_flat_map_intro. intros trigger Hin.
    pose proof (forallb_In _ _ _ HcreateG Hin) as Hp.
    unfold drop_free_trigger in Hp. rewrite !andb_true_iff in Hp.
    destruct Hp as [[Hn Ht] Hd].
    repeat constructor; [|exact Hd].
    apply (drop_line_free_single "-"%char); [reflexivity|]. one_line.
  - apply Forall_map_intro. intros change Hin.
    pose proof (forallb_In _ _ _ Hgc Hin) as Hn. cbv beta in Hn.
    apply (drop_line_free_single "-"%char); [reflexivity|]. one_line.
  - apply Forall_optional. reflexivity.
Qed.

(** C2 (as amended).  With [safeMode] on, the script [toPostgres] returns,
    and the one [toMariaDB] returns, is the join with [EOL EOL] of the
    non-blank statements of the safe-mode layout: every [DROP TABLE],
    [ALTER TABLE ... DROP COLUMN], [DROP INDEX], [DROP VIEW],
    [DROP FUNCTION/PROCEDURE] and [DROP TRIGGER] statement with [-- ] in
    front, every other statement as it is built.  When [EOL] is LF or CR LF,
    no name, data type, default, collation or access method of the diff
    holds a line feed and no line of the trimmed definition of an added or
    removed view, routine or trigger begins with [DROP ], no line of either
    script begins with [DROP ]. *)
Theorem safe_mode_comments_out_drops (EOL : jsstring) (diff : DiffResult.t)
    (opts : GenOptions.t) :
  GenOptions.safeMode opts = true ->
  toPostgres EOL diff opts
  = join (EOL ++ EOL) (statements (safe_mode_script postgres diff opts))
  /\ toMariaDB EOL diff opts
     = join (EOL ++ EOL) (statements (safe_mode_script mariadb diff opts))
  /\ (EOL = [LF] \/ EOL = [CR; LF] ->
      drop_free_diff diff = true ->
      drop_line_free (toPostgres EOL diff opts) = true
      /\ drop_line_free (toMariaDB EOL diff opts) = true).
Proof.
  intros Hsafe. unfold toPostgres, toMariaDB.
  rewrite !(safe_mode_script_lines _ _ _ Hsafe).
  split; [reflexivity|]. split; [reflexivity|].
  intros HEOL Hdiff.
  split; apply (drop_line_free_join _ _ HEOL), statements_Forall,
    drop_line_free_safe_mode_script, Hdiff.
Qed.

Lemma safe_mode_comments_out_drops_witness :
  GenOptions.safeMode safe_AtoB = true
  /\ drop_free_diff fixture_diff = true
  /\ toPostgres [LF] fixture_diff safe_AtoB
     = join ([LF] ++ [LF])
            (statements (safe_mode_script postgres fixture_diff safe_AtoB))
  /\ toMariaDB [LF] fixture_diff safe_AtoB
     = join ([LF] ++ [LF])
            (statements (safe_mode_script mariadb fixture_diff safe_AtoB))
  /\ drop_line_free (toPostgres [LF] fixture_diff safe_AtoB) = true
  /\ drop_line_free (toMariaDB [LF] fixture_diff safe_AtoB) = true.
Proof.
  split; [reflexivity|]. split; [vm_compute; reflexivity|].
  destruct (safe_mode_comments_out_drops [LF] fixture_diff safe_AtoB)
    as (Hpg & Hmaria & Hlines); [reflexivity|].
  split; [exact Hpg|]. split; [exact Hmaria|].
  apply Hlines; [left; reflexivity | vm_compute; reflexivity].
Defined.

(** C2 as stated fails: a created routine's definition is copied into the
    script as it is, so a line of its body that begins with [DROP ] is a line
    of the script, with no [-- ] in front, in safe mode too. *)
Lemma safe_mode_script_has_DROP_line :
  GenOptions.safeMode safe_AtoB = true
  /\ In (str "DROP TABLE IF EXISTS scratch;")
        (script_text_lines (toPostgres [LF] cleanup_diff safe_AtoB))
  /\ In (str "DROP TABLE IF EXISTS scratch;")
        (script_text_lines (toMariaDB [LF] cleanup_diff safe_AtoB))
  /\ startsWith (str "DROP ") (str "DROP TABLE IF EXISTS scratch;") = true.
Proof.
  split; [reflexivity|]. split; [|split; [|reflexivity]].
  - vm_compute. do 7 right. left. reflexivity.
  - vm_compute. do 7 right. left. reflexivity.
Qed.

(** ** The generators: the safe-mode banner *)

Lemma statements_visible lines :
  Forall (fun line => visible line = true) lines -> statements lines = lines.
Proof.
  induction 1 as [|line lines Hv _ IH]; [reflexivity|].
  unfold statements in *. simpl. rewrite (visible_trim _ Hv), IH. reflexivity.
Qed.

(** C7 (as amended).  With [safeMode] on, the script of either generator is
    the join with [EOL EOL] of: the transaction opener if requested; the
    line [-- SAFE MODE: review drops below before executing.] exactly when
    the plan has at least one table to drop; the non-blank statements of the
    body, among which every destructive statement of every object kind
    stands with [-- ] in front; [COMMIT;] if requested.  So a script that
    drops a table holds the banner, ahead of every drop; drops of columns,
    indexes, views, routines or triggers alone add no banner. *)
Theorem safe_mode_banner_on_table_drops (EOL : jsstring)
    (diff : DiffResult.t) (opts : GenOptions.t) :
  GenOptions.safeMode opts = true ->
  toPostgres EOL diff opts
  = join (EOL ++ EOL)
      ((if GenOptions.withTransaction opts then [str "BEGIN;"] else [])
       ++ (if nonempty (Plan.toDrop (planTables diff opts))
           then [str "-- SAFE MODE: review drops below before executing."]
           else [])
       ++ statements (safe_mode_body postgres diff opts)
       ++ (if GenOptions.withTransaction opts then [str "COMMIT;"] else []))
  /\ toMariaDB EOL diff opts
     = join (EOL ++ EOL)
         ((if GenOptions.withTransaction opts
           then [str "START TRANSACTION;"] else [])
          ++ (if nonempty (Plan.toDrop (planTables diff opts))
              then [str "-- SAFE MODE: review drops below before executing."]
              else [])
          ++ statements (safe_mode_body mariadb diff opts)
          ++ (if GenOptions.withTransaction opts then [str "COMMIT;"] else []))
  /\ (forall dialect drop,
        In drop (drop_statements dialect diff opts) ->
        In (str "-- " ++ drop) (statements (safe_mode_body dialect diff opts)))
  /\ (nonempty (Plan.toDrop (planTables diff opts)) = true ->
      includes (str "-- SAFE MODE: review drops below before executing.")
               (toPostgres EOL diff opts) = true
      /\ includes (str "-- SAFE MODE: review drops below before executing.")
                  (toMariaDB EOL diff opts) = true).
Proof.
  intros Hsafe.
  assert (Hscript : forall dialect,
             statements (script_lines dialect diff opts)
             = (if GenOptions.withTransaction opts
                then [match dialect with
                      | postgres => str "BEGIN;"
                      | mariadb => str "START TRANSACTION;"
                      end]
                else [])
               ++ (if nonempty (Plan.toDrop (planTables diff opts))
                   then [str "-- SAFE MODE: review drops below before executing."]
                   else [])
               ++ statements (safe_mode_body dialect diff opts)
               ++ (if GenOptions.withTransaction opts
                   then [str "COMMIT;"] else [])).
  { intros dialect.
    rewrite script_lines_flat, !statements_app, Hsafe. cbn [andb].
    rewrite (safe_mode_body_lines _ _ _ Hsafe).
    repeat apply app_eq2; try reflexivity.
    - unfold opener_lines.
      destruct (GenOptions.withTransaction opts), dialect; reflexivity.
    - destruct (nonempty (Plan.toDrop (planTables diff opts))); reflexivity.
    - unfold commit_lines.
      destruct (GenOptions.withTransaction opts); reflexivity. }
  split; [|split; [|split]].
  - unfold toPostgres. rewrite Hscript. reflexivity.
  - unfold toMariaDB. rewrite Hscript. reflexivity.
  - intros dialect drop Hin.
    rewrite <- (safe_mode_body_lines _ _ _ Hsafe),
      <- (guard_drop_safe _ _ Hsafe).
    apply drop_statement_in_body, Hin.
  - intros Hdrop. unfold toPostgres, toMariaDB. rewrite !Hscript, Hdrop.
    split; apply includes_join, in_or_app; right; left; reflexivity.
Qed.

Lemma safe_mode_banner_on_table_drops_witness :
  GenOptions.safeMode safe_AtoB = true
  /\ nonempty (Plan.toDrop (planTables drop_tables_diff safe_AtoB)) = true
  /\ toPostgres [LF] drop_tables_diff safe_AtoB
     = join ([LF] ++ [LF])
         ([str "BEGIN;";
           str "-- SAFE MODE: review drops below before executing."]
          ++ statements (safe_mode_body postgres drop_tables_diff safe_AtoB)
          ++ [str "COMMIT;"])
  /\ includes (str "-- SAFE MODE: review drops below before executing.")
              (toPostgres [LF] drop_tables_diff safe_AtoB) = true
  /\ includes (str "-- SAFE MODE: review drops below before executing.")
              (toMariaDB [LF] drop_tables_diff safe_AtoB) = true.
Proof.
  split; [reflexivity|]. split; [reflexivity|].
  destruct (safe_mode_banner_on_table_drops [LF] drop_tables_diff safe_AtoB)
    as (Hpg & _ & _ & Hbanner); [reflexivity|].
  split; [exact Hpg|]. apply Hbanner. reflexivity.
Defined.

(** C7 as stated fails: for the diff of the generator tests the safe-mode
    script comments out a column drop and an index drop and has no banner,
    in either dialect. *)
Lemma safe_mode_column_drop_without_banner :
  GenOptions.safeMode safe_AtoB = true
  /\ statements (script_lines postgres fixture_diff safe_AtoB)
     = [ str "BEGIN;";
         str "-- ALTER TABLE " ++ quoteIdent (str "users")
         ++ str " DROP COLUMN " ++ quoteIdent (str "status") ++ str ";";
         str "-- DROP INDEX " ++ quoteIdent (str "users_status_idx") ++ str ";";
         str "COMMIT;" ]
  /\ includes (str "-- SAFE MODE:") (toPostgres [LF] fixture_diff safe_AtoB)
     = false
  /\ includes (str "DROP COLUMN") (toPostgres [LF] fixture_diff safe_AtoB)
     = true
  /\ includes (str "-- SAFE MODE:") (toMariaDB [LF] fixture_diff safe_AtoB)
     = false
  /\ includes (str "DROP COLUMN") (toMariaDB [LF] fixture_diff safe_AtoB)
     = true.
Proof. repeat split; vm_compute; reflexivity. Qed.

(** ** The PostgreSQL loader *)

(** What the index parser recovers from typical [indexdef] texts. *)
Example index_of_row_plain :
  index_of_row
    (IndexRow.mk (str "orders") (str "orders_customer_idx")
       (str "CREATE INDEX orders_customer_idx ON shop.orders USING hash (customer_id, placed_at)"))
  = {| Index.name := str "orders_customer_idx"; Index.unique := false;
       Index.columns := [str "customer_id"; str "placed_at"];
       Index.using_ := Some (str "hash") |}.
Proof. vm_compute. reflexivity. Qed.

Example index_of_row_quoted :
  index_of_row
    (IndexRow.mk (str "users") (str "users_name_key")
       (str "CREATE UNIQUE INDEX users_name_key ON public.users USING btree ("
        ++ quoteIdent (str "Name") ++ str ")"))
  = {| Index.name := str "users_name_key"; Index.unique := true;
       Index.columns := [str "Name"]; Index.using_ := Some (str "btree") |}.
Proof. vm_compute. reflexivity. Qed.

(** Every row of [pg_indexes] whose table is known adds an index to that
    table: the index loop has no test on the index name. *)
Lemma index_loop_pushes (m : JsMap.t Table.t) (row : IndexRow.t) (table : Table.t) :
  JsMap.get (IndexRow.tablename row) m = Some table ->
  JsMap.get (IndexRow.tablename row)
    (match JsMap.get (IndexRow.tablename row) m with
     | None => m
     | Some table =>
         JsMap.set (IndexRow.tablename row)
                   (Tbl.push_index (index_of_row row) table) m
     end)
  = Some (Tbl.push_index (index_of_row row) table).
Proof. intros H. rewrite H. apply JsMapFacts.get_set_same. Qed.

(** C8, at the failing input.  For a table [users] with the primary key
    [users_pkey], the loader recovers uniqueness, access method and columns
    of both indexes [pg_indexes] lists, and the index backing the primary
    key is one of the table's indexes: it is not skipped. *)
Theorem postgres_loader_keeps_primary_key_index :
  introspectTables users_table_rows users_pk_rows users_index_rows
  = [ {| Table.name := str "users"; Table.columns := [];
         Table.primaryKey :=
           Some {| PrimaryKey.name := Val (str "users_pkey");
                   PrimaryKey.columns := [str "id"] |};
         Table.indexes := [users_pkey_index; users_email_index];
         Table.checks := []; Table.fks := [] |} ]
  /\ exists table,
       In table (introspectTables users_table_rows users_pk_rows users_index_rows)
       /\ Table.primaryKey table
          = Some {| PrimaryKey.name := Val (str "users_pkey");
                    PrimaryKey.columns := [str "id"] |}
       /\ In users_pkey_index (Table.indexes table).
Proof.
  split; [vm_compute; reflexivity|].
  eexists. split; [vm_compute; left; reflexivity|].
  split; [reflexivity|]. left. reflexivity.
Qed.

(* ===================================================================== *)
(** * Further properties of the code *)
(* ===================================================================== *)

(** ** The string order and [sortBy] *)

Lemma nat_of_ascii_inj a b : nat_of_ascii a = nat_of_ascii b -> a = b.
Proof.
  intros H. rewrite <- (ascii_nat_embedding a), <- (ascii_nat_embedding b), H.
  reflexivity.
Qed.

Lemma str_leb_antisym a b : str_leb a b = true -> str_leb b a = true -> a = b.
Proof.
  revert b. induction a as [|x a IH]; intros [|y b]; simpl; try congruence.
  destruct (nat_of_ascii x <? nat_of_ascii y) eqn:E1;
    destruct (nat_of_ascii y <? nat_of_ascii x) eqn:E2; try congruence.
  - apply Nat.ltb_lt in E1, E2. lia.
  - apply Nat.ltb_ge in E1, E2. intros H1 H2.
    assert (x = y) by (apply nat_of_ascii_inj; lia). subst.
    f_equal. auto.
Qed.

Lemma str_leb_trans a b c :
  str_leb a b = true -> str_leb b c = true -> str_leb a c = true.
Proof.
  revert b c. induction a as [|x a IH]; intros [|y b] [|z c]; simpl;
    try congruence.
  destruct (nat_of_ascii x <? nat_of_ascii y) eqn:Exy;
    destruct (nat_of_ascii y <? nat_of_ascii x) eqn:Eyx;
    destruct (nat_of_ascii y <? nat_of_ascii z) eqn:Eyz;
    destruct (nat_of_ascii z <? nat_of_ascii y) eqn:Ezy;
    destruct (nat_of_ascii x <? nat_of_ascii z) eqn:Exz;
    destruct (nat_of_ascii z <? nat_of_ascii x) eqn:Ezx;
    try congruence;
    repeat match goal with
           | H : (_ <? _) = true |- _ => apply Nat.ltb_lt in H
           | H : (_ <? _) = false |- _ => apply Nat.ltb_ge in H
           end; try lia.
  apply IH.
Qed.

Section SortByMore.
Context {A : Type} (key : A -> jsstring).

Lemma sort_insert_Permutation x l : Permutation (sort_insert key x l) (x :: l).
Proof.
  induction l as [|y l IH]; simpl; [reflexivity|].
  destruct (str_leb (key x) (key y)); [reflexivity|].
  rewrite IH. apply perm_swap.
Qed.

Lemma sortBy_Permutation l : Permutation (sortBy key l) l.
Proof.
  induction l as [|x l IH]; simpl; [reflexivity|].
  rewrite sort_insert_Permutation, IH. reflexivity.
Qed.

(** Two insertions commute unless the keys tie between different items. *)
Lemma sort_insert_comm x y l :
  (key x = key y -> x = y) ->
  sort_insert key x (sort_insert key y l)
  = sort_insert key y (sort_insert key x l).
Proof.
  intros Htie. induction l as [|z l IH].
  - simpl. destruct (str_leb (key x) (key y)) eqn:Exy;
      destruct (str_leb (key y) (key x)) eqn:Eyx; try reflexivity.
    + rewrite (Htie (str_leb_antisym _ _ Exy Eyx)). reflexivity.
    + apply str_leb_total in Exy. congruence.
  - cbn [sort_insert].
    destruct (str_leb (key y) (key z)) eqn:Eyz;
      destruct (str_leb (key x) (key z)) eqn:Exz; cbn [sort_insert];
      rewrite ?Eyz, ?Exz.
    + destruct (str_leb (key x) (key y)) eqn:Exy;
        destruct (str_leb (key y) (key x)) eqn:Eyx; try reflexivity.
      * rewrite (Htie (str_leb_antisym _ _ Exy Eyx)). reflexivity.
      * apply str_leb_total in Exy. congruence.
    + destruct (str_leb (key x) (key y)) eqn:Exy.
      * rewrite (str_leb_trans _ _ _ Exy Eyz) in Exz. discriminate.
      * reflexivity.
    + destruct (str_leb (key y) (key x)) eqn:Eyx.
      * rewrite (str_leb_trans _ _ _ Eyx Exz) in Eyz. discriminate.
      * reflexivity.
    + rewrite IH. reflexivity.
Qed.

(** [sortBy] gives the same list for every ordering of its input, as long
    as items with the same key are the same item. *)
Lemma sortBy_order_independent l1 l2 :
  Permutation l1 l2 ->
  (forall x y, In x l1 -> In y l1 -> key x = key y -> x = y) ->
  sortBy key l1 = sortBy key l2.
Proof.
  induction 1 as [|x l1 l2 Hp IH|x y l|l1 l2 l3 Hp1 IH1 Hp2 IH2]; intros Htie.
  - reflexivity.
  - simpl. rewrite IH; [reflexivity|]. intros a b Ha Hb. apply Htie; now right.
  - simpl. apply sort_insert_comm. intros E. symmetry.
    apply Htie; [right; now left | now left | symmetry; exact E].
  - rewrite IH1 by exact Htie. apply IH2. intros a b Ha Hb.
    apply Htie; eapply Permutation_in; try eassumption;
      apply Permutation_sym, Hp1.
Qed.
End SortByMore.

(** ** Maps filled from collections with unique keys *)

Section KeyMapUnique.
Context {T : Type} (keyFn : T -> jsstring).

Lemma unique_key_inj (l : list T) x y :
  List.NoDup (map keyFn l) -> In x l -> In y l -> keyFn x = keyFn y -> x = y.
Proof.
  induction l as [|z l IH]; simpl; [tauto|].
  intros Hnd Hx Hy E. apply List.NoDup_cons_iff in Hnd as [Hz Hnd].
  destruct Hx as [->|Hx], Hy as [->|Hy]; auto.
  - exfalso. apply Hz. rewrite E. apply in_map, Hy.
  - exfalso. apply Hz. rewrite <- E. apply in_map, Hx.
Qed.

(** With unique keys the map holds every item under its own key. *)
Lemma key_map_get_own (l : list T) x :
  List.NoDup (map keyFn l) -> In x l ->
  JsMap.get (keyFn x) (key_map keyFn l) = Some x.
Proof.
  intros Hnd Hx. pose proof (JsMapFacts.key_map_has keyFn x l Hx) as Hh.
  unfold JsMap.has in Hh.
  destruct (JsMap.get (keyFn x) (key_map keyFn l)) as [v|] eqn:E;
    [|discriminate].
  destruct (JsMapFacts.key_map_get _ _ _ _ E) as [Hk Hv].
  f_equal. exact (unique_key_inj l v x Hnd Hv Hx Hk).
Qed.

Lemma key_map_get_None (l : list T) k :
  JsMap.get k (key_map keyFn l) = None <-> ~ In k (map keyFn l).
Proof.
  split.
  - intros E Hin. apply in_map_iff in Hin as (x & <- & Hx).
    pose proof (JsMapFacts.key_map_has keyFn x l Hx) as Hh.
    unfold JsMap.has in Hh. rewrite E in Hh. discriminate.
  - intros Hn. destruct (JsMap.get k (key_map keyFn l)) as [v|] eqn:E;
      [|reflexivity].
    destruct (JsMapFacts.key_map_get _ _ _ _ E) as [<- Hv].
    exfalso. apply Hn, in_map, Hv.
Qed.

Lemma key_map_has_iff (l : list T) k :
  JsMap.has k (key_map keyFn l) = true <-> In k (map keyFn l).
Proof.
  unfold JsMap.has.
  destruct (JsMap.get k (key_map keyFn l)) as [v|] eqn:E.
  - split; [intros _|reflexivity].
    destruct (JsMapFacts.key_map_get _ _ _ _ E) as [<- Hv]. apply in_map, Hv.
  - split; [discriminate|]. intros Hin.
    apply key_map_get_None in E. contradiction.
Qed.

Lemma key_map_values_In (l : list T) k v :
  In (k, v) (key_map keyFn l) -> keyFn v = k /\ In v l.
Proof.
  intros H. apply JsMapFacts.key_map_entry in H.
  exact (JsMapFacts.key_map_get _ _ _ _ H).
Qed.

(** The map of a reordered collection answers every lookup alike. *)
Lemma key_map_get_Permutation (l l' : list T) k :
  List.NoDup (map keyFn l) -> Permutation l l' ->
  JsMap.get k (key_map keyFn l') = JsMap.get k (key_map keyFn l).
Proof.
  intros Hnd Hp.
  assert (Hnd' : List.NoDup (map keyFn l')).
  { eapply Permutation_NoDup; [|exact Hnd]. apply Permutation_map, Hp. }
  destruct (JsMap.get k (key_map keyFn l)) as [v|] eqn:E.
  - destruct (JsMapFacts.key_map_get _ _ _ _ E) as [<- Hv].
    apply key_map_get_own; [exact Hnd'|]. eapply Permutation_in; eassumption.
  - apply key_map_get_None. apply key_map_get_None in E. intros Hin.
    apply E. eapply Permutation_in; [|exact Hin].
    apply Permutation_map, Permutation_sym, Hp.
Qed.

Lemma set_fresh (m : JsMap.t T) k v :
  JsMap.get k m = None -> JsMap.set k v m = m ++ [(k, v)].
Proof.
  induction m as [|[k' v'] m IH]; simpl; [reflexivity|].
  destruct (jsstring_eqb k' k); [discriminate|]. intros H.
  rewrite IH by exact H. reflexivity.
Qed.

Lemma get_app_None (m1 m2 : JsMap.t T) k :
  JsMap.get k m1 = None -> JsMap.get k (m1 ++ m2) = JsMap.get k m2.
Proof.
  induction m1 as [|[k' v'] m1 IH]; simpl; [reflexivity|].
  destruct (jsstring_eqb k' k); [discriminate | exact IH].
Qed.

Lemma get_pairs_None (l : list T) k :
  ~ In k (map keyFn l) ->
  JsMap.get k (map (fun x => (keyFn x, x)) l) = None.
Proof.
  induction l as [|x l IH]; simpl; [reflexivity|]. intros H.
  destruct (jsstring_eqb (keyFn x) k) eqn:E.
  - apply jsstring_eqb_eq in E. tauto.
  - apply IH. tauto.
Qed.

(** With unique keys the map lists the items in their own order. *)
Lemma key_map_unique (l : list T) :
  List.NoDup (map keyFn l) ->
  key_map keyFn l = map (fun x => (keyFn x, x)) l.
Proof.
  unfold key_map.
  assert (H : forall (l0 l : list T),
             List.NoDup (map keyFn (l0 ++ l)) ->
             fold_left (fun m item => JsMap.set (keyFn item) item m) l
                       (map (fun x => (keyFn x, x)) l0)
             = map (fun x => (keyFn x, x)) (l0 ++ l)).
  { clear l. intros l0 l. revert l0.
    induction l as [|x l IH]; intros l0 Hnd.
    - rewrite app_nil_r. reflexivity.
    - simpl. rewrite set_fresh.
      + replace (l0 ++ x :: l) with ((l0 ++ [x]) ++ l) in *
          by (rewrite <- app_assoc; reflexivity).
        rewrite <- (IH (l0 ++ [x]) Hnd). rewrite map_app. reflexivity.
      + apply get_pairs_None. rewrite map_app in Hnd.
        apply List.NoDup_remove_2 in Hnd. intros Hin. apply Hnd.
        apply in_or_app. now left. }
  intros Hnd. exact (H [] l Hnd).
Qed.

Lemma key_map_Permutation (l l' : list T) :
  List.NoDup (map keyFn l) -> Permutation l l' ->
  Permutation (key_map keyFn l) (key_map keyFn l').
Proof.
  intros Hnd Hp. rewrite !key_map_unique.
  - apply Permutation_map, Hp.
  - eapply Permutation_NoDup; [|exact Hnd]. apply Permutation_map, Hp.
  - exact Hnd.
Qed.
End KeyMapUnique.

(** ** The differ does not depend on the order of its inputs *)

Lemma filter_Permutation_bool {A} (p : A -> bool) (l l' : list A) :
  Permutation l l' -> Permutation (List.filter p l) (List.filter p l').
Proof.
  induction 1 as [|x l l' _ IH|x y l|l1 l2 l3 _ IH1 _ IH2]; simpl.
  - reflexivity.
  - destruct (p x); [apply perm_skip|]; exact IH.
  - destruct (p x), (p y); try reflexivity. apply perm_swap.
  - etransitivity; eassumption.
Qed.

Lemma omap_ext_eq {A B} (f g : A -> option B) (l : list A) :
  (forall x, f x = g x) -> omap f l = omap g l.
Proof.
  intros H. induction l as [|x l IH]; [reflexivity|].
  cbn. rewrite H. destruct (g x); [f_equal|]; exact IH.
Qed.

(** X1.  [diffCollection] (views, routines, triggers) gives the same
    added, removed and changed lists for every ordering of its two inputs,
    provided the keys within each input are unique. *)
Theorem diffCollection_order_independent {T} (keyFn valueFn : T -> jsstring)
    (source source' target target' : list T) :
  List.NoDup (map keyFn source) -> List.NoDup (map keyFn target) ->
  Permutation source source' -> Permutation target target' ->
  diffCollection keyFn valueFn source' target'
  = diffCollection keyFn valueFn source target.
Proof.
  intros Hs Ht Ps Pt.
  assert (Hget_s : forall k, JsMap.get k (key_map keyFn source')
                             = JsMap.get k (key_map keyFn source))
    by (intros k; apply key_map_get_Permutation; assumption).
  assert (Hget_t : forall k, JsMap.get k (key_map keyFn target')
                             = JsMap.get k (key_map keyFn target))
    by (intros k; apply key_map_get_Permutation; assumption).
  assert (Htie : forall (l : list T) (p : jsstring * T -> bool) x y,
             List.NoDup (map keyFn l) ->
             In x (map snd (List.filter p (key_map keyFn l))) ->
             In y (map snd (List.filter p (key_map keyFn l))) ->
             keyFn x = keyFn y -> x = y).
  { intros l p x y Hnd Hx Hy E.
    apply in_map_iff in Hx as ([kx vx] & <- & Hx).
    apply in_map_iff in Hy as ([ky vy] & <- & Hy).
    apply filter_In in Hx as [Hx _]. apply filter_In in Hy as [Hy _].
    apply key_map_values_In in Hx as [_ Hx].
    apply key_map_values_In in Hy as [_ Hy].
    exact (unique_key_inj keyFn l _ _ Hnd Hx Hy E). }
  unfold diffCollection. f_equal.
  - symmetry. apply sortBy_order_independent.
    + apply Permutation_map.
      rewrite (filter_ext _ (fun e => negb (JsMap.has (fst e)
                                                 (key_map keyFn source')))).
      * apply filter_Permutation_bool, key_map_Permutation; assumption.
      * intros e. unfold JsMap.has. rewrite Hget_s. reflexivity.
    + intros x y. apply Htie, Ht.
  - symmetry. apply sortBy_order_independent.
    + apply Permutation_map.
      rewrite (filter_ext _ (fun e => negb (JsMap.has (fst e)
                                                 (key_map keyFn target')))).
      * apply filter_Permutation_bool, key_map_Permutation; assumption.
      * intros e. unfold JsMap.has. rewrite Hget_t. reflexivity.
    + intros x y. apply Htie, Hs.
  - symmetry.
    rewrite (omap_ext_eq
               (fun e => match JsMap.get (fst e) (key_map keyFn target') with
                         | Some targetValue =>
                             if bool_decide (valueFn (snd e) = valueFn targetValue)
                             then None
                             else Some (ChangeEnvelope.mk (fst e)
                                          (Change.mk (valueFn (snd e))
                                                     (valueFn targetValue)))
                         | None => None
                         end)
               (fun e => match JsMap.get (fst e) (key_map keyFn target) with
                         | Some targetValue =>
                             if bool_decide (valueFn (snd e) = valueFn targetValue)
                             then None
                             else Some (ChangeEnvelope.mk (fst e)
                                          (Change.mk (valueFn (snd e))
                                                     (valueFn targetValue)))
                         | None => None
                         end))
      by (intros e; rewrite Hget_t; reflexivity).
    apply sortBy_order_independent.
    + apply omap_Permutation, key_map_Permutation; assumption.
    + intros x y Hx Hy E.
      apply list_elem_of_In, list_elem_of_omap in Hx as ([kx vx] & Hx & Fx).
      apply list_elem_of_In, list_elem_of_omap in Hy as ([ky vy] & Hy & Fy).
      apply list_elem_of_In, JsMapFacts.key_map_entry in Hx.
      apply list_elem_of_In, JsMapFacts.key_map_entry in Hy.
      cbn [fst snd] in Fx, Fy.
      destruct (JsMap.get kx (key_map keyFn target)) as [tx|] eqn:Etx;
        [|discriminate].
      destruct (JsMap.get ky (key_map keyFn target)) as [ty|] eqn:Ety;
        [|discriminate].
      repeat case_bool_decide; try discriminate.
      injection Fx as <-. injection Fy as <-. cbn in E. subst ky.
      congruence.
Qed.

Lemma diffCollection_order_independent_witness :
  diffCollection view_key View.definition [view_b; view_a] [view_c; view_b']
  = diffCollection view_key View.definition [view_a; view_b] [view_b'; view_c].
Proof.
  apply (diffCollection_order_independent view_key View.definition
           [view_a; view_b] [view_b; view_a] [view_b'; view_c] [view_c; view_b']).
  - repeat constructor; simpl; intuition discriminate.
  - repeat constructor; simpl; intuition discriminate.
  - apply perm_swap.
  - apply perm_swap.
Defined.

(** The comparators of one table: the lists do not depend on the order of
    either side when names are unique. *)
Lemma compare_by_name_order_independent {T C} (name : T -> jsstring)
    (diff : T -> T -> option C) (source source' target target' : list T) :
  List.NoDup (map name source) -> List.NoDup (map name target) ->
  Permutation source source' -> Permutation target target' ->
  compare_by_name name diff source' target'
  = compare_by_name name diff source target.
Proof.
  intros Hs Ht Ps Pt.
  assert (Hget_s : forall k, JsMap.get k (name_map name source')
                             = JsMap.get k (name_map name source))
    by (intros k; rewrite !JsMapFacts.name_map_key_map;
        apply key_map_get_Permutation; assumption).
  assert (Hget_t : forall k, JsMap.get k (name_map name target')
                             = JsMap.get k (name_map name target))
    by (intros k; rewrite !JsMapFacts.name_map_key_map;
        apply key_map_get_Permutation; assumption).
  unfold compare_by_name. f_equal.
  - symmetry. apply sortBy_order_independent.
    + rewrite (filter_ext _ (fun item => negb (JsMap.has (name item)
                                                 (name_map name source')))).
      * apply filter_Permutation_bool, Pt.
      * intros e. unfold JsMap.has. rewrite Hget_s. reflexivity.
    + intros x y Hx Hy. apply filter_In in Hx as [Hx _].
      apply filter_In in Hy as [Hy _].
      exact (unique_key_inj name target x y Ht Hx Hy).
  - symmetry. apply sortBy_order_independent.
    + rewrite (filter_ext _ (fun item => negb (JsMap.has (name item)
                                                 (name_map name target')))).
      * apply filter_Permutation_bool, Ps.
      * intros e. unfold JsMap.has. rewrite Hget_t. reflexivity.
    + intros x y Hx Hy. apply filter_In in Hx as [Hx _].
      apply filter_In in Hy as [Hy _].
      exact (unique_key_inj name source x y Hs Hx Hy).
  - symmetry.
    rewrite (omap_ext_eq
               (fun item =>
                  match JsMap.get (name item) (name_map name target') with
                  | Some counterpart =>
                      match diff item counterpart with
                      | Some change => Some (ChangeEnvelope.mk (name item) change)
                      | None => None
                      end
                  | None => None
                  end)
               (fun item =>
                  match JsMap.get (name item) (name_map name target) with
                  | Some counterpart =>
                      match diff item counterpart with
                      | Some change => Some (ChangeEnvelope.mk (name item) change)
                      | None => None
                      end
                  | None => None
                  end))
      by (intros e; rewrite Hget_t; reflexivity).
    apply sortBy_order_independent.
    + apply omap_Permutation, Ps.
    + intros x y Hx Hy E.
      apply list_elem_of_In, list_elem_of_omap in Hx as (ix & Hx & Fx).
      apply list_elem_of_In, list_elem_of_omap in Hy as (iy & Hy & Fy).
      apply list_elem_of_In in Hx, Hy.
      destruct (JsMap.get (name ix) (name_map name target)) as [tx|] eqn:Etx;
        [|discriminate].
      destruct (JsMap.get (name iy) (name_map name target)) as [ty|] eqn:Ety;
        [|discriminate].
      destruct (diff ix tx) as [cx|] eqn:Dx; [|discriminate].
      destruct (diff iy ty) as [cy|] eqn:Dy; [|discriminate].
      injection Fx as <-. injection Fy as <-. cbn in E.
      assert (ix = iy) by exact (unique_key_inj name source ix iy Hs Hx Hy E).
      subst iy. congruence.
Qed.

Lemma diffTable_is_Some_congr (source source' target target' : Table.t) :
  compareColumns source' target' = compareColumns source target ->
  compareIndexes (Table.indexes source') (Table.indexes target')
  = compareIndexes (Table.indexes source) (Table.indexes target) ->
  compareChecks (Table.checks source') (Table.checks target')
  = compareChecks (Table.checks source) (Table.checks target) ->
  compareForeignKeys (Table.fks source') (Table.fks target')
  = compareForeignKeys (Table.fks source) (Table.fks target) ->
  comparePrimaryKeys (Table.primaryKey source') (Table.primaryKey target')
  = comparePrimaryKeys (Table.primaryKey source) (Table.primaryKey target) ->
  is_Some (diffTable source' target') <-> is_Some (diffTable source target).
Proof.
  intros Hc Hi Hk Hf Hp. unfold diffTable. rewrite Hc, Hi, Hk, Hf, Hp.
  match goal with
  | |- is_Some (if negb ?h then _ else _) <-> _ => destruct (negb h)
  end.
  - split; intros [? H]; discriminate H.
  - split; intros _; eauto.
Qed.

(** X2.  Listing the columns, indexes, checks or foreign keys of either
    table in another order changes none of the lists the four comparators
    return, and so never produces or hides a table change, provided names
    are unique within each collection. *)
Theorem table_comparators_order_independent (source source' target target'
    : Table.t) :
  unique_names source -> unique_names target ->
  reordered source source' -> reordered target target' ->
  compareColumns source' target' = compareColumns source target
  /\ compareIndexes (Table.indexes source') (Table.indexes target')
     = compareIndexes (Table.indexes source) (Table.indexes target)
  /\ compareChecks (Table.checks source') (Table.checks target')
     = compareChecks (Table.checks source) (Table.checks target)
  /\ compareForeignKeys (Table.fks source') (Table.fks target')
     = compareForeignKeys (Table.fks source) (Table.fks target)
  /\ (is_Some (diffTable source' target') <-> is_Some (diffTable source target)).
Proof.
  intros (Uc & Ui & Uk & Uf) (Vc & Vi & Vk & Vf)
         (_ & Ppk & Pc & Pi & Pk & Pf) (_ & Qpk & Qc & Qi & Qk & Qf).
  assert (Hc : compareColumns source' target' = compareColumns source target)
    by (apply compare_by_name_order_independent; assumption).
  assert (Hi : compareIndexes (Table.indexes source') (Table.indexes target')
               = compareIndexes (Table.indexes source) (Table.indexes target))
    by (apply compare_by_name_order_independent; assumption).
  assert (Hk : compareChecks (Table.checks source') (Table.checks target')
               = compareChecks (Table.checks source) (Table.checks target))
    by (apply compare_by_name_order_independent; assumption).
  assert (Hf : compareForeignKeys (Table.fks source') (Table.fks target')
               = compareForeignKeys (Table.fks source) (Table.fks target))
    by (apply compare_by_name_order_independent; assumption).
  split; [exact Hc|]. split; [exact Hi|]. split; [exact Hk|].
  split; [exact Hf|].
  apply diffTable_is_Some_congr; try assumption. rewrite Ppk, Qpk. reflexivity.
Qed.

Lemma table_comparators_order_independent_witness :
  compareColumns (orders_table [col_total; col_id] [idx_id; idx_total])
                 (orders_table [col_total'; col_id] [idx_total])
  = compareColumns (orders_table [col_id; col_total] [idx_total; idx_id])
                   (orders_table [col_id; col_total'] [idx_total])
  /\ is_Some (diffTable (orders_table [col_total; col_id] [idx_id; idx_total])
                        (orders_table [col_total'; col_id] [idx_total])).
Proof.
  assert (U : forall cols idxs,
             List.NoDup (map Column.name cols) ->
             List.NoDup (map Index.name idxs) ->
             unique_names (orders_table cols idxs)).
  { intros cols idxs Hc Hi. repeat split; try assumption; constructor. }
  destruct (table_comparators_order_independent
              (orders_table [col_id; col_total] [idx_total; idx_id])
              (orders_table [col_total; col_id] [idx_id; idx_total])
              (orders_table [col_id; col_total'] [idx_total])
              (orders_table [col_total'; col_id] [idx_total]))
    as (Hc & _ & _ & _ & Hd).
  - apply U; repeat constructor; simpl; intuition discriminate.
  - apply U; repeat constructor; simpl; intuition discriminate.
  - repeat split; try reflexivity; apply perm_swap.
  - repeat split; try reflexivity; apply perm_swap.
  - split; [exact Hc|]. apply Hd. vm_compute. eauto.
Defined.

(** ** What the added, removed and changed lists hold *)

Lemma diffCollection_removed_keys {T} (keyFn valueFn : T -> jsstring)
    (source target : list T) (k : jsstring) :
  In k (map keyFn (Buckets.removed (diffCollection keyFn valueFn source target)))
  <-> In k (map keyFn source) /\ ~ In k (map keyFn target).
Proof. exact (diffCollection_added_keys keyFn valueFn target source k). Qed.

Lemma filtered_keys_NoDup {T} (keyFn : T -> jsstring) (l : list T)
    (p : jsstring * T -> bool) :
  List.NoDup (map keyFn (map snd (List.filter p (key_map keyFn l)))).
Proof.
  assert (H : forall m : JsMap.t T,
             List.NoDup (map fst m) ->
             (forall k v, In (k, v) m -> keyFn v = k) ->
             List.NoDup (map keyFn (map snd (List.filter p m)))).
  { induction m as [|[k v] m IH]; intros Hnd Hk; simpl; [constructor|].
    apply List.NoDup_cons_iff in Hnd as [Hn Hnd].
    assert (IH' : List.NoDup (map keyFn (map snd (List.filter p m))))
      by (apply IH; [exact Hnd | intros; apply Hk; now right]).
    destruct (p (k, v)); [|exact IH']. simpl. constructor; [|exact IH'].
    rewrite (Hk k v) by now left. intros Hin. apply Hn.
    apply in_map_iff in Hin as (x & Hx & Hin).
    apply in_map_iff in Hin as ([k' v'] & <- & Hin).
    apply filter_In in Hin as [Hin _]. simpl in Hx.
    rewrite (Hk k' v') in Hx by now right. subst k'.
    apply in_map_iff. exists (k, v'). auto. }
  apply H; [apply JsMapFacts.key_map_NoDup|].
  intros k v Hin. apply (key_map_values_In keyFn l k v Hin).
Qed.

(** X3.  For any two collections, [diffCollection] lists as added exactly
    the keys of the target that the source lacks, as removed exactly the
    keys of the source that the target lacks, and as changed only keys
    present on both sides; no key appears twice in the added or in the
    removed list, also when an input repeats a key. *)
Theorem diffCollection_partition {T} (keyFn valueFn : T -> jsstring)
    (source target : list T) :
  let d := diffCollection keyFn valueFn source target in
  (forall k, In k (map keyFn (Buckets.added d))
             <-> In k (map keyFn target) /\ ~ In k (map keyFn source))
  /\ (forall k, In k (map keyFn (Buckets.removed d))
                <-> In k (map keyFn source) /\ ~ In k (map keyFn target))
  /\ (forall k, In k (map ChangeEnvelope.name (Buckets.changed d))
                -> In k (map keyFn source) /\ In k (map keyFn target))
  /\ List.NoDup (map keyFn (Buckets.added d))
  /\ List.NoDup (map keyFn (Buckets.removed d)).
Proof.
  cbv zeta. split; [apply diffCollection_added_keys|].
  split; [apply diffCollection_removed_keys|]. split; [|split].
  - intros k Hin. apply in_map_iff in Hin as (e & <- & He).
    assert (Hex : exists e', In e' (Buckets.changed
                                     (diffCollection keyFn valueFn source target))
                             /\ ChangeEnvelope.name e' = ChangeEnvelope.name e)
      by eauto.
    apply diffCollection_changed in Hex as (v & tv & Hv & Htv & _).
    apply JsMapFacts.key_map_get in Hv as [E1 Hv].
    apply JsMapFacts.key_map_get in Htv as [E2 Htv].
    split; [rewrite <- E1; apply in_map, Hv|].
    rewrite <- E2. apply in_map, Htv.
  - unfold diffCollection. cbn [Buckets.added].
    eapply Permutation_NoDup;
      [ apply Permutation_map, Permutation_sym, sortBy_Permutation
      | apply filtered_keys_NoDup ].
  - unfold diffCollection. cbn [Buckets.removed].
    eapply Permutation_NoDup;
      [ apply Permutation_map, Permutation_sym, sortBy_Permutation
      | apply filtered_keys_NoDup ].
Qed.

(** ** A model compared with itself *)

Lemma filter_none {A} (p : A -> bool) (l : list A) :
  (forall x, In x l -> p x = false) -> List.filter p l = [].
Proof.
  induction l as [|x l IH]; intros H; simpl; [reflexivity|].
  rewrite (H x) by now left. apply IH. intros y Hy. apply H. now right.
Qed.

Lemma omap_none {A B} (f : A -> option B) (l : list A) :
  (forall x, In x l -> f x = None) -> omap f l = [].
Proof.
  induction l as [|x l IH]; intros H; [reflexivity|].
  cbn. rewrite (H x) by now left. apply IH. intros y Hy. apply H. now right.
Qed.

Lemma diffCollection_self {T} (keyFn valueFn : T -> jsstring) (l : list T) :
  diffCollection keyFn valueFn l l = Buckets.mk [] [] [].
Proof.
  unfold diffCollection.
  assert (Hf : List.filter (fun e => negb (JsMap.has (fst e) (key_map keyFn l)))
                           (key_map keyFn l) = []).
  { apply filter_none. intros [k v] Hin. cbn [fst].
    apply JsMapFacts.key_map_entry in Hin. unfold JsMap.has. rewrite Hin.
    reflexivity. }
  rewrite Hf. rewrite omap_none; [reflexivity|].
  intros [k v] Hin. cbn [fst snd].
  apply JsMapFacts.key_map_entry in Hin. rewrite Hin.
  rewrite bool_decide_eq_true_2 by reflexivity. reflexivity.
Qed.

Lemma name_map_get_own {T} (name : T -> jsstring) (l : list T) x :
  List.NoDup (map name l) -> In x l ->
  JsMap.get (name x) (name_map name l) = Some x.
Proof. rewrite JsMapFacts.name_map_key_map. apply key_map_get_own. Qed.

Lemma compare_by_name_self {T C} (name : T -> jsstring)
    (diff : T -> T -> option C) (l : list T) :
  List.NoDup (map name l) -> (forall x, diff x x = None) ->
  compare_by_name name diff l l = Buckets.mk [] [] [].
Proof.
  intros Hnd Hd. unfold compare_by_name.
  assert (Hf : List.filter (fun item => negb (JsMap.has (name item)
                                                (name_map name l))) l = []).
  { apply filter_none. intros x Hx. unfold JsMap.has.
    rewrite (name_map_get_own name l x Hnd Hx). reflexivity. }
  rewrite Hf. rewrite omap_none; [reflexivity|].
  intros x Hx. rewrite (name_map_get_own name l x Hnd Hx), Hd. reflexivity.
Qed.

Lemma diffColumn_self c : diffColumn c c = None.
Proof.
  destruct (diffColumn c c) eqn:E; [|reflexivity].
  assert (H : is_Some (diffColumn c c)) by (rewrite E; eauto).
  apply diffColumn_Some_iff in H. unfold columns_differ in H. tauto.
Qed.

Lemma comparePrimaryKeys_self pk : comparePrimaryKeys pk pk = None.
Proof.
  destruct pk as [pk|]; simpl; [|reflexivity].
  rewrite bool_decide_eq_true_2 by reflexivity. reflexivity.
Qed.

Lemma diffTable_self t : unique_names t -> diffTable t t = None.
Proof.
  intros (Hc & Hi & Hk & Hf). unfold diffTable.
  unfold compareColumns, compareIndexes, compareChecks, compareForeignKeys.
  rewrite (compare_by_name_self Column.name) by (auto using diffColumn_self).
  rewrite (compare_by_name_self Index.name)
    by (auto; intros x; rewrite bool_decide_eq_true_2 by reflexivity;
        reflexivity).
  rewrite (compare_by_name_self Check.name)
    by (auto; intros x; rewrite bool_decide_eq_true_2 by reflexivity;
        reflexivity).
  rewrite (compare_by_name_self ForeignKey.name)
    by (auto; intros x; rewrite bool_decide_eq_true_2 by reflexivity;
        reflexivity).
  rewrite comparePrimaryKeys_self. reflexivity.
Qed.

(** X4.  Comparing a model with itself gives the empty diff result, provided
    table names are unique and, within every table, column, index, check
    and foreign-key names are unique; views, routines and triggers need no
    such condition. *)
Theorem computeDiff_self_empty (m : SchemaModel.t) :
  List.NoDup (map Table.name (SchemaModel.tables m)) ->
  (forall t, In t (SchemaModel.tables m) -> unique_names t) ->
  computeDiff m m = empty_diff.
Proof.
  intros Hnd Hu. unfold computeDiff, empty_diff.
  rewrite !diffCollection_self. f_equal.
  unfold diffTables.
  assert (Hf : List.filter
                 (fun table => negb (JsMap.has (Table.name table)
                                       (name_map Table.name
                                                 (SchemaModel.tables m))))
                 (SchemaModel.tables m) = []).
  { apply filter_none. intros x Hx. unfold JsMap.has.
    rewrite (name_map_get_own Table.name _ x Hnd Hx). reflexivity. }
  rewrite Hf. rewrite omap_none; [reflexivity|].
  intros x Hx. rewrite (name_map_get_own Table.name _ x Hnd Hx).
  apply diffTable_self, Hu, Hx.
Qed.

Lemma computeDiff_self_empty_witness :
  computeDiff sample_model sample_model = empty_diff.
Proof.
  apply (computeDiff_self_empty sample_model).
  - repeat constructor; simpl; intuition discriminate.
  - intros t [<-|[]].
    repeat split; repeat constructor; simpl; intuition discriminate.
Defined.

(** ** Index, foreign-key and primary-key equality *)

Lemma sortBy_id_eq_iff (l1 l2 : list jsstring) :
  sortBy id l1 = sortBy id l2 <-> Permutation l1 l2.
Proof.
  split.
  - intros H. rewrite <- (sortBy_Permutation id l1), H.
    apply sortBy_Permutation.
  - intros H. apply sortBy_order_independent; [exact H | auto].
Qed.

Lemma normalizeIndex_eq_iff i1 i2 :
  normalizeIndex i1 = normalizeIndex i2 <-> index_equivalent i1 i2.
Proof.
  unfold normalizeIndex, index_equivalent. rewrite <- sortBy_id_eq_iff. split.
  - intros [= -> -> ->]. auto.
  - intros (-> & -> & ->). reflexivity.
Qed.

Lemma normalizeForeignKey_eq_iff f1 f2 :
  normalizeForeignKey f1 = normalizeForeignKey f2 <-> fk_equivalent f1 f2.
Proof.
  unfold normalizeForeignKey, fk_equivalent. rewrite <- !sortBy_id_eq_iff. split.
  - intros [= -> -> -> -> ->]. auto.
  - intros (-> & -> & -> & -> & ->). reflexivity.
Qed.

(** X5.  For an index of the source and the index the target holds under
    the same name, [compareIndexes] reports a change exactly when the two
    differ in uniqueness, in access method compared without case, or in
    their column lists compared without case and without order; the order
    of the columns of an index is never a difference. *)
Theorem compareIndexes_change_iff (source target : list Index.t)
    (i1 i2 : Index.t) :
  In i1 source ->
  JsMap.get (Index.name i1) (name_map Index.name target) = Some i2 ->
  In (ChangeEnvelope.mk (Index.name i1) (Change.mk i1 i2))
     (Buckets.changed (compareIndexes source target))
  <-> ~ index_equivalent i1 i2.
Proof.
  intros Hin Hget. unfold compareIndexes.
  rewrite compare_by_name_changed, <- normalizeIndex_eq_iff. split.
  - intros (item & cp & _ & _ & Hd & _) Heq. cbn in Hd.
    case_bool_decide as Hb; [discriminate|]. injection Hd as -> ->.
    exact (Hb Heq).
  - intros Hne. exists i1, i2. repeat split; try assumption.
    rewrite bool_decide_eq_false_2 by exact Hne. reflexivity.
Qed.

Lemma compareIndexes_change_iff_witness :
  ~ In (ChangeEnvelope.mk (Index.name idx_email_ab)
                          (Change.mk idx_email_ab idx_email_ba))
       (Buckets.changed (compareIndexes [idx_email_ab] [idx_email_ba])).
Proof.
  intros H.
  apply (compareIndexes_change_iff [idx_email_ab] [idx_email_ba]
           idx_email_ab idx_email_ba) in H.
  - apply H. repeat split. apply perm_swap.
  - simpl. left. reflexivity.
  - vm_compute. reflexivity.
Defined.

(** X6.  For a foreign key of the source and the one the target holds under
    the same name, [compareForeignKeys] reports a change exactly when they
    differ in the local columns or the referenced columns (each compared
    without case and without order), in the referenced table compared
    without case, or in an action compared without case. *)
Theorem compareForeignKeys_change_iff (source target : list ForeignKey.t)
    (f1 f2 : ForeignKey.t) :
  In f1 source ->
  JsMap.get (ForeignKey.name f1) (name_map ForeignKey.name target) = Some f2 ->
  In (ChangeEnvelope.mk (ForeignKey.name f1) (Change.mk f1 f2))
     (Buckets.changed (compareForeignKeys source target))
  <-> ~ fk_equivalent f1 f2.
Proof.
  intros Hin Hget. unfold compareForeignKeys.
  rewrite compare_by_name_changed, <- normalizeForeignKey_eq_iff. split.
  - intros (item & cp & _ & _ & Hd & _) Heq. cbn in Hd.
    case_bool_decide as Hb; [discriminate|]. injection Hd as -> ->.
    exact (Hb Heq).
  - intros Hne. exists f1, f2. repeat split; try assumption.
    rewrite bool_decide_eq_false_2 by exact Hne. reflexivity.
Qed.

Lemma compareForeignKeys_change_iff_witness :
  In (ChangeEnvelope.mk (str "fk_owner")
        (Change.mk (fk_owner [str "owner_id"] [str "id"] None)
                   (fk_owner [str "owner_id"] [str "id"] (Some (str "cascade")))))
     (Buckets.changed
        (compareForeignKeys
           [fk_owner [str "owner_id"] [str "id"] None]
           [fk_owner [str "owner_id"] [str "id"] (Some (str "cascade"))])).
Proof.
  apply (compareForeignKeys_change_iff
           [fk_owner [str "owner_id"] [str "id"] None]
           [fk_owner [str "owner_id"] [str "id"] (Some (str "cascade"))]
           (fk_owner [str "owner_id"] [str "id"] None)
           (fk_owner [str "owner_id"] [str "id"] (Some (str "cascade")))).
  - simpl. left. reflexivity.
  - vm_compute. reflexivity.
  - intros (_ & _ & _ & _ & H). discriminate H.
Defined.

(** X7.  [comparePrimaryKeys] reports no change exactly when both sides
    lack a primary key or both have one over the same columns in any order;
    the constraint name is not compared, and a key present on one side only
    is always a change. *)
Theorem comparePrimaryKeys_None_iff (source target : option PrimaryKey.t) :
  comparePrimaryKeys source target = None
  <-> match source, target with
      | None, None => True
      | Some s, Some t =>
          Permutation (PrimaryKey.columns s) (PrimaryKey.columns t)
      | _, _ => False
      end.
Proof.
  destruct source as [s|], target as [t|]; simpl.
  - rewrite <- sortBy_id_eq_iff. case_bool_decide; split; try tauto;
      discriminate.
  - split; [discriminate | tauto].
  - split; [discriminate | tauto].
  - tauto.
Qed.

(** ** Default expressions *)

Lemma trimEnd_snoc_not_space (l : jsstring) (c : ascii) :
  is_space c = false -> trimEnd (l ++ [c]) = l ++ [c].
Proof.
  intros Hc. induction l as [|x l IH]; simpl.
  - rewrite Hc. reflexivity.
  - rewrite IH. destruct (l ++ [c]) eqn:E; [|reflexivity].
    destruct l; discriminate E.
Qed.

Lemma startsWith_cons c s : startsWith [c] (c :: s) = true.
Proof. simpl. rewrite Ascii.eqb_refl. reflexivity. Qed.

Lemma endsWith_snoc c s : endsWith [c] (s ++ [c]) = true.
Proof. unfold endsWith. rewrite rev_app_distr. apply startsWith_cons. Qed.

Lemma wrapped_trim (s : jsstring) :
  trim (str "(" ++ s ++ str ")") = str "(" ++ s ++ str ")".
Proof.
  unfold trim. cbn [str list_ascii_of_string app trimStart].
  change (is_space "(") with false. cbv iota.
  change ("("%char :: s ++ [")"%char]) with (("("%char :: s) ++ [")"%char]).
  apply trimEnd_snoc_not_space. reflexivity.
Qed.

Lemma wrapped_strip (fuel : nat) (s : jsstring) :
  truthy (trim s) = true ->
  stripParens (S fuel) (str "(" ++ s ++ str ")") = stripParens fuel (trim s).
Proof.
  intros Ht. cbn [stripParens].
  assert (H1 : startsWith (str "(") (str "(" ++ s ++ str ")") = true)
    by apply startsWith_cons.
  assert (H2 : endsWith (str ")") (str "(" ++ s ++ str ")") = true).
  { change (str "(" ++ s ++ str ")") with (("("%char :: s) ++ [")"%char]).
    apply endsWith_snoc. }
  assert (H3 : slice_1_m1 (str "(" ++ s ++ str ")") = s).
  { unfold slice_1_m1. cbn [str list_ascii_of_string app tl].
    apply removelast_last. }
  rewrite H1, H2, H3, Ht. reflexivity.
Qed.

(** X8.  For a default expression that is not blank, [normalizeDefault]
    ignores surrounding white space and one more pair of wrapping
    parentheses: the text, the trimmed text and the text in parentheses all
    normalize to the same value. *)
Theorem normalizeDefault_ignores_wrapping (s : jsstring) :
  truthy (trim s) = true ->
  normalizeDefault (Val (trim s)) = normalizeDefault (Val s)
  /\ normalizeDefault (Val (str "(" ++ s ++ str ")")) = normalizeDefault (Val s).
Proof.
  intros Ht. split.
  - unfold normalizeDefault. rewrite trim_idem, Ht. reflexivity.
  - unfold normalizeDefault. rewrite wrapped_trim, Ht.
    change (truthy (str "(" ++ s ++ str ")")) with true. cbv iota.
    assert (E : stripParens (List.length (str "(" ++ s ++ str ")"))
                            (str "(" ++ s ++ str ")")
                = stripParens (List.length (trim s)) (trim s)).
    { change (List.length (str "(" ++ s ++ str ")"))
        with (S (List.length (s ++ str ")"))).
      rewrite wrapped_strip by exact Ht.
      apply stripParens_fuel; [|lia].
      rewrite length_app. pose proof (trim_length s). lia. }
    rewrite E. reflexivity.
Qed.

Lemma normalizeDefault_ignores_wrapping_witness :
  normalizeDefault (Val (trim (str "  (Now())  ")))
  = normalizeDefault (Val (str "  (Now())  "))
  /\ normalizeDefault (Val (str "(" ++ str "  (Now())  " ++ str ")"))
     = normalizeDefault (Val (str "  (Now())  ")).
Proof.
  apply (normalizeDefault_ignores_wrapping (str "  (Now())  ")). reflexivity.
Defined.

(** X9.  The value [normalizeDefault] returns for a non-blank text is
    never padded with white space, never empty, never a text in wrapping
    parentheses with something non-blank inside, and never a spelling of
    [now()]; a blank text, [null] and [undefined] are returned as they
    are. *)
Theorem normalizeDefault_result (value : jsopt jsstring) :
  match value with
  | Val s =>
      if truthy (trim s)
      then exists r, normalizeDefault value = Val r
                     /\ trim r = r /\ truthy r = true
                     /\ loop_done r = true
                     /\ toLowerCase r <> str "now()"
      else normalizeDefault value = value
  | _ => normalizeDefault value = value
  end.
Proof.
  destruct value as [| |s]; try reflexivity.
  destruct (truthy (trim s)) eqn:Et.
  - unfold normalizeDefault. rewrite Et.
    destruct (jsstring_eqb
                (toLowerCase (stripParens (List.length (trim s)) (trim s)))
                (str "now()")) eqn:En.
    + exists (str "CURRENT_TIMESTAMP"). repeat split. discriminate.
    + exists (stripParens (List.length (trim s)) (trim s)).
      split; [reflexivity|]. split; [apply stripParens_trimmed, trim_idem|].
      split; [apply stripParens_truthy, Et|].
      split; [apply stripParens_done; lia|].
      apply jsstring_eqb_neq, En.
  - unfold normalizeDefault. rewrite Et. reflexivity.
Qed.

(** ** Check expressions *)

Lemma collapse_ws_fixed_shape b (r : jsstring) :
  collapse_ws b r = r ->
  (forall c, In c r -> is_space c = true -> c = " "%char)
  /\ (forall pre post, r <> pre ++ " "%char :: " "%char :: post).
Proof.
  revert b. induction r as [|c r IH]; intros b H.
  - split; [intros c []|]. intros [|? ?] post E; discriminate E.
  - destruct (is_space c) eqn:Ec.
    + destruct b; [exfalso; exact (collapse_ws_true_fixed c r Ec H)|].
      apply collapse_ws_false_fixed in H as [-> H]; [|exact Ec].
      destruct (IH true H) as [IH1 IH2]. split.
      * intros x [<-|Hx] Hs; [reflexivity | auto].
      * intros [|p pre] post E.
        -- injection E as E. subst r.
           exact (collapse_ws_true_fixed " "%char post is_space_space H).
        -- injection E as _ E. exact (IH2 pre post E).
    + rewrite collapse_ws_not_space in H by exact Ec. injection H as H.
      destruct (IH false H) as [IH1 IH2]. split.
      * intros x [<-|Hx] Hs; [congruence | auto].
      * intros [|p pre] post E.
        -- injection E as -> _. discriminate Ec.
        -- injection E as _ E. exact (IH2 pre post E).
Qed.

(** X10.  A check expression normalized by [normalizeExpression] has no
    white space at either end, no white-space character other than the
    space, and no two spaces in a row. *)
Theorem normalizeExpression_shape (expression : jsstring) :
  let r := normalizeExpression expression in
  trim r = r
  /\ (forall c, In c r -> is_space c = true -> c = " "%char)
  /\ (forall pre post, r <> pre ++ " "%char :: " "%char :: post).
Proof.
  cbv zeta. split.
  - unfold normalizeExpression. apply trim_idem.
  - apply (collapse_ws_fixed_shape false). unfold normalizeExpression, trim.
    apply collapse_ws_trimEnd, (collapse_ws_trimStart false), collapse_ws_idem.
Qed.

(** ** Canonical types *)

Lemma lower_upper_char c : lower_char (upper_char c) = lower_char c.
Proof. each_char c; reflexivity. Qed.

Lemma upper_lower_char c : upper_char (lower_char c) = upper_char c.
Proof. each_char c; reflexivity. Qed.

Lemma toLowerCase_toUpperCase s : toLowerCase (toUpperCase s) = toLowerCase s.
Proof.
  unfold toLowerCase, toUpperCase. rewrite map_map.
  apply map_ext, lower_upper_char.
Qed.

Lemma DEFAULT_TYPE_MAPPINGS_lowercase :
  map_Forall (fun _ t => toLowerCase t = t) DEFAULT_TYPE_MAPPINGS.
Proof. apply (bool_decide_unpack _). vm_compute. exact I. Qed.

Lemma DEFAULT_TYPE_MAPPINGS_own_keys :
  DEFAULT_TYPE_MAPPINGS !! str "constructor" = None
  /\ DEFAULT_TYPE_MAPPINGS !! str "__proto__" = None.
Proof. split; vm_compute; reflexivity. Qed.

(** X11.  Without a user type map, the data type of a normalized column
    depends only on the lower-case spelling of the input type: spellings that
    differ in case normalize alike.  It is a string in lower case, except
    for the spellings of [constructor] and of [__proto__]: there, and only
    there, it is the object the mapper inherits under that name. *)
Theorem normalizeColumn_type_canonical (column : Column.t)
    (options : NormalizationOptions.t) :
  no_user_map options ->
  let t := NormalizedColumn.dataType
             (normalizeColumn column (merged_mapper options) options) in
  match t with
  | StringType s =>
      toLowerCase s = s
      /\ toLowerCase (Column.dataType column) <> str "constructor"
      /\ toLowerCase (Column.dataType column) <> str "__proto__"
  | InheritedType o =>
      toLowerCase (Column.dataType column) = inherited_name o
  end
  /\ forall column',
       toLowerCase (Column.dataType column') = toLowerCase (Column.dataType column) ->
       NormalizedColumn.dataType
         (normalizeColumn column' (merged_mapper options) options)
       = t.
Proof.
  intros Hno. cbv zeta. unfold merged_mapper. rewrite Hno.
  unfold normalizeColumn. cbn [NormalizedColumn.dataType]. unfold mapType.
  split; [|intros column' H; rewrite H; reflexivity].
  destruct (DEFAULT_TYPE_MAPPINGS !! toLowerCase (Column.dataType column))
    as [t|] eqn:E.
  - split; [exact (DEFAULT_TYPE_MAPPINGS_lowercase _ _ E)|].
    destruct DEFAULT_TYPE_MAPPINGS_own_keys as [Hc Hp].
    split; intros H; rewrite H in E; congruence.
  - unfold inherited_property.
    destruct (jsstring_eqb (toLowerCase (Column.dataType column))
                           (str "constructor")) eqn:E1.
    { apply jsstring_eqb_eq, E1. }
    destruct (jsstring_eqb (toLowerCase (Column.dataType column))
                           (str "__proto__")) eqn:E2.
    { apply jsstring_eqb_eq, E2. }
    split; [apply toLowerCase_idem|].
    split; [apply jsstring_eqb_neq, E1 | apply jsstring_eqb_neq, E2].
Qed.

Lemma normalizeColumn_type_canonical_witness :
  NormalizedColumn.dataType
    (normalizeColumn (plain_column "n" "INTEGER" None true Undefined Undefined)
                     (merged_mapper default_options) default_options)
  = StringType (str "int")
  /\ NormalizedColumn.dataType
       (normalizeColumn (plain_column "m" "Integer" None true Undefined Undefined)
                        (merged_mapper default_options) default_options)
     = StringType (str "int").
Proof.
  split; [reflexivity|].
  refine (proj2 (normalizeColumn_type_canonical
                   (plain_column "n" "INTEGER" None true Undefined Undefined)
                   default_options _) _ _); reflexivity.
Defined.

(** ** What normalization leaves alone *)

(** X12.  [normalizeSchemaModel] only reorders views, routines and
    triggers: each of the three lists is a permutation of the input list, so
    their names and definitions are neither case-folded nor rewritten; the
    result lists are sorted by the lower-case key, and the tables keep their
    number and order. *)
Theorem normalizeSchemaModel_objects_untouched (model : SchemaModel.t)
    (options : NormalizationOptions.t) :
  let n := normalizeSchemaModel model options in
  Permutation (NormalizedModel.views n) (SchemaModel.views model)
  /\ Permutation (NormalizedModel.routines n) (SchemaModel.routines model)
  /\ Permutation (NormalizedModel.triggers n) (SchemaModel.triggers model)
  /\ sorted_by (fun v => toLowerCase (View.name v)) (NormalizedModel.views n) = true
  /\ sorted_by (fun r => toLowerCase (Routine.name r)) (NormalizedModel.routines n)
     = true
  /\ sorted_by (fun t => toLowerCase (trigger_key t)) (NormalizedModel.triggers n)
     = true
  /\ map NormalizedTable.name (NormalizedModel.tables n)
     = map (fun t => normalizeName (Table.name t) options)
           (SchemaModel.tables model).
Proof.
  cbv zeta. unfold normalizeSchemaModel.
  cbn [NormalizedModel.views NormalizedModel.routines
       NormalizedModel.triggers NormalizedModel.tables].
  repeat split; try apply sortBy_Permutation; try apply sortBy_sorted.
  rewrite map_map. reflexivity.
Qed.

(** ** The generators: transaction bracket and empty scripts *)

Lemma endsWith_app (p s : jsstring) : endsWith p (s ++ p) = true.
Proof. unfold endsWith. rewrite rev_app_distr. apply startsWith_app. Qed.

Lemma join_head (sep x : jsstring) (rest : list jsstring) :
  exists tail, join sep (x :: rest) = x ++ tail.
Proof.
  destruct rest as [|y rest].
  - exists []. simpl. rewrite app_nil_r. reflexivity.
  - eexists. reflexivity.
Qed.

Lemma join_last (sep y : jsstring) (l : list jsstring) :
  exists front, join sep (l ++ [y]) = front ++ y.
Proof.
  induction l as [|x l [front IH]].
  - exists []. reflexivity.
  - destruct l as [|z l].
    + exists (x ++ sep). simpl. rewrite <- app_assoc. reflexivity.
    + exists (x ++ sep ++ front).
      change (join sep ((x :: z :: l) ++ [y]))
        with (x ++ sep ++ join sep ((z :: l) ++ [y])).
      rewrite IH, <- !app_assoc. reflexivity.
Qed.

Lemma statements_in_transaction dialect diff opts :
  GenOptions.withTransaction opts = true ->
  exists middle,
    statements (script_lines dialect diff opts)
    = transaction_opener dialect :: middle ++ [str "COMMIT;"].
Proof.
  intros Hw. rewrite script_lines_flat, !statements_app.
  unfold opener_lines, commit_lines. rewrite Hw.
  rewrite (statements_visible [transaction_opener dialect])
    by (constructor; [destruct dialect; reflexivity | constructor]).
  rewrite (statements_visible [str "COMMIT;"])
    by (constructor; [reflexivity | constructor]).
  eexists. cbn [app]. rewrite app_assoc. reflexivity.
Qed.

(** X13.  With [withTransaction] on, the script of [toPostgres] begins
    with [BEGIN;] and that of [toMariaDB] with [START TRANSACTION;], and both
    end with [COMMIT;], whatever the diff, the other options and the line
    separator. *)
Theorem transaction_bracket (EOL : jsstring) (diff : DiffResult.t)
    (opts : GenOptions.t) :
  GenOptions.withTransaction opts = true ->
  startsWith (str "BEGIN;") (toPostgres EOL diff opts) = true
  /\ endsWith (str "COMMIT;") (toPostgres EOL diff opts) = true
  /\ startsWith (str "START TRANSACTION;") (toMariaDB EOL diff opts) = true
  /\ endsWith (str "COMMIT;") (toMariaDB EOL diff opts) = true.
Proof.
  intros Hw. unfold toPostgres, toMariaDB.
  destruct (statements_in_transaction postgres diff opts Hw) as [m1 ->].
  destruct (statements_in_transaction mariadb diff opts Hw) as [m2 ->].
  repeat split.
  - destruct (join_head (EOL ++ EOL) (transaction_opener postgres)
                        (m1 ++ [str "COMMIT;"])) as [t ->].
    apply startsWith_app.
  - change (transaction_opener postgres :: m1 ++ [str "COMMIT;"])
      with ((transaction_opener postgres :: m1) ++ [str "COMMIT;"]).
    destruct (join_last (EOL ++ EOL) (str "COMMIT;")
                        (transaction_opener postgres :: m1)) as [f ->].
    apply endsWith_app.
  - destruct (join_head (EOL ++ EOL) (transaction_opener mariadb)
                        (m2 ++ [str "COMMIT;"])) as [t ->].
    apply startsWith_app.
  - change (transaction_opener mariadb :: m2 ++ [str "COMMIT;"])
      with ((transaction_opener mariadb :: m2) ++ [str "COMMIT;"]).
    destruct (join_last (EOL ++ EOL) (str "COMMIT;")
                        (transaction_opener mariadb :: m2)) as [f ->].
    apply endsWith_app.
Qed.

Lemma transaction_bracket_witness :
  startsWith (str "BEGIN;") (toPostgres [LF] cleanup_diff safe_AtoB) = true
  /\ endsWith (str "COMMIT;") (toPostgres [LF] cleanup_diff safe_AtoB) = true
  /\ startsWith (str "START TRANSACTION;")
                (toMariaDB [LF] cleanup_diff safe_AtoB) = true
  /\ endsWith (str "COMMIT;") (toMariaDB [LF] cleanup_diff safe_AtoB) = true.
Proof.
  apply (transaction_bracket [LF] cleanup_diff safe_AtoB). reflexivity.
Defined.

Lemma empty_diff_script (EOL : jsstring) (dialect : Dialect)
    (opts : GenOptions.t) :
  join (EOL ++ EOL) (statements (script_lines dialect empty_diff opts))
  = bracket_only EOL dialect opts.
Proof.
  rewrite script_lines_flat.
  assert (Hb : body_lines dialect empty_diff opts = []).
  { unfold body_lines, view_lines, routine_lines, trigger_lines, planTables,
      drop_views, create_views, drop_routines, create_routines,
      drop_triggers, create_triggers.
    destruct (GenOptions.direction opts); reflexivity. }
  assert (Hd : nonempty (Plan.toDrop (planTables empty_diff opts)) = false).
  { unfold planTables. destruct (GenOptions.direction opts); reflexivity. }
  rewrite Hb, Hd, andb_false_r. cbn [app].
  unfold opener_lines, commit_lines, bracket_only.
  destruct (GenOptions.withTransaction opts); [|reflexivity].
  rewrite statements_visible
    by (repeat constructor; destruct dialect; reflexivity).
  cbn [app join]. rewrite <- app_assoc. reflexivity.
Qed.

(** X14.  For a model whose names are unique, the script generated from
    the diff of the model with itself holds no statement: it is empty, or
    just the transaction opener and [COMMIT;] when [withTransaction] is
    on. *)
Theorem unchanged_model_script (EOL : jsstring) (m : SchemaModel.t)
    (opts : GenOptions.t) :
  List.NoDup (map Table.name (SchemaModel.tables m)) ->
  (forall t, In t (SchemaModel.tables m) -> unique_names t) ->
  toPostgres EOL (computeDiff m m) opts = bracket_only EOL postgres opts
  /\ toMariaDB EOL (computeDiff m m) opts = bracket_only EOL mariadb opts.
Proof.
  intros Hnd Hu. rewrite (computeDiff_self_empty m Hnd Hu).
  split; apply empty_diff_script.
Qed.

Lemma unchanged_model_script_witness :
  toPostgres [LF] (computeDiff sample_model sample_model) safe_AtoB
  = bracket_only [LF] postgres safe_AtoB
  /\ toMariaDB [LF] (computeDiff sample_model sample_model) safe_AtoB
     = bracket_only [LF] mariadb safe_AtoB.
Proof.
  apply (unchanged_model_script [LF] sample_model safe_AtoB).
  - repeat constructor; simpl; intuition discriminate.
  - intros t [<-|[]].
    repeat split; repeat constructor; simpl; intuition discriminate.
Defined.

(** ** The generators: order of emission *)

(** X15.  The lines of a script come in a fixed order: the transaction
    opener, the safe-mode banner, the table drops, the table creates, then
    for each changed table in diff order its column drops, column adds,
    column alters, index drops and index creates, then for views, routines
    and triggers in turn the drops, the creates and the TODO markers, and
    last [COMMIT;]. *)
Theorem script_emission_order (dialect : Dialect) (diff : DiffResult.t)
    (opts : GenOptions.t) :
  let plan := planTables diff opts in
  script_lines dialect diff opts
  = (if GenOptions.withTransaction opts then [transaction_opener dialect]
     else [])
    ++ (if GenOptions.safeMode opts && nonempty (Plan.toDrop plan)
        then [SAFE_MODE_BANNER] else [])
    ++ (map (fun table => guard_drop opts (drop_table_stmt dialect opts table))
            (Plan.toDrop plan)
        ++ map (create_table_stmt dialect) (Plan.toCreate plan)
        ++ flat_map
             (fun p =>
                let tableName :=
                  quote_for dialect (Table.name (TableChangePlan.table p)) in
                map (fun column =>
                       guard_drop opts
                         (drop_column_stmt dialect opts tableName column))
                    (TableChangePlan.dropColumns p)
                ++ map (add_column_stmt dialect tableName)
                       (TableChangePlan.addColumns p)
                ++ flat_map (fun alteration =>
                               map (alter_stmt tableName)
                                   (Alteration.change alteration))
                            (TableChangePlan.alterColumns p)
                ++ map (fun index =>
                          guard_drop opts
                            (drop_index_stmt dialect opts tableName index))
                       (TableChangePlan.dropIndexes p)
                ++ map (create_index_stmt dialect
                          (Table.name (TableChangePlan.table p)))
                       (TableChangePlan.createIndexes p))
             (Plan.tablePlans plan)
        ++ (map (fun view => guard_drop opts (drop_view_stmt dialect opts view))
                (drop_views diff opts)
            ++ map (create_view_stmt dialect) (create_views diff opts)
            ++ map view_todo (Buckets.changed (DiffResult.views diff)))
        ++ (map (fun routine =>
                   guard_drop opts (drop_routine_stmt dialect opts routine))
                (drop_routines diff opts)
            ++ flat_map (fun routine =>
                           [routine_header routine;
                            trim (Routine.definition routine)])
                        (create_routines diff opts)
            ++ map routine_todo (Buckets.changed (DiffResult.routines diff)))
        ++ (map (fun trigger =>
                   guard_drop opts (drop_trigger_stmt dialect opts trigger))
                (drop_triggers diff opts)
            ++ flat_map (fun trigger =>
                           [trigger_header trigger;
                            trim (Trigger.definition trigger)])
                        (create_triggers diff opts)
            ++ map trigger_todo (Buckets.changed (DiffResult.triggers diff))))
    ++ (if GenOptions.withTransaction opts then [str "COMMIT;"] else []).
Proof. cbv zeta. apply script_lines_flat. Qed.

(** ** The generators: what the script does not depend on *)

Lemma buildTablePlan_planned_part change direction :
  buildTablePlan (planned_part change) direction
  = buildTablePlan change direction.
Proof. reflexivity. Qed.

(** X16.  The script is built from the added, removed and changed columns
    and the added and removed indexes of a table change only: changed
    indexes, checks, foreign keys and the primary-key change of a diff
    result never add, remove or alter a line. *)
Theorem script_ignores_unplanned_changes (dialect : Dialect)
    (diff : DiffResult.t) (opts : GenOptions.t) :
  script_lines dialect (planned_diff diff) opts
  = script_lines dialect diff opts.
Proof.
  unfold script_lines.
  assert (H : planTables (planned_diff diff) opts = planTables diff opts).
  { unfold planTables, planned_diff.
    cbn [DiffResult.tables Buckets.added Buckets.removed Buckets.changed].
    rewrite map_map. reflexivity. }
  rewrite H. reflexivity.
Qed.

(** ** The generators: safe mode on and off *)

(** X17.  Switching [safeMode] changes a script in two ways only: with it
    on, every destructive statement carries the prefix [-- ] and the banner
    is added when tables are dropped; every other line, and the order of all
    lines, is the same as with it off, where no banner is emitted. *)
Theorem safe_mode_only_prefixes_drops (dialect : Dialect)
    (diff : DiffResult.t) (opts : GenOptions.t) :
  let tagged := body_tagged dialect diff opts in
  let off := with_safeMode opts false in
  let on := with_safeMode opts true in
  script_lines dialect diff off
  = opener_lines dialect opts ++ map snd tagged ++ commit_lines opts
  /\ script_lines dialect diff on
     = opener_lines dialect opts
       ++ (if nonempty (Plan.toDrop (planTables diff opts))
           then [SAFE_MODE_BANNER] else [])
       ++ map (fun t : bool * jsstring =>
                 if fst t then str "-- " ++ snd t else snd t) tagged
       ++ commit_lines opts.
Proof.
  cbv zeta.
  assert (Ht : forall b, body_tagged dialect diff (with_safeMode opts b)
                         = body_tagged dialect diff opts) by reflexivity.
  assert (Hp : forall b, planTables diff (with_safeMode opts b)
                         = planTables diff opts) by reflexivity.
  rewrite !script_lines_flat, !body_lines_tagged, !Ht, !Hp.
  change (opener_lines dialect (with_safeMode opts false))
    with (opener_lines dialect opts).
  change (opener_lines dialect (with_safeMode opts true))
    with (opener_lines dialect opts).
  change (commit_lines (with_safeMode opts false)) with (commit_lines opts).
  change (commit_lines (with_safeMode opts true)) with (commit_lines opts).
  cbn [GenOptions.safeMode with_safeMode andb app].
  rewrite (map_ext (render_tagged (with_safeMode opts false)) snd)
    by (intros [tag text]; destruct tag; reflexivity).
  rewrite (map_ext (render_tagged (with_safeMode opts true))
                   (fun t : bool * jsstring =>
                      if fst t then str "-- " ++ snd t else snd t))
    by (intros [tag text]; destruct tag; reflexivity).
  split; reflexivity.
Qed.

(** ** Identifier quoting *)

Lemma doubling_inj (c : ascii) (s1 s2 : jsstring) :
  replaceAll c [c; c] s1 = replaceAll c [c; c] s2 -> s1 = s2.
Proof.
  unfold replaceAll. revert s2.
  induction s1 as [|x s1 IH]; intros [|y s2]; simpl; intros H.
  - reflexivity.
  - destruct (Ascii.eqb y c); discriminate H.
  - destruct (Ascii.eqb x c); discriminate H.
  - destruct (Ascii.eqb x c) eqn:Ex, (Ascii.eqb y c) eqn:Ey; simpl in H.
    + apply Ascii.eqb_eq in Ex, Ey. subst. injection H as H.
      f_equal. auto.
    + injection H as -> H. rewrite Ascii.eqb_refl in Ey. discriminate.
    + injection H as -> H. rewrite Ascii.eqb_refl in Ex. discriminate.
    + injection H as -> H. f_equal. auto.
Qed.

(** X18.  Quoting is injective in both dialects: [quoteIdent] and
    [backtick] give different quoted texts for different identifiers, also
    for identifiers that contain the quote character. *)
Theorem quoting_injective (a b : jsstring) :
  (quoteIdent a = quoteIdent b -> a = b)
  /\ (backtick a = backtick b -> a = b).
Proof.
  unfold quoteIdent, backtick. split; intros H;
    injection H as H; apply app_inv_tail in H;
    exact (doubling_inj _ _ _ H).
Qed.

(** ** Every reported column change reaches the script *)

(** A changed table pairs two tables of the same name, and the desired
    column of each of its column changes is found by name. *)
Lemma columnChanges_name_both_sides_aux (a b : SchemaModel.t)
    (change : TableChange.t) (entry : ChangeEnvelope.t ColumnChange.t)
    (direction : Direction) :
  In change (Buckets.changed (DiffResult.tables (computeDiff a b))) ->
  In entry (TableChange.columnChanges change) ->
  Table.name (TableChange.sourceTable change)
  = Table.name (TableChange.table change)
  /\ exists col,
       find_column (ChangeEnvelope.name entry)
         (Table.columns
            (TableChangePlan.desired (buildTablePlan change direction)))
       = Some col
       /\ alter_column
            (TableChangePlan.desired (buildTablePlan change direction))
            (TableChangePlan.table (buildTablePlan change direction)) entry
          = {| Alteration.column := Some col;
               Alteration.change :=
                 alter_statements (ChangeEnvelope.name entry)
                                  (ChangeEnvelope.change entry) col |}.
Proof.
  intros Hchange Hentry.
  apply diffTables_changed in Hchange as (table & cp & _ & Hg & Hd).
  apply diffTable_Some in Hd as (Ht & Hs & Hcc).
  apply name_map_get in Hg as [Hcpn _].
  split; [rewrite Ht, Hs; symmetry; exact Hcpn|].
  rewrite Hcc in Hentry. unfold compareColumns in Hentry.
  apply compare_by_name_changed in Hentry as (s & t & Hs_in & Hg & _ & Hn).
  apply name_map_get in Hg as [Htn Ht_in].
  assert (Hdes : exists c,
             In c (Table.columns
                     (TableChangePlan.desired (buildTablePlan change direction)))
             /\ Column.name c = ChangeEnvelope.name entry).
  { destruct direction; cbn; [exists s | exists t]; rewrite ?Hs, ?Ht;
      split; try assumption; congruence. }
  apply find_column_Some in Hdes as (col & Hf & _).
  exists col. split; [exact Hf|]. unfold alter_column. rewrite Hf. reflexivity.
Qed.

Lemma diffColumn_keys s t ch :
  diffColumn s t = Some ch ->
  (0 <? List.length (ColumnChange.keys ch)) = true.
Proof.
  unfold diffColumn.
  match goal with
  | |- (if ?c then _ else _) = _ -> _ => destruct c eqn:E
  end; [|discriminate].
  intros [= <-]. exact E.
Qed.

Lemma alter_statements_nonempty name ch col :
  (0 <? List.length (ColumnChange.keys ch)) = true ->
  exists ddl rest, alter_statements name ch col = ddl :: rest.
Proof.
  destruct ch as [[?|] [?|] [?|] [?|] [?|]]; intros H;
    try (discriminate H); unfold alter_statements;
    cbn [ColumnChange.typeChanged ColumnChange.nullableChanged
         ColumnChange.defaultChanged ColumnChange.generatedChanged
         ColumnChange.collationChanged app];
    eexists; eexists; reflexivity.
Qed.

Lemma alter_statements_renders name columnChange desiredColumn :
  renders_change name columnChange desiredColumn
    (alter_statements name columnChange desiredColumn).
Proof.
  unfold renders_change, alter_statements. cbv zeta.
  destruct (ColumnChange.typeChanged columnChange),
    (ColumnChange.nullableChanged columnChange),
    (ColumnChange.defaultChanged columnChange),
    (ColumnChange.generatedChanged columnChange),
    (ColumnChange.collationChanged columnChange);
    repeat match goal with
           | |- _ /\ _ => split
           | |- _ <> _ -> _ =>
               let H := fresh in
               intros H; try (exfalso; apply H; reflexivity)
           end;
    rewrite ?in_app_iff; cbn [In]; tauto.
Qed.

Lemma alter_stmt_emitted dialect diff opts change entry ddl :
  In change (Buckets.changed (DiffResult.tables diff)) ->
  In entry (TableChange.columnChanges change) ->
  In ddl (Alteration.change
            (alter_column
               (TableChangePlan.desired
                  (buildTablePlan change (GenOptions.direction opts)))
               (TableChangePlan.table
                  (buildTablePlan change (GenOptions.direction opts))) entry)) ->
  emits dialect diff opts
    (alter_stmt (plan_table_name dialect
                   (buildTablePlan change (GenOptions.direction opts))) ddl).
Proof.
  intros Hchange Hentry Hddl. unfold emits.
  apply (visible_statement "A"%char); [reflexivity|].
  change ("A"%char :: _) with
    (alter_stmt (plan_table_name dialect
                   (buildTablePlan change (GenOptions.direction opts))) ddl).
  rewrite script_lines_flat.
  apply in_or_app. right. apply in_or_app. right. apply in_or_app. left.
  apply (plan_line_in_body dialect _ opts change); [exact Hchange|].
  unfold plan_lines. apply in_or_app. right. apply in_or_app. right.
  apply in_or_app. left. apply in_flat_map.
  eexists. split; [|apply in_map, Hddl].
  unfold buildTablePlan at 3. cbn [TableChangePlan.alterColumns].
  apply in_map, Hentry.
Qed.

(** X19.  Every column change [computeDiff] reports in a changed table is
    rendered from the desired column of that name: the statements
    [buildTablePlan] builds for the change hold, for each key of the change,
    its [ALTER COLUMN] text or [-- TODO:] note; there is at least one; and
    each of them stands in both scripts as
    [ALTER TABLE <table> <statement>;]. *)
Theorem column_change_is_rendered (EOL : jsstring) (a b : SchemaModel.t)
    (opts : GenOptions.t) (change : TableChange.t)
    (entry : ChangeEnvelope.t ColumnChange.t) :
  In change (Buckets.changed (DiffResult.tables (computeDiff a b))) ->
  In entry (TableChange.columnChanges change) ->
  exists desiredColumn,
    find_column (ChangeEnvelope.name entry)
      (Table.columns (if is_AtoB (GenOptions.direction opts)
                      then TableChange.sourceTable change
                      else TableChange.table change))
    = Some desiredColumn
    /\ renders_change (ChangeEnvelope.name entry) (ChangeEnvelope.change entry)
         desiredColumn
         (alter_statements (ChangeEnvelope.name entry)
            (ChangeEnvelope.change entry) desiredColumn)
    /\ alter_statements (ChangeEnvelope.name entry)
         (ChangeEnvelope.change entry) desiredColumn <> []
    /\ forall ddl,
         In ddl (alter_statements (ChangeEnvelope.name entry)
                   (ChangeEnvelope.change entry) desiredColumn) ->
         includes (str "ALTER TABLE "
                   ++ quoteIdent (Table.name (TableChange.table change))
                   ++ str " " ++ ddl ++ str ";")
                  (toPostgres EOL (computeDiff a b) opts) = true
         /\ includes (str "ALTER TABLE "
                      ++ backtick (Table.name (TableChange.table change))
                      ++ str " " ++ ddl ++ str ";")
                     (toMariaDB EOL (computeDiff a b) opts) = true.
Proof.
  intros Hchange Hentry.
  destruct (columnChanges_name_both_sides_aux a b change entry
              (GenOptions.direction opts) Hchange Hentry)
    as (Hname & col & Hfind & Halt).
  exists col. split; [exact Hfind|].
  split; [apply alter_statements_renders|].
  assert (Hk : (0 <? List.length (ColumnChange.keys (ChangeEnvelope.change entry)))
               = true).
  { pose proof Hchange as Hc.
    apply diffTables_changed in Hc as (table & cp & _ & _ & Hd).
    apply diffTable_Some in Hd as (_ & _ & Hcc).
    pose proof Hentry as He.
    rewrite Hcc in He. unfold compareColumns in He.
    apply compare_by_name_changed in He as (s & t & _ & _ & Hd & _).
    exact (diffColumn_keys _ _ _ Hd). }
  split.
  { destruct (alter_statements_nonempty (ChangeEnvelope.name entry)
                (ChangeEnvelope.change entry) col Hk) as (ddl & rest & ->).
    discriminate. }
  intros ddl Hddl.
  assert (Hn : forall dialect,
             plan_table_name dialect
               (buildTablePlan change (GenOptions.direction opts))
             = quote_for dialect (Table.name (TableChange.table change))).
  { intros dialect. unfold plan_table_name, buildTablePlan.
    cbn [TableChangePlan.table].
    destruct (GenOptions.direction opts); cbn [is_AtoB];
      [reflexivity | rewrite Hname; reflexivity]. }
  assert (He : forall dialect,
             emits dialect (computeDiff a b) opts
               (alter_stmt (quote_for dialect
                              (Table.name (TableChange.table change))) ddl)).
  { intros dialect. rewrite <- Hn.
    apply (alter_stmt_emitted dialect _ opts change entry); try assumption.
    rewrite Halt. exact Hddl. }
  split.
  - exact (emitted_included_postgres EOL _ _ _ (He postgres)).
  - exact (emitted_included_mariadb EOL _ _ _ (He mariadb)).
Qed.

Lemma column_change_is_rendered_witness :
  exists desiredColumn,
    find_column (ChangeEnvelope.name email_nullable_entry)
      (Table.columns (if is_AtoB (GenOptions.direction safe_AtoB)
                      then TableChange.sourceTable email_nullable_change
                      else TableChange.table email_nullable_change))
    = Some desiredColumn
    /\ renders_change (ChangeEnvelope.name email_nullable_entry)
         (ChangeEnvelope.change email_nullable_entry) desiredColumn
         (alter_statements (ChangeEnvelope.name email_nullable_entry)
            (ChangeEnvelope.change email_nullable_entry) desiredColumn)
    /\ alter_statements (ChangeEnvelope.name email_nullable_entry)
         (ChangeEnvelope.change email_nullable_entry) desiredColumn <> []
    /\ forall ddl,
         In ddl (alter_statements (ChangeEnvelope.name email_nullable_entry)
                   (ChangeEnvelope.change email_nullable_entry) desiredColumn) ->
         includes (str "ALTER TABLE "
                   ++ quoteIdent (Table.name (TableChange.table email_nullable_change))
                   ++ str " " ++ ddl ++ str ";")
                  (toPostgres [LF]
                     (computeDiff (model_of_table email_not_null)
                                  (model_of_table email_nullable))
                     safe_AtoB) = true
         /\ includes (str "ALTER TABLE "
                      ++ backtick (Table.name (TableChange.table email_nullable_change))
                      ++ str " " ++ ddl ++ str ";")
                     (toMariaDB [LF]
                        (computeDiff (model_of_table email_not_null)
                                     (model_of_table email_nullable))
                        safe_AtoB) = true.
Proof.
  apply (column_change_is_rendered [LF]
           (model_of_table email_not_null) (model_of_table email_nullable)
           safe_AtoB email_nullable_change email_nullable_entry).
  - vm_compute. left. reflexivity.
  - simpl. left. reflexivity.
Defined.

(** ** The trigger loader *)

Lemma JsSet_fold_In (l s : list jsstring) (x : jsstring) :
  In x (fold_left (fun s x => JsSet.add x s) l s) <-> In x s \/ In x l.
Proof.
  revert s. induction l as [|y l IH]; intros s; simpl; [tauto|].
  rewrite IH. unfold JsSet.add. case_bool_decide as Hy.
  - apply list_elem_of_In in Hy. intuition (subst; auto).
  - rewrite in_app_iff. simpl. intuition (subst; auto).
Qed.

Lemma JsSet_fold_NoDup (l s : list jsstring) :
  List.NoDup s -> List.NoDup (fold_left (fun s x => JsSet.add x s) l s).
Proof.
  revert s. induction l as [|y l IH]; intros s Hs; simpl; [exact Hs|].
  apply IH. unfold JsSet.add. case_bool_decide as Hy; [exact Hs|].
  apply List.NoDup_app; [exact Hs | repeat constructor; intros [] |].
  intros z Hz [<-|[]]. apply Hy, list_elem_of_In, Hz.
Qed.

Lemma JsSet_of_list_In (l : list jsstring) (x : jsstring) :
  In x (JsSet.of_list l) <-> In x l.
Proof. unfold JsSet.of_list. rewrite JsSet_fold_In. simpl. tauto. Qed.

Lemma JsSet_of_list_NoDup (l : list jsstring) : List.NoDup (JsSet.of_list l).
Proof. apply JsSet_fold_NoDup. constructor. Qed.

(** The invariant of the grouping loop after the rows [done]. *)
Lemma grouped_invariant (rows : list TriggerRow.t) :
  let m := fold_left group_trigger_row rows JsMap.empty in
  List.NoDup (map fst m)
  /\ (forall k t, JsMap.get k m = Some t -> LoadedTrigger.key t = k)
  /\ (forall row, In row rows ->
        exists t, JsMap.get (trigger_row_key row) m = Some t
                  /\ In (toLowerCase (TriggerRow.event_manipulation row))
                        (LoadedTrigger.events t)).
Proof.
  cbv zeta.
  assert (H : forall (rows done : list TriggerRow.t) (m : JsMap.t LoadedTrigger.t),
             (List.NoDup (map fst m)
              /\ (forall k t, JsMap.get k m = Some t -> LoadedTrigger.key t = k)
              /\ (forall row, In row done ->
                    exists t, JsMap.get (trigger_row_key row) m = Some t
                              /\ In (toLowerCase (TriggerRow.event_manipulation row))
                                    (LoadedTrigger.events t))) ->
             let m' := fold_left group_trigger_row rows m in
             List.NoDup (map fst m')
             /\ (forall k t, JsMap.get k m' = Some t -> LoadedTrigger.key t = k)
             /\ (forall row, In row (done ++ rows) ->
                   exists t, JsMap.get (trigger_row_key row) m' = Some t
                             /\ In (toLowerCase (TriggerRow.event_manipulation row))
                                   (LoadedTrigger.events t))).
  { clear rows. induction rows as [|r rows IH]; intros done m (Hnd & Hk & Hr).
    - cbv zeta. rewrite app_nil_r. auto.
    - cbn [fold_left]. replace (done ++ r :: rows) with ((done ++ [r]) ++ rows)
        by (rewrite <- app_assoc; reflexivity).
      apply IH. unfold group_trigger_row.
      split; [apply JsMapFacts.set_NoDup, Hnd|]. split.
      + intros k t. destruct (decide (trigger_row_key r = k)) as [<-|Hne].
        * rewrite JsMapFacts.get_set_same. intros [= <-].
          destruct (JsMap.get (trigger_row_key r) m) as [t0|] eqn:E.
          -- exact (Hk _ _ E).
          -- reflexivity.
        * rewrite JsMapFacts.get_set_other by exact Hne. apply Hk.
      + intros row Hin. apply in_app_or in Hin as [Hin|[<-|[]]].
        * destruct (Hr row Hin) as (t & Hg & He).
          destruct (decide (trigger_row_key r = trigger_row_key row)) as [E|Hne].
          -- rewrite <- E, JsMapFacts.get_set_same. rewrite <- E in Hg.
             rewrite Hg. eexists. split; [reflexivity|].
             cbn [LoadedTrigger.push_event LoadedTrigger.events].
             apply in_or_app. now left.
          -- rewrite JsMapFacts.get_set_other by exact Hne. eauto.
        * rewrite JsMapFacts.get_set_same. eexists. split; [reflexivity|].
          cbn [LoadedTrigger.push_event LoadedTrigger.events].
          apply in_or_app. right. now left. }
  apply (H rows [] JsMap.empty). split; [constructor|].
  split; [discriminate | intros row []].
Qed.

(** X20.  [introspectTriggers] returns one trigger per (table, name) key;
    the events of every trigger it returns are free of duplicates; and no
    row is lost: the lower-cased event of every row is among the events of
    the trigger returned for the row's key. *)
Theorem introspectTriggers_groups (rows : list TriggerRow.t) :
  let result := introspectTriggers rows in
  (forall t, In t result -> List.NoDup (LoadedTrigger.events t))
  /\ List.NoDup (map LoadedTrigger.key result)
  /\ (forall row, In row rows ->
        exists t, In t result
                  /\ LoadedTrigger.key t = trigger_row_key row
                  /\ In (toLowerCase (TriggerRow.event_manipulation row))
                        (LoadedTrigger.events t)).
Proof.
  cbv zeta. unfold introspectTriggers.
  destruct (grouped_invariant rows) as (Hnd & Hk & Hr). cbv zeta in *.
  set (m := fold_left group_trigger_row rows JsMap.empty) in *.
  split; [|split].
  - intros t Hin. apply in_map_iff in Hin as (e & <- & _).
    apply JsSet_of_list_NoDup.
  - rewrite map_map.
    rewrite (map_ext_in _ fst); [exact Hnd|].
    intros [k t] Hin. cbn [snd fst].
    apply (JsMapFacts.In_get _ _ _ Hnd) in Hin. exact (Hk _ _ Hin).
  - intros row Hin. destruct (Hr row Hin) as (t & Hg & He).
    exists (LoadedTrigger.with_events
              (JsSet.of_list (LoadedTrigger.events t)) t).
    split; [|split].
    + apply in_map_iff. exists (trigger_row_key row, t).
      split; [reflexivity | apply JsMapFacts.get_In, Hg].
    + exact (Hk _ _ Hg).
    + apply JsSet_of_list_In, He.
Qed.
(** ** The MariaDB index loop *)

Lemma In_omap {A B} (f : A -> option B) (l : list A) (x : B) :
  In x (omap f l) <-> exists y, In y l /\ f y = Some x.
Proof.
  rewrite <- list_elem_of_In, list_elem_of_omap.
  split; intros (y & H1 & H2); exists y; split; auto; apply list_elem_of_In; auto.
Qed.

Lemma NoDup_map_omap {A B C} (f : A -> option B) (g : B -> C) (l : list A) :
  List.NoDup l ->
  (forall i j a b, In i l -> In j l -> f i = Some a -> f j = Some b ->
                   g a = g b -> i = j) ->
  List.NoDup (map g (omap f l)).
Proof.
  induction l as [|i l IH]; intros Hnd Hinj; [constructor|].
  apply List.NoDup_cons_iff in Hnd as [Hi Hnd].
  assert (IH' : List.NoDup (map g (omap f l))).
  { apply IH; [exact Hnd|]. intros; eapply Hinj; eauto; now right. }
  assert (Hcons : omap f (i :: l)
                  = match f i with Some a => a :: omap f l | None => omap f l end)
    by reflexivity.
  rewrite Hcons. destruct (f i) as [a|] eqn:E; [|exact IH'].
  cbn [map]. apply List.NoDup_cons_iff. split; [|exact IH'].
  intros Hin. apply in_map_iff in Hin as (b & Hb & Hin).
  apply In_omap in Hin as (j & Hj & Ej).
  assert (i = j) by (eapply (Hinj i j a b); eauto; [now left | now right]).
  subst j. contradiction.
Qed.

Lemma fold_set_has {V R} (key : R -> jsstring) (val : R -> V)
    (rows : list R) (m : JsMap.t V) (name : jsstring) :
  JsMap.has name (fold_left (fun m row => JsMap.set (key row) (val row) m) rows m)
  = JsMap.has name m || existsb (fun row => jsstring_eqb (key row) name) rows.
Proof.
  revert m. induction rows as [|r rows IH]; intros m; cbn [fold_left existsb].
  - rewrite orb_false_r. reflexivity.
  - rewrite IH. unfold JsMap.has.
    destruct (jsstring_eqb (key r) name) eqn:E.
    + apply jsstring_eqb_eq in E. subst name.
      rewrite JsMapFacts.get_set_same. cbn. rewrite orb_true_r. reflexivity.
    + apply jsstring_eqb_neq in E.
      rewrite JsMapFacts.get_set_other by exact E. reflexivity.
Qed.

Lemma fold_set_NoDup {V R} (key : R -> jsstring) (val : R -> V)
    (rows : list R) (m : JsMap.t V) :
  List.NoDup (map fst m) ->
  List.NoDup (map fst (fold_left (fun m row => JsMap.set (key row) (val row) m)
                                 rows m)).
Proof.
  revert m. induction rows as [|r rows IH]; intros m H; cbn [fold_left]; auto.
  apply IH, JsMapFacts.set_NoDup, H.
Qed.

Lemma fold_set_get {V R} (key : R -> jsstring) (val : R -> V)
    (rows : list R) (m : JsMap.t V) (name : jsstring) (v : V) :
  JsMap.get name (fold_left (fun m row => JsMap.set (key row) (val row) m) rows m)
  = Some v ->
  JsMap.get name m = Some v \/ exists row, In row rows /\ v = val row.
Proof.
  revert m. induction rows as [|r rows IH]; intros m; cbn [fold_left]; auto.
  intros H. apply IH in H as [H|(row & Hin & ->)].
  - destruct (decide (key r = name)) as [<-|Hne].
    + rewrite JsMapFacts.get_set_same in H. injection H as <-.
      right. exists r. split; [now left | reflexivity].
    + rewrite JsMapFacts.get_set_other in H by exact Hne. now left.
  - right. exists row. split; [now right | reflexivity].
Qed.

Lemma filter_snoc_false {A} (p : A -> bool) (l : list A) (x : A) :
  p x = false -> List.filter p (l ++ [x]) = List.filter p l.
Proof.
  intros H. rewrite List.filter_app. cbn [List.filter]. rewrite H.
  apply app_nil_r.
Qed.

Lemma filter_snoc_true {A} (p : A -> bool) (l : list A) (x : A) :
  p x = true -> List.filter p (l ++ [x]) = List.filter p l ++ [x].
Proof.
  intros H. rewrite List.filter_app. cbn [List.filter]. rewrite H. reflexivity.
Qed.

Lemma index_loop_skip tableRows done state row :
  (forall key, feeds tableRows key row = false) ->
  index_loop_inv tableRows done state ->
  index_loop_inv tableRows (done ++ [row]) state.
Proof.
  intros Hf (Hnd & Hknown & Hacc & Hnone & Hinj & Htab).
  split; [exact Hnd|]. split; [exact Hknown|].
  split; [|split; [|split; [exact Hinj | exact Htab]]].
  - intros key id Hg. destruct (Hacc key id Hg) as (index & ? & ? & ? & ? & ?).
    exists index. rewrite filter_snoc_false by apply Hf. auto.
  - intros key Hg. rewrite filter_snoc_false by apply Hf. auto.
Qed.

Lemma feeds_key tableRows key row :
  feeds tableRows key row = true -> key = index_row_key row.
Proof.
  unfold feeds. intros H. apply andb_true_iff in H as [_ H].
  apply jsstring_eqb_eq in H. auto.
Qed.

Lemma feeds_other tableRows key row :
  key <> index_row_key row -> feeds tableRows key row = false.
Proof.
  intros Hne. destruct (feeds tableRows key row) eqn:E; [|reflexivity].
  apply feeds_key in E. contradiction.
Qed.

Lemma index_loop_step tableRows done state row :
  index_loop_inv tableRows done state ->
  index_loop_inv tableRows (done ++ [row]) (IndexLoop.step state row).
Proof.
  intros Hinv. pose proof Hinv as (Hnd & Hknown & Hacc & Hnone & Hinj & Htab).
  unfold IndexLoop.step.
  destruct (JsMap.get (StatisticsRow.table_name row) (IndexLoop.tables state))
    as [ids|] eqn:Etab.
  2: { apply index_loop_skip; [|exact Hinv]. intros key. unfold feeds.
       rewrite <- Hknown. unfold JsMap.has. rewrite Etab. reflexivity. }
  destruct (jsstring_eqb (StatisticsRow.index_name row) (str "PRIMARY")) eqn:Eprim.
  { apply index_loop_skip; [|exact Hinv]. intros key. unfold feeds.
    rewrite Eprim. cbn. rewrite andb_false_r. reflexivity. }
  assert (Hfeeds : feeds tableRows (index_row_key row) row = true).
  { unfold feeds. rewrite <- Hknown. unfold JsMap.has. rewrite Etab, Eprim.
    cbn. apply jsstring_eqb_refl. }
  change (StatisticsRow.table_name row ++ str "." ++ StatisticsRow.index_name row)
    with (index_row_key row).
  cbv zeta.
  destruct (JsMap.get (index_row_key row) (IndexLoop.indexAccumulator state))
    as [id|] eqn:Eacc.
  - (* the index exists: a column is pushed onto it *)
    unfold index_loop_inv. cbn [IndexLoop.tables IndexLoop.heap IndexLoop.indexAccumulator].
    split; [exact Hnd|]. split; [exact Hknown|].
    split; [|split; [|split; [exact Hinj|]]].
    + intros key id' Hg. destruct (Hacc key id' Hg) as (index & Hh & Hp & Hu & Hc & Hcols).
      destruct (decide (id' = id)) as [->|Hne].
      * assert (key = index_row_key row) by (eapply Hinj; eauto). subst key.
        exists (IndexLoop.push_column (StatisticsRow.column_name row) index).
        rewrite list_lookup_alter_eq, Hh. split; [reflexivity|].
        split; [exact Hp|]. split; [exact Hu|].
        cbn [IndexLoop.push_column Index.columns].
        split; [intros E; apply app_eq_nil in E as [_ E]; discriminate E|].
        rewrite filter_snoc_true by exact Hfeeds.
        rewrite map_app, Hcols. reflexivity.
      * exists index. rewrite list_lookup_alter_ne by congruence.
        rewrite filter_snoc_false; [auto|].
        apply feeds_other. intros ->. congruence.
    + intros key Hg. rewrite filter_snoc_false; [auto|].
      apply feeds_other. intros ->. congruence.
    + intros name ids' Hg. destruct (Htab name ids' Hg) as [Hnd' Hids].
      split; [exact Hnd'|]. intros id' Hin.
      destruct (Hids id' Hin) as (index & Hh & Hk).
      destruct (decide (id' = id)) as [->|Hne].
      * exists (IndexLoop.push_column (StatisticsRow.column_name row) index).
        rewrite list_lookup_alter_eq, Hh. split; [reflexivity | exact Hk].
      * exists index. rewrite list_lookup_alter_ne by congruence. auto.
  - (* a new index *)
    assert (Hlt : forall key id, JsMap.get key (IndexLoop.indexAccumulator state) = Some id ->
                                 id < List.length (IndexLoop.heap state)).
    { intros key id Hg. destruct (Hacc key id Hg) as (index & Hh & _).
      eapply lookup_lt_Some, Hh. }
    unfold index_loop_inv. cbn [IndexLoop.tables IndexLoop.heap IndexLoop.indexAccumulator].
    split; [apply JsMapFacts.set_NoDup, Hnd|].
    split.
    { intros name. rewrite <- Hknown. unfold JsMap.has.
      destruct (decide (StatisticsRow.table_name row = name)) as [<-|Hne].
      - rewrite JsMapFacts.get_set_same, Etab. reflexivity.
      - rewrite JsMapFacts.get_set_other by exact Hne. reflexivity. }
    split; [|split; [|split]].
    + intros key id Hg.
      destruct (decide (index_row_key row = key)) as [<-|Hne].
      * rewrite JsMapFacts.get_set_same in Hg. injection Hg as <-.
        eexists. split; [apply list_lookup_middle; reflexivity|].
        cbn [IndexLoop.push_column Index.name Index.using_ Index.columns app].
        split; [apply jsstring_eqb_neq, Eprim|].
        split; [eexists; reflexivity|].
        split; [discriminate|].
        rewrite filter_snoc_true by exact Hfeeds.
        rewrite (Hnone _ Eacc). reflexivity.
      * rewrite JsMapFacts.get_set_other in Hg by exact Hne.
        destruct (Hacc key id Hg) as (index & Hh & Hp & Hu & Hc & Hcols).
        exists index. rewrite lookup_app_l by (eapply Hlt, Hg).
        rewrite filter_snoc_false by (apply feeds_other; congruence). auto.
    + intros key Hg.
      destruct (decide (index_row_key row = key)) as [<-|Hne].
      * rewrite JsMapFacts.get_set_same in Hg. discriminate Hg.
      * rewrite JsMapFacts.get_set_other in Hg by exact Hne.
        rewrite filter_snoc_false by (apply feeds_other; congruence). auto.
    + intros k1 k2 id H1 H2.
      destruct (decide (index_row_key row = k1)) as [<-|Hne1];
        destruct (decide (index_row_key row = k2)) as [<-|Hne2]; [reflexivity| | |].
      * rewrite JsMapFacts.get_set_same in H1. injection H1 as <-.
        rewrite JsMapFacts.get_set_other in H2 by exact Hne2.
        apply Hlt in H2. lia.
      * rewrite JsMapFacts.get_set_same in H2. injection H2 as <-.
        rewrite JsMapFacts.get_set_other in H1 by exact Hne1.
        apply Hlt in H1. lia.
      * rewrite JsMapFacts.get_set_other in H1 by exact Hne1.
        rewrite JsMapFacts.get_set_other in H2 by exact Hne2. eauto.
    + assert (Hold : forall name ids' id,
                 JsMap.get name (IndexLoop.tables state) = Some ids' -> In id ids' ->
                 exists index,
                   (IndexLoop.heap state
                    ++ [IndexLoop.push_column (StatisticsRow.column_name row)
                          {| Index.name := StatisticsRow.index_name row;
                             Index.unique := (StatisticsRow.non_unique row =? 0)%Z;
                             Index.columns := [];
                             Index.using_ := Some (toLowerCase (StatisticsRow.index_type row)) |}])
                     !! id = Some index
                   /\ JsMap.get (name ++ str "." ++ Index.name index)
                        (JsMap.set (index_row_key row) (List.length (IndexLoop.heap state))
                                   (IndexLoop.indexAccumulator state)) = Some id).
      { intros name ids' id Hg Hin.
        destruct (Htab name ids' Hg) as [_ Hids].
        destruct (Hids id Hin) as (index & Hh & Hk).
        exists index. rewrite lookup_app_l by (eapply lookup_lt_Some, Hh).
        split; [exact Hh|].
        rewrite JsMapFacts.get_set_other; [exact Hk|]. intros E.
        rewrite <- E in Hk. congruence. }
      intros name ids' Hg.
      destruct (decide (StatisticsRow.table_name row = name)) as [<-|Hne].
      * rewrite JsMapFacts.get_set_same in Hg. injection Hg as <-.
        destruct (Htab _ _ Etab) as [Hnd' Hids]. split.
        -- apply List.NoDup_app; [exact Hnd' | repeat constructor; intros [] |].
           intros id Hin [<-|[]].
           destruct (Hids _ Hin) as (index & Hh & _).
           apply lookup_lt_Some in Hh. lia.
        -- intros id Hin. apply in_app_or in Hin as [Hin|[<-|[]]].
           ++ eapply Hold; eauto.
           ++ eexists. split; [apply list_lookup_middle; reflexivity|].
              cbn [IndexLoop.push_column Index.name].
              apply JsMapFacts.get_set_same.
      * rewrite JsMapFacts.get_set_other in Hg by exact Hne.
        destruct (Htab _ _ Hg) as [Hnd' _]. split; [exact Hnd'|].
        intros id Hin. eapply Hold; eauto.
Qed.

Lemma index_loop_fold tableRows rows done state :
  index_loop_inv tableRows done state ->
  index_loop_inv tableRows (done ++ rows) (fold_left IndexLoop.step rows state).
Proof.
  revert done state. induction rows as [|r rows IH]; intros done state H.
  - rewrite app_nil_r. exact H.
  - cbn [fold_left]. replace (done ++ r :: rows) with ((done ++ [r]) ++ rows)
      by (rewrite <- app_assoc; reflexivity).
    apply IH, index_loop_step, H.
Qed.

Lemma index_loop_start tableRows :
  index_loop_inv tableRows []
    (IndexLoop.mk
       (fold_left (fun m row => JsMap.set (TableRow.table_name row) [] m)
                  tableRows JsMap.empty)
       [] JsMap.empty).
Proof.
  unfold index_loop_inv.
  cbn [IndexLoop.tables IndexLoop.heap IndexLoop.indexAccumulator].
  split; [apply fold_set_NoDup; constructor|].
  split; [intros name; apply (fold_set_has TableRow.table_name (fun _ => []))|].
  split; [discriminate|]. split; [reflexivity|]. split; [discriminate|].
  intros name ids Hg.
  apply (fold_set_get TableRow.table_name (fun _ => [])) in Hg
    as [Hg|(_ & _ & ->)]; [discriminate Hg|].
  split; [constructor | intros id []].
Qed.

(** X21.  The MariaDB index loop.  In every table [introspectTables] returns,
    the indexes have pairwise different names and none is named [PRIMARY];
    the access method of each is lower-case; and the columns of each are
    those of the statistics rows with its key ([table.index]) that belong to
    a listed table, in the order of the rows, and so never empty. *)
Theorem mariadb_indexes_grouped (tableRows : list TableRow.t)
    (indexRows : list StatisticsRow.t) (table : Table.t) :
  In table (mariadb_table_indexes tableRows indexRows) ->
  List.NoDup (map Index.name (Table.indexes table))
  /\ forall index, In index (Table.indexes table) ->
       Index.name index <> str "PRIMARY"
       /\ (exists w, Index.using_ index = Some w /\ toLowerCase w = w)
       /\ Index.columns index <> []
       /\ Index.columns index
          = map StatisticsRow.column_name
              (List.filter
                 (feeds tableRows (Table.name table ++ str "." ++ Index.name index))
                 indexRows).
Proof.
  unfold mariadb_table_indexes. cbv zeta.
  pose proof (index_loop_fold tableRows indexRows [] _ (index_loop_start tableRows))
    as (Hnd & _ & Hacc & _ & Hinj & Htab).
  cbn [app] in *.
  set (final := fold_left IndexLoop.step indexRows _) in *.
  intros Hin. apply in_map_iff in Hin as ([name ids] & <- & Hin).
  cbn [fst snd Table.indexes Table.name].
  apply (JsMapFacts.In_get _ _ _ Hnd) in Hin.
  destruct (Htab _ _ Hin) as [Hnd' Hids]. split.
  - apply NoDup_map_omap; [exact Hnd'|].
    intros i j a b Hi Hj Ea Eb Hname.
    destruct (Hids i Hi) as (a' & Ea' & Ka).
    destruct (Hids j Hj) as (b' & Eb' & Kb).
    assert (a' = a) by congruence. assert (b' = b) by congruence. subst a' b'.
    rewrite Hname in Ka.
    rewrite Ka in Kb. congruence.
  - intros index Hx. apply In_omap in Hx as (id & Hid & Hh).
    destruct (Hids id Hid) as (index' & Hh' & Hk).
    assert (index' = index) by congruence. subst index'.
    destruct (Hacc _ _ Hk) as (index' & Hh'' & Hp & (w & Hu) & Hc & Hcols).
    assert (index' = index) by congruence. subst index'.
    split; [exact Hp|]. split; [|split; [exact Hc | exact Hcols]].
    exists (toLowerCase w). split; [exact Hu | apply toLowerCase_idem].
Qed.

Lemma mariadb_indexes_grouped_witness :
  let table := {| Table.name := str "orders"; Table.columns := [];
                  Table.primaryKey := None;
                  Table.indexes :=
                    [ {| Index.name := str "o_idx"; Index.unique := false;
                         Index.columns := [str "a"; str "b"];
                         Index.using_ := Some (str "btree") |} ];
                  Table.checks := []; Table.fks := [] |} in
  In table (mariadb_table_indexes sample_table_rows sample_statistics_rows)
  /\ List.NoDup (map Index.name (Table.indexes table)).
Proof.
  cbv zeta.
  assert (H : In {| Table.name := str "orders"; Table.columns := [];
                  Table.primaryKey := None;
                  Table.indexes :=
                    [ {| Index.name := str "o_idx"; Index.unique := false;
                         Index.columns := [str "a"; str "b"];
                         Index.using_ := Some (str "btree") |} ];
                  Table.checks := []; Table.fks := [] |}
               (mariadb_table_indexes sample_table_rows sample_statistics_rows)).
  { vm_compute. right. left. reflexivity. }
  split; [exact H|].
  exact (proj1 (mariadb_indexes_grouped sample_table_rows sample_statistics_rows _ H)).
Defined.

(** ** The PostgreSQL table loader *)

Lemma fold_set_keys {V R} (key : R -> jsstring) (val : R -> V)
    (rows : list R) (m : JsMap.t V) :
  map fst (fold_left (fun m row => JsMap.set (key row) (val row) m) rows m)
  = fold_left (fun s x => JsSet.add x s) (map key rows) (map fst m).
Proof.
  revert m. induction rows as [|r rows IH]; intros m; cbn [fold_left map];
    [reflexivity|].
  rewrite IH. f_equal. rewrite JsMapFacts.set_keys. unfold JsSet.add, JsMap.has.
  destruct (JsMap.get (key r) m) as [v|] eqn:E.
  - rewrite bool_decide_eq_true_2; [reflexivity|].
    apply list_elem_of_In. apply JsMapFacts.get_In in E.
    apply in_map_iff. exists (key r, v). auto.
  - rewrite bool_decide_eq_false_2; [reflexivity|].
    rewrite list_elem_of_In. apply JsMapFacts.get_None_keys, E.
Qed.

Lemma fold_set_get_key {V R} (key : R -> jsstring) (val : V -> jsstring -> Prop)
    (f : R -> V) (rows : list R) (m : JsMap.t V) :
  (forall row, val (f row) (key row)) ->
  (forall k v, JsMap.get k m = Some v -> val v k) ->
  forall k v,
    JsMap.get k (fold_left (fun m row => JsMap.set (key row) (f row) m) rows m)
    = Some v -> val v k.
Proof.
  intros Hf. revert m. induction rows as [|r rows IH]; intros m Hm;
    cbn [fold_left]; [exact Hm|].
  apply IH. intros k v.
  destruct (decide (key r = k)) as [<-|Hne].
  - rewrite JsMapFacts.get_set_same. intros [= <-]. apply Hf.
  - rewrite JsMapFacts.get_set_other by exact Hne. apply Hm.
Qed.

Section KeyedUpdate.
Context {V R : Type} (key : R -> jsstring) (upd : R -> V -> V).

(** A loop that updates, for each row, the entry of the row's key when the
    map has one: the keys stay, and the entry of [k] goes through the
    updates of the rows of key [k], in order. *)
Lemma keyed_update_keys (rows : list R) (m : JsMap.t V) :
  map fst
      (fold_left
         (fun m row =>
            match JsMap.get (key row) m with
            | None => m
            | Some v => JsMap.set (key row) (upd row v) m
            end) rows m)
  = map fst m.
Proof.
  revert m. induction rows as [|r rows IH]; intros m; cbn [fold_left];
    [reflexivity|].
  rewrite IH. destruct (JsMap.get (key r) m) eqn:E; [|reflexivity].
  rewrite JsMapFacts.set_keys. unfold JsMap.has. rewrite E. reflexivity.
Qed.

Lemma keyed_update_get (rows : list R) (m : JsMap.t V) (k : jsstring) :
  JsMap.get k
      (fold_left
         (fun m row =>
            match JsMap.get (key row) m with
            | None => m
            | Some v => JsMap.set (key row) (upd row v) m
            end) rows m)
  = option_map
      (fold_left (fun v row => upd row v)
                 (List.filter (fun row => jsstring_eqb (key row) k) rows))
      (JsMap.get k m).
Proof.
  revert m. induction rows as [|r rows IH]; intros m;
    cbn [fold_left List.filter].
  - destruct (JsMap.get k m); reflexivity.
  - rewrite IH. destruct (jsstring_eqb (key r) k) eqn:E.
    + apply jsstring_eqb_eq in E. subst k.
      destruct (JsMap.get (key r) m) as [v|] eqn:Eg.
      * rewrite JsMapFacts.get_set_same. reflexivity.
      * rewrite Eg. reflexivity.
    + apply jsstring_eqb_neq in E.
      destruct (JsMap.get (key r) m) as [v|] eqn:Eg; [|reflexivity].
      rewrite JsMapFacts.get_set_other by exact E. reflexivity.
Qed.
End KeyedUpdate.

Lemma values_by_key {V} (f : jsstring -> V) (m : JsMap.t V) :
  List.NoDup (map fst m) ->
  (forall k, In k (map fst m) -> JsMap.get k m = Some (f k)) ->
  map snd m = map f (map fst m).
Proof.
  intros Hnd H. rewrite map_map. apply map_ext_in. intros [k v] Hin.
  cbn [fst snd].
  assert (Hk : In k (map fst m)) by (apply in_map_iff; exists (k, v); auto).
  apply H in Hk. apply (JsMapFacts.In_get _ _ _ Hnd) in Hin. congruence.
Qed.

Lemma push_index_fold (rows : list IndexRow.t) (table : Table.t) :
  fold_left (fun table row => Tbl.push_index (index_of_row row) table) rows table
  = {| Table.name := Table.name table; Table.columns := Table.columns table;
       Table.primaryKey := Table.primaryKey table;
       Table.indexes := Table.indexes table ++ map index_of_row rows;
       Table.checks := Table.checks table; Table.fks := Table.fks table |}.
Proof.
  revert table. induction rows as [|r rows IH]; intros table;
    cbn [fold_left map].
  - rewrite app_nil_r. destruct table; reflexivity.
  - rewrite IH. cbn [Tbl.push_index Table.name Table.columns Table.primaryKey
                     Table.indexes Table.checks Table.fks].
    rewrite <- app_assoc. reflexivity.
Qed.

Lemma primary_key_fold (rows : list PkRow.t) (table : Table.t) :
  fold_left
    (fun table row =>
       Tbl.set_primaryKey
         {| PrimaryKey.name :=
              PrimaryKey.name
                match Table.primaryKey table with
                | Some pk => pk
                | None => {| PrimaryKey.name := Val (PkRow.constraint_name row);
                             PrimaryKey.columns := [] |}
                end;
            PrimaryKey.columns :=
              PrimaryKey.columns
                match Table.primaryKey table with
                | Some pk => pk
                | None => {| PrimaryKey.name := Val (PkRow.constraint_name row);
                             PrimaryKey.columns := [] |}
                end ++ [PkRow.column_name row] |} table)
    rows table
  = {| Table.name := Table.name table; Table.columns := Table.columns table;
       Table.primaryKey :=
         match Table.primaryKey table with
         | Some pk =>
             Some {| PrimaryKey.name := PrimaryKey.name pk;
                     PrimaryKey.columns :=
                       PrimaryKey.columns pk ++ map PkRow.column_name rows |}
         | None => primary_key_of rows
         end;
       Table.indexes := Table.indexes table;
       Table.checks := Table.checks table; Table.fks := Table.fks table |}.
Proof.
  revert table. induction rows as [|r rows IH]; intros table;
    cbn [fold_left map].
  - destruct table as [n c [[pn pc]|] i ch f]; cbn; rewrite ?app_nil_r; reflexivity.
  - rewrite IH. destruct table as [n c [[pn pc]|] i ch f];
      cbn [Tbl.set_primaryKey Table.name Table.columns Table.primaryKey
           Table.indexes Table.checks Table.fks PrimaryKey.name
           PrimaryKey.columns primary_key_of map app];
      rewrite <- ?app_assoc; reflexivity.
Qed.

(** X22.  The PostgreSQL table loader, table by table.  [introspectTables]
    returns one table per distinct name of the table rows, in the order of
    first appearance; the primary key of a table carries the constraint name
    of the first primary-key row of that table and the columns of all its
    primary-key rows, in row order, and is absent when it has no such row;
    its indexes are the parsed index rows of that table, in row order.  Rows
    that name a table outside the list change nothing. *)
Theorem introspectTables_by_table (tableRows : list TableRow.t)
    (pkRows : list PkRow.t) (indexRows : list IndexRow.t) :
  introspectTables tableRows pkRows indexRows
  = map (loaded_table pkRows indexRows)
        (JsSet.of_list (map TableRow.table_name tableRows)).
Proof.
  unfold introspectTables. cbv zeta.
  set (m0 := fold_left
               (fun m row => JsMap.set (TableRow.table_name row)
                                       (createTable (TableRow.table_name row)) m)
               tableRows JsMap.empty).
  set (pk_upd := fun (row : PkRow.t) (table : Table.t) =>
       Tbl.set_primaryKey
         {| PrimaryKey.name :=
              PrimaryKey.name
                match Table.primaryKey table with
                | Some pk => pk
                | None => {| PrimaryKey.name := Val (PkRow.constraint_name row);
                             PrimaryKey.columns := [] |}
                end;
            PrimaryKey.columns :=
              PrimaryKey.columns
                match Table.primaryKey table with
                | Some pk => pk
                | None => {| PrimaryKey.name := Val (PkRow.constraint_name row);
                             PrimaryKey.columns := [] |}
                end ++ [PkRow.column_name row] |} table).
  set (ix_upd := fun (row : IndexRow.t) (table : Table.t) =>
                   Tbl.push_index (index_of_row row) table).
  pose proof (keyed_update_keys PkRow.table_name pk_upd pkRows m0) as K1.
  pose proof (keyed_update_get PkRow.table_name pk_upd pkRows m0) as G1.
  set (m1 := fold_left _ pkRows m0) in *.
  pose proof (keyed_update_keys IndexRow.tablename ix_upd indexRows m1) as K2.
  pose proof (keyed_update_get IndexRow.tablename ix_upd indexRows m1) as G2.
  set (m2 := fold_left _ indexRows m1) in *.
  assert (K0 : map fst m0 = JsSet.of_list (map TableRow.table_name tableRows)).
  { apply (fold_set_keys TableRow.table_name
             (fun row => createTable (TableRow.table_name row))). }
  assert (G0 : forall k, In k (map fst m0) ->
                         JsMap.get k m0 = Some (createTable k)).
  { intros k Hk. destruct (JsMap.get k m0) as [v|] eqn:E.
    - f_equal.
      apply (fold_set_get_key TableRow.table_name (fun v k => v = createTable k)
               (fun row => createTable (TableRow.table_name row))
               tableRows JsMap.empty) in E; [exact E | reflexivity | discriminate].
    - exfalso. exact (JsMapFacts.get_None_keys _ _ E Hk). }
  change (map snd m2
          = map (loaded_table pkRows indexRows)
                (JsSet.of_list (map TableRow.table_name tableRows))).
  rewrite <- K0, <- K1, <- K2.
  apply values_by_key.
  - rewrite K2, K1, K0. apply JsSet_of_list_NoDup.
  - intros k Hk. rewrite K2, K1 in Hk.
    rewrite G2, G1, (G0 k Hk). cbn [option_map]. f_equal.
    unfold ix_upd, pk_upd. rewrite push_index_fold, primary_key_fold.
    reflexivity.
Qed.

(** ** Parsing an index definition *)

Lemma match_parens_skip (pre s : jsstring) :
  ~ In "("%char pre -> match_parens (pre ++ s) = match_parens s.
Proof.
  induction pre as [|x pre IH]; intros Hpre; [reflexivity|].
  cbn [app match_parens parens_at].
  destruct (Ascii.eqb x "(") eqn:E.
  - apply Ascii.eqb_eq in E. subst x. exfalso. apply Hpre. now left.
  - apply IH. intros H. apply Hpre. now right.
Qed.

Lemma upto_last_snoc (c : ascii) (l : jsstring) :
  upto_last c (l ++ [c]) = Some l.
Proof.
  induction l as [|x l IH]; cbn [app upto_last].
  - rewrite Ascii.eqb_refl. reflexivity.
  - rewrite IH. reflexivity.
Qed.

Lemma take_while_all {A} (p : A -> bool) (l : list A) :
  (forall x, In x l -> p x = true) -> take_while p l = l.
Proof.
  induction l as [|x l IH]; intros H; cbn [take_while]; [reflexivity|].
  rewrite (H x) by now left. f_equal. apply IH. intros; apply H; now right.
Qed.

Lemma take_while_app_stop {A} (p : A -> bool) (l : list A) (x : A) (r : list A) :
  (forall y, In y l -> p y = true) -> p x = false ->
  take_while p (l ++ x :: r) = l.
Proof.
  intros H Hx. induction l as [|y l IH]; cbn [app take_while].
  - rewrite Hx. reflexivity.
  - rewrite (H y) by now left. f_equal. apply IH. intros; apply H; now right.
Qed.

Lemma split_no_sep (c : ascii) (a : jsstring) :
  ~ In c a -> split c a = [a].
Proof.
  induction a as [|x a IH]; intros H; cbn [split]; [reflexivity|].
  destruct (Ascii.eqb x c) eqn:E.
  - apply Ascii.eqb_eq in E. subst x. exfalso. apply H. now left.
  - rewrite IH; [reflexivity|]. intros Hin. apply H. now right.
Qed.

Lemma split_at_sep (c : ascii) (a rest : jsstring) :
  ~ In c a -> split c (a ++ c :: rest) = a :: split c rest.
Proof.
  induction a as [|x a IH]; intros H; cbn [app split].
  - rewrite Ascii.eqb_refl. reflexivity.
  - destruct (Ascii.eqb x c) eqn:E.
    + apply Ascii.eqb_eq in E. subst x. exfalso. apply H. now left.
    + rewrite IH; [reflexivity|]. intros Hin. apply H. now right.
Qed.

Lemma split_join_comma (columns : list jsstring) (pre : jsstring) :
  columns <> [] ->
  (forall c, In c columns -> ~ In ","%char c) ->
  ~ In ","%char pre ->
  split "," (pre ++ join (str ", ") columns)
  = (pre ++ hd [] columns) :: map (fun c => " "%char :: c) (tl columns).
Proof.
  revert pre. induction columns as [|c1 [|c2 rest] IH]; intros pre Hne Hc Hpre.
  - contradiction.
  - cbn [join hd tl map]. apply split_no_sep.
    intros H. apply in_app_or in H as [H|H]; [auto|].
    apply (Hc c1); [now left | exact H].
  - change (join (str ", ") (c1 :: c2 :: rest))
      with (c1 ++ ","%char :: ([" "%char] ++ join (str ", ") (c2 :: rest))).
    rewrite app_assoc, split_at_sep.
    + rewrite IH; [reflexivity | discriminate | |].
      * intros c Hin. apply Hc. now right.
      * intros [H|[]]. discriminate H.
    + intros H. apply in_app_or in H as [H|H]; [auto|].
      apply (Hc c1); [now left | exact H].
Qed.

Lemma using_at_short (p rest : jsstring) :
  List.length p < 5 -> p <> [] ->
  using_at (p ++ str "USING" ++ rest) = None.
Proof.
  intros Hlen Hne. unfold using_at.
  destruct p as [|a [|b [|c [|d [|e p]]]]]; [contradiction| | | | |cbn in Hlen; lia];
    cbn [app firstn str list_ascii_of_string toUpperCase map];
    (rewrite (proj2 (jsstring_eqb_neq _ _)); [reflexivity|]);
    intros H; injection H; intros; discriminate.
Qed.

Lemma using_at_long (p rest : jsstring) :
  5 <= List.length p ->
  startsWith (str "USING") (toUpperCase p) = false ->
  using_at (p ++ rest) = None.
Proof.
  intros Hlen Hs. unfold using_at.
  destruct p as [|a [|b [|c [|d [|e p]]]]]; try (cbn in Hlen; lia).
  cbn [app firstn toUpperCase map].
  rewrite (proj2 (jsstring_eqb_neq _ _)); [reflexivity|].
  intros H. injection H as Ha Hb Hc Hd He.
  cbn [toUpperCase map str list_ascii_of_string startsWith] in Hs.
  rewrite Ha, Hb, Hc, Hd, He in Hs. vm_compute in Hs. discriminate Hs.
Qed.

Lemma exec_using_skip (prefix rest : jsstring) :
  includes (str "USING") (toUpperCase prefix) = false ->
  exec_using (prefix ++ str "USING" ++ rest) = exec_using (str "USING" ++ rest).
Proof.
  induction prefix as [|x prefix IH]; intros H; [reflexivity|].
  change (toUpperCase (x :: prefix)) with (upper_char x :: toUpperCase prefix) in H.
  cbn [includes] in H. apply orb_false_iff in H as [Hs Hi].
  change (upper_char x :: toUpperCase prefix) with (toUpperCase (x :: prefix)) in Hs.
  assert (Hnone : using_at ((x :: prefix) ++ str "USING" ++ rest) = None).
  { destruct (le_lt_dec 5 (List.length (x :: prefix))) as [Hl|Hl].
    - apply using_at_long; assumption.
    - apply using_at_short; [exact Hl | discriminate]. }
  change ((x :: prefix) ++ str "USING" ++ rest)
    with (x :: (prefix ++ str "USING" ++ rest)) in *.
  cbn [exec_using]. rewrite Hnone. apply IH, Hi.
Qed.

Lemma word_not_space (c : ascii) : is_word c = true -> is_space c = false.
Proof. each_char c; intros H; first [reflexivity | discriminate H]. Qed.

Lemma exec_using_here (method rest : jsstring) :
  method <> [] ->
  (forall c, In c method -> is_word c = true) ->
  exec_using (str "USING " ++ method ++ " "%char :: rest) = Some method.
Proof.
  intros Hne Hw.
  assert (H : using_at (str "USING " ++ method ++ " "%char :: rest) = Some method).
  { unfold using_at. cbn [str list_ascii_of_string app firstn skipn].
    rewrite (proj2 (jsstring_eqb_eq _ _)) by reflexivity.
    destruct method as [|m method]; [contradiction|].
    cbn [drop_while app]. replace (is_space " ") with true by reflexivity.
    cbn [drop_while].
    rewrite (word_not_space m) by (apply Hw; now left).
    replace (List.length (m :: method ++ " "%char :: rest)
             <? List.length (" "%char :: m :: method ++ " "%char :: rest))
      with true by (symmetry; apply Nat.ltb_lt; cbn [List.length]; lia).
    change (m :: method ++ " "%char :: rest)
      with ((m :: method) ++ " "%char :: rest).
    rewrite take_while_app_stop; [reflexivity | exact Hw | reflexivity]. }
  cbn [str list_ascii_of_string app] in *.
  cbn [exec_using]. rewrite H. reflexivity.
Qed.

Lemma replaceAll_none (c : ascii) (s : jsstring) :
  ~ In c s -> replaceAll c [] s = s.
Proof.
  unfold replaceAll. induction s as [|x s IH]; intros H; cbn [flat_map];
    [reflexivity|].
  destruct (Ascii.eqb x c) eqn:E.
  - apply Ascii.eqb_eq in E. subst x. exfalso. apply H. now left.
  - cbn [app]. f_equal. apply IH. intros Hin. apply H. now right.
Qed.

Lemma trim_space_cons (s : jsstring) : trim (" "%char :: s) = trim s.
Proof. reflexivity. Qed.

(** X23.  Reading back a plain index definition.  For a definition of the
    shape [<prefix>USING <method> (<c1>, <c2>, ...)], where the prefix has no
    opening parenthesis and no [USING] in any case, the method is a word,
    and the columns are free of commas, line breaks and outer white space,
    the loader recovers the method and the columns, double quotes removed. *)
Theorem index_of_row_reads_plain_indexdef (row : IndexRow.t)
    (prefix method : jsstring) (columns : list jsstring) :
  IndexRow.indexdef row = plain_indexdef prefix method columns ->
  ~ In "("%char prefix ->
  includes (str "USING") (toUpperCase prefix) = false ->
  method <> [] ->
  (forall c, In c method -> is_word c = true) ->
  columns <> [] ->
  (forall col, In col columns ->
     ~ In ","%char col
     /\ (forall c, In c col -> is_line_terminator c = false)
     /\ trim col = col) ->
  Index.using_ (index_of_row row) = Some method
  /\ Index.columns (index_of_row row) = map (replaceAll DQUOTE []) columns.
Proof.
  intros Hdef Hparen Husing Hm Hword Hcols Hcol.
  unfold index_of_row. cbn [Index.using_ Index.columns]. rewrite Hdef.
  unfold plain_indexdef. split.
  - change (str "USING " ++ method ++ str " (" ++ join (str ", ") columns ++ str ")")
      with (str "USING" ++ " "%char :: method ++ " "%char :: "("%char
                :: join (str ", ") columns ++ str ")").
    rewrite exec_using_skip by exact Husing.
    apply (exec_using_here method _ Hm Hword).
  - rewrite match_parens_skip by exact Hparen.
    assert (E : str "USING " ++ method ++ str " (" ++ join (str ", ") columns ++ str ")"
                = (str "USING " ++ method ++ [" "%char])
                    ++ "("%char :: join (str ", ") columns ++ str ")")
      by (rewrite <- !app_assoc; reflexivity).
    rewrite E, match_parens_skip.
    2:{ intros H. apply in_app_or in H as [H|H];
          [vm_compute in H; intuition discriminate|].
        apply in_app_or in H as [H|[H|[]]]; [|discriminate H].
        apply Hword in H. vm_compute in H. discriminate H. }
    cbn [match_parens parens_at]. rewrite Ascii.eqb_refl.
    assert (Hjoin : forall c, In c (join (str ", ") columns) ->
                              is_line_terminator c = false).
    { clear - Hcol. induction columns as [|c1 [|c2 rest] IH]; intros c Hin.
      - destruct Hin.
      - cbn [join] in Hin. apply (Hcol c1); [now left | exact Hin].
      - change (join (str ", ") (c1 :: c2 :: rest))
          with (c1 ++ str ", " ++ join (str ", ") (c2 :: rest)) in Hin.
        apply in_app_or in Hin as [Hin|Hin];
          [apply (Hcol c1); [now left | exact Hin]|].
        apply in_app_or in Hin as [Hin|Hin].
        + destruct Hin as [<-|[<-|[]]]; reflexivity.
        + apply IH; [|exact Hin]. intros col Hc. apply Hcol. now right. }
    rewrite take_while_all.
    2:{ intros c Hin. apply in_app_or in Hin as [Hin|[<-|[]]];
          [rewrite (Hjoin c Hin)|]; reflexivity. }
    change (str ")") with [")"%char]. rewrite upto_last_snoc.
    rewrite <- (app_nil_l (join (str ", ") columns)).
    rewrite split_join_comma;
      [|exact Hcols | intros c Hc; apply (Hcol c Hc) | intros []].
    destruct columns as [|c1 rest]; [contradiction|].
    cbn [app hd tl map]. f_equal.
    + f_equal. apply (Hcol c1). now left.
    + rewrite map_map. apply map_ext_in. intros c Hc.
      rewrite trim_space_cons. f_equal. apply (Hcol c). now right.
Qed.

Lemma index_of_row_reads_plain_indexdef_witness :
  Index.using_ (index_of_row sample_index_row) = Some (str "btree")
  /\ Index.columns (index_of_row sample_index_row)
     = [str "email"; str "Tenant"].
Proof.
  apply (index_of_row_reads_plain_indexdef sample_index_row
           (str "CREATE UNIQUE INDEX users_email_key ON public.users ")
           (str "btree") [str "email"; DQUOTE :: str "Tenant" ++ [DQUOTE]]).
  - reflexivity.
  - vm_compute. intuition discriminate.
  - vm_compute. reflexivity.
  - discriminate.
  - intros c Hc. vm_compute in Hc.
    repeat (destruct Hc as [<-|Hc]; [reflexivity|]). destruct Hc.
  - discriminate.
  - intros col [<-|[<-|[]]]; (split; [vm_compute; intuition discriminate|]);
      (split; [|vm_compute; reflexivity]); intros c Hc; vm_compute in Hc;
      repeat (destruct Hc as [<-|Hc]; [reflexivity|]); destruct Hc.
Defined.

Lemma trimStart_In (c : ascii) (s : jsstring) : In c (trimStart s) -> In c s.
Proof.
  induction s as [|x s IH]; cbn [trimStart]; [auto|].
  destruct (is_space x); [intros H; right; auto | auto].
Qed.

Lemma trimEnd_In (c : ascii) (s : jsstring) : In c (trimEnd s) -> In c s.
Proof.
  induction s as [|x s IH]; cbn [trimEnd]; [auto|].
  destruct (trimEnd s) as [|y r] eqn:E.
  - destruct (is_space x); [intros [] | intros [<-|[]]; now left].
  - intros [<-|H]; [now left | right; auto].
Qed.

Lemma split_pieces (c : ascii) (s piece : jsstring) :
  In piece (split c s) -> ~ In c piece.
Proof.
  revert piece. induction s as [|x s IH]; intros piece; cbn [split].
  - intros [<-|[]] [].
  - destruct (Ascii.eqb x c) eqn:E.
    + intros [<-|H]; [intros [] | auto].
    + apply Ascii.eqb_neq in E. destruct (split c s) as [|w ws] eqn:Es.
      * intros [<-|[]] [H|[]]. congruence.
      * intros [<-|H].
        -- intros [H|H]; [congruence|]. apply (IH w); [now left | exact H].
        -- apply IH. now right.
Qed.

Lemma replaceAll_In (c x : ascii) (s : jsstring) :
  In x (replaceAll c [] s) -> In x s /\ x <> c.
Proof.
  unfold replaceAll. induction s as [|y s IH]; cbn [flat_map]; [intros []|].
  destruct (Ascii.eqb y c) eqn:E.
  - cbn [app]. intros H. apply IH in H as [H1 H2]. split; [now right | exact H2].
  - apply Ascii.eqb_neq in E. cbn [app]. intros [<-|H].
    + split; [now left | exact E].
    + apply IH in H as [H1 H2]. split; [now right | exact H2].
Qed.

Lemma using_at_word (s w : jsstring) :
  using_at s = Some w -> w <> [] /\ forall c, In c w -> is_word c = true.
Proof.
  unfold using_at.
  destruct (jsstring_eqb (toUpperCase (firstn 5 s)) (str "USING")); [|discriminate].
  destruct (_ <? _); [|discriminate].
  set (after := drop_while is_space (skipn 5 s)).
  destruct (truthy (take_while is_word after)) eqn:E; [|discriminate].
  intros [= <-]. split.
  - intros H. rewrite H in E. discriminate E.
  - clear E. induction after as [|x after IH]; cbn [take_while]; [intros c []|].
    destruct (is_word x) eqn:Ex; [|intros c []].
    intros c [<-|H]; auto.
Qed.

(** X24.  What the index parser never returns, whatever the definition
    holds: a column of a parsed index has no double quote and no comma, and
    an access method is a non-empty word. *)
Theorem index_of_row_tokens (row : IndexRow.t) :
  (forall col, In col (Index.columns (index_of_row row)) ->
     ~ In DQUOTE col /\ ~ In ","%char col)
  /\ (forall method, Index.using_ (index_of_row row) = Some method ->
        method <> [] /\ forall c, In c method -> is_word c = true).
Proof.
  unfold index_of_row. cbn [Index.columns Index.using_]. split.
  - intros col Hin.
    destruct (match_parens (IndexRow.indexdef row)) as [inner|]; [|destruct Hin].
    apply in_map_iff in Hin as (piece & <- & Hin). split.
    + intros H. apply replaceAll_In in H as [_ H]. congruence.
    + intros H. apply replaceAll_In in H as [H _].
      apply trimEnd_In, trimStart_In in H.
      exact (split_pieces _ _ _ Hin H).
  - generalize (IndexRow.indexdef row). intros s method.
    induction s as [|x s IH]; cbn [exec_using].
    + destruct (using_at []) eqn:E; [|discriminate].
      intros [= <-]. exact (using_at_word _ _ E).
    + destruct (using_at (x :: s)) eqn:E; [|exact IH].
      intros [= <-]. exact (using_at_word _ _ E).
Qed.

(** ** The foreign-key loop of the loaders *)

Lemma fk_loop_heap (rows : list FkRow.t) (state : FkLoop.t) :
  Forall (fun fk => ForeignKey.columns fk <> []
                    /\ List.length (ForeignKey.columns fk)
                       = List.length (ForeignKey.refColumns fk))
         (FkLoop.heap state) ->
  Forall (fun fk => ForeignKey.columns fk <> []
                    /\ List.length (ForeignKey.columns fk)
                       = List.length (ForeignKey.refColumns fk))
         (FkLoop.heap (fold_left FkLoop.step rows state)).
Proof.
  revert state. induction rows as [|row rows IH]; intros state H;
    cbn [fold_left]; [exact H|].
  apply IH. unfold FkLoop.step.
  destruct (JsMap.get (FkRow.table_name row) (FkLoop.tables state));
    [|exact H].
  cbv zeta. destruct (JsMap.get _ (FkLoop.fkAccumulator state)) as [id|];
    cbn [FkLoop.heap].
  - apply Forall_alter; [exact H|].
    intros fk _ [Hne Hlen]. cbn [FkLoop.push_columns ForeignKey.columns
                                  ForeignKey.refColumns].
    split.
    + intros E. apply app_eq_nil in E as [_ E]. discriminate E.
    + rewrite !length_app, Hlen. reflexivity.
  - apply Forall_app. split; [exact H|]. constructor; [|constructor].
    cbn. split; [discriminate | reflexivity].
Qed.

(** X25.  The foreign-key loop keeps the two column lists aligned: every
    foreign key of a loaded table has at least one column and as many
    referenced columns as columns. *)
Theorem loaded_foreign_keys_aligned (tableRows : list TableRow.t)
    (fkRows : list FkRow.t) (table : Table.t) (fk : ForeignKey.t) :
  In table (table_foreign_keys tableRows fkRows) ->
  In fk (Table.fks table) ->
  ForeignKey.columns fk <> []
  /\ List.length (ForeignKey.columns fk)
     = List.length (ForeignKey.refColumns fk).
Proof.
  unfold table_foreign_keys. cbv zeta. intros Ht Hfk.
  apply in_map_iff in Ht as (entry & <- & _). cbn [Table.fks] in Hfk.
  apply In_omap in Hfk as (id & _ & Hid).
  set (start := FkLoop.mk _ [] JsMap.empty) in Hid.
  pose proof (fk_loop_heap fkRows start (Forall_nil_2 _)) as H.
  exact (proj1 (Forall_lookup _ _) H id fk Hid).
Qed.

Lemma loaded_foreign_keys_aligned_witness :
  let fk := {| ForeignKey.name := str "orders_user_fk";
               ForeignKey.columns := [str "tenant"; str "user_id"];
               ForeignKey.refTable := str "users";
               ForeignKey.refColumns := [str "tenant"; str "id"];
               ForeignKey.onUpdate := Some (str "NO ACTION");
               ForeignKey.onDelete := Some (str "CASCADE") |} in
  List.length (ForeignKey.columns fk) = List.length (ForeignKey.refColumns fk).
Proof.
  cbv zeta.
  refine (proj2 (loaded_foreign_keys_aligned sample_table_rows sample_fk_rows
                   {| Table.name := str "orders"; Table.columns := [];
                      Table.primaryKey := None; Table.indexes := [];
                      Table.checks := [];
                      Table.fks := [ {| ForeignKey.name := str "orders_user_fk";
               ForeignKey.columns := [str "tenant"; str "user_id"];
               ForeignKey.refTable := str "users";
               ForeignKey.refColumns := [str "tenant"; str "id"];
               ForeignKey.onUpdate := Some (str "NO ACTION");
               ForeignKey.onDelete := Some (str "CASCADE") |} ] |} _ _ _)).
  - vm_compute. right. left. reflexivity.
  - left. reflexivity.
Defined.
